(** * Maze generation and placement engine (client/src/utils/MazeGenerator.ts)

    A shallow embedding of the [MazeGenerator] class: the seeded random
    source, the four carving strategies, the connectivity repair, the
    boundary enforcement and the placement routines, followed by the
    properties of the specification that were checked against them.

    Conventions of the embedding.
    - A JavaScript number holding an integer is a [Z]; a number that may be
      fractional (the value of [rng()], [density]) is a [Q].  Where the
      source rounds to binary64 (the division in [rng()], the product
      [rng() * n]) the rounding is written out by [binary64].
    - A JavaScript array written by index is an [Arr]: its integer-keyed
      properties and its [length]; writing past the end extends it, writing
      at a negative index adds a property and leaves [length] alone, and
      reading a missing index gives [None] (undefined).
    - A call either returns, throws or runs out of fuel ([Outcome]); the
      closure state of [rng] is threaded explicitly ([M]). *)

From Stdlib Require Import ZArith QArith Qround List Bool Lia String.
From stdpp Require Import gmap list.
Import ListNotations.

Local Open Scope Z_scope.

(** ** Numbers *)

(** Round-half-to-even of the rational [n / d] (with [0 <= n], [0 < d]). *)
Definition rne (n d : Z) : Z :=
  let q := n / d in
  let r := n mod d in
  if 2 * r <? d then q
  else if d <? 2 * r then q + 1
  else if Z.even q then q else q + 1.

(** [floor (log2 (n / d))] for positive [n] and [d]. *)
Definition ilog2 (n d : Z) : Z :=
  let k := Z.log2 n - Z.log2 d in
  if (if 0 <=? k then d * 2 ^ k <=? n else d <=? n * 2 ^ (- k))
  then k else k - 1.

(** Rounding of a rational to the nearest binary64 value (53 significant
    bits, ties to even), for values in the normal range of binary64.  The
    exponent range is not modelled: where JavaScript overflows to Infinity
    (a magnitude of 2^1024 or more, which [state * 9301] reaches for a seed
    of about 2^1011 or more) or rounds to a subnormal, this function still
    rounds to 53 bits, and [lcg] and [rng] are not the source's there.  The
    properties below that hold for a range of seeds keep the seed in
    0 .. 2^53 - 1, where every integer is a number of its own. *)
Definition binary64 (q : Q) : Q :=
  let n := Z.abs (Qnum q) in
  let d := Zpos (Qden q) in
  if n =? 0 then 0%Q
  else
    let e := ilog2 n d - 52 in
    let v :=
      if 0 <=? e then inject_Z (rne n (d * 2 ^ e) * 2 ^ e)
      else Qmake (rne (n * 2 ^ (- e)) d) (Z.to_pos (2 ^ (- e))) in
    if Qnum q <? 0 then Qopp v else v.

Definition fmul (a b : Q) : Q := binary64 (a * b).
Definition fadd (a b : Q) : Q := binary64 (a + b).
Definition fdiv (a b : Q) : Q := binary64 (a / b).

(** [Math.floor]. *)
Definition Math_floor (q : Q) : Z := Qfloor q.

(** [a < b] on numbers. *)
Definition Qltb (a b : Q) : bool := negb (Qle_bool b a).

(** The value of a decimal literal. *)
Definition lit (q : Q) : Q := binary64 q.

(** ** Deterministic random source *)

(** One step of the closure returned by [createSeededRandom]:
    [state = (state * 9301 + 49297) % 233280].  [%] is the truncated
    remainder, which takes the sign of the dividend. *)
Definition lcg (state : Z) : Z :=
  Z.rem (Math_floor (fadd (fmul (inject_Z state) 9301) 49297)) 233280.

(** The value returned by that call: [state / 233280]. *)
Definition rng_value (state : Z) : Q := fdiv (inject_Z state) 233280.

(** ** Data model (Types.ts) *)

Inductive TileType : Type :=
  EMPTY | WALL | FLOOR | SPAWN | KEY_SPAWN | DOOR | EXIT.

#[global] Instance TileType_eq_dec : EqDecision TileType.
Proof. solve_decision. Defined.

Definition tile_eqb (a b : TileType) : bool := bool_decide (a = b).

(** [Vector2]: the fields [x] and [y]. *)
Record Vector2 : Type := mkV { vx : Z; vy : Z }.

#[global] Instance Vector2_eq_dec : EqDecision Vector2.
Proof. solve_decision. Defined.

(** The string [`${v.x},${v.y}`] used as a [Set] key. *)
Definition key (v : Vector2) : Z * Z := (vx v, vy v).

Definition manhattan (a b : Vector2) : Z :=
  Z.abs (vx a - vx b) + Z.abs (vy a - vy b).

(** ** JavaScript arrays *)

Record Arr (A : Type) : Type := mkArr { props : gmap Z A; len : Z }.
Arguments mkArr {A} _ _.
Arguments props {A} _.
Arguments len {A} _.

Definition arr_empty {A} : Arr A := mkArr ∅ 0.

(** [a[i]]: [None] is undefined. *)
Definition arr_get {A} (a : Arr A) (i : Z) : option A := props a !! i.

(** [a[i] = v]. *)
Definition arr_set {A} (a : Arr A) (i : Z) (v : A) : Arr A :=
  mkArr (<[i := v]> (props a))
        (if 0 <=? i then Z.max (len a) (i + 1) else len a).

(** [a[i] = v] where [v] may be undefined. *)
Definition arr_set_opt {A} (a : Arr A) (i : Z) (v : option A) : Arr A :=
  match v with
  | Some t => arr_set a i t
  | None => mkArr (delete i (props a))
                  (if 0 <=? i then Z.max (len a) (i + 1) else len a)
  end.

(** [l[i]] for an array that is only ever built by [push]. *)
Definition nthZ {A} (l : list A) (i : Z) : option A :=
  if i <? 0 then None else l !! Z.to_nat i.

Abbreviation Row := (Arr TileType).
Abbreviation Layout := (Arr (Arr TileType)).

(** ** Outcomes and the random-state monad *)

(** [TypeError] and [RangeError] are the errors the JavaScript runtime
    raises; [ConfigurationError] and [InfeasibleLevelError] are the two
    error classes the specification names. *)
Inductive Error : Type :=
  TypeError | RangeError | ConfigurationError | InfeasibleLevelError.

Inductive Outcome (A : Type) : Type :=
| Returns (a : A)
| Throws (e : Error)
| Timeout.
Arguments Returns {A} _.
Arguments Throws {A} _.
Arguments Timeout {A}.

Definition bindO {A B} (c : Outcome A) (k : A -> Outcome B) : Outcome B :=
  match c with
  | Returns a => k a
  | Throws e => Throws e
  | Timeout => Timeout
  end.

(** A computation that may call [this.rng()]: the closure state goes in
    and comes out. *)
Definition M (A : Type) : Type := Z -> Outcome (A * Z).

Definition ret {A} (a : A) : M A := fun s => Returns (a, s).
Definition bind {A B} (c : M A) (k : A -> M B) : M B :=
  fun s => match c s with
           | Returns (a, s') => k a s'
           | Throws e => Throws e
           | Timeout => Timeout
           end.
Definition throw {A} (e : Error) : M A := fun _ => Throws e.
Definition timeout {A} : M A := fun _ => Timeout.
Definition liftO {A} (c : Outcome A) : M A :=
  fun s => bindO c (fun a => Returns (a, s)).

(** [let! x := c in k] sequences outcomes, [let* x := c in k] also threads
    the random state. *)
Notation "'let!' x ':=' c 'in' k" := (bindO c (fun x => k))
  (at level 10, x name, c at level 100, k at level 200,
   format "'[v' 'let!'  x  :=  c  'in' '/' k ']'").
Notation "'let*' x ':=' c 'in' k" := (bind c (fun x => k))
  (at level 10, x name, c at level 100, k at level 200,
   format "'[v' 'let*'  x  :=  c  'in' '/' k ']'").

(** [for (const a of l)] with an accumulator. *)
Fixpoint forO {A S} (l : list A) (s : S) (body : A -> S -> Outcome S)
  : Outcome S :=
  match l with
  | [] => Returns s
  | a :: l' => bindO (body a s) (fun s' => forO l' s' body)
  end.

Fixpoint forM {A S} (l : list A) (s : S) (body : A -> S -> M S) : M S :=
  match l with
  | [] => ret s
  | a :: l' => bind (body a s) (fun s' => forM l' s' body)
  end.

(** The values of [i] in [for (let i = lo; i < hi; i += step)]. *)
Definition zrange_step (lo hi step : Z) : list Z :=
  map (fun k => lo + step * Z.of_nat k)
      (seq 0 (Z.to_nat ((hi - lo + step - 1) / step))).
Definition zrange (lo hi : Z) : list Z :=
  map (fun k => lo + Z.of_nat k) (seq 0 (Z.to_nat (hi - lo))).

(** [this.rng()]. *)
Definition rng : M Q := fun s => let s' := lcg s in Returns (rng_value s', s').

(** [Math.floor(this.rng() * n)]. *)
Definition randomIndex (n : Z) : M Z :=
  bind rng (fun r => ret (Math_floor (fmul r (inject_Z n)))).

(** [layout[y][x]]: reading through an undefined row is a TypeError. *)
Definition readTile (layout : Layout) (y x : Z) : Outcome (option TileType) :=
  match arr_get layout y with
  | None => Throws TypeError
  | Some row => Returns (arr_get row x)
  end.

(** [layout[y][x] = t]: the row object is updated in place. *)
Definition writeTile (layout : Layout) (y x : Z) (t : TileType)
  : Outcome Layout :=
  match arr_get layout y with
  | None => Throws TypeError
  | Some row => Returns (mkArr (<[y := arr_set row x t]> (props layout)) (len layout))
  end.

(** [layout[y][x] === t]. *)
Definition isTile (layout : Layout) (y x : Z) (t : TileType) : Outcome bool :=
  bindO (readTile layout y x) (fun o =>
  Returns (match o with Some t' => tile_eqb t' t | None => false end)).

(** [layout[0].length]. *)
Definition firstRowLength (layout : Layout) : Outcome Z :=
  match arr_get layout 0 with
  | None => Throws TypeError
  | Some row => Returns (len row)
  end.

(** [b && c] where evaluating [c] may throw. *)
Definition andO (b : bool) (c : Outcome bool) : Outcome bool :=
  if b then c else Returns false.

(** ** Options, generator and result *)

Inductive MazeAlgorithm : Type :=
  RECURSIVE_BACKTRACKING | CELLULAR_AUTOMATA | BINARY_TREE | PERLIN_CAVES.

Record MazeGenerationOptions : Type := mkOptions {
  opt_width : Z;
  opt_height : Z;
  opt_algorithm : MazeAlgorithm;
  opt_seed : option Z;
  opt_density : option Q;
  opt_iterations : option Z;
  opt_minRoomSize : option Z;
  opt_maxRoomSize : option Z;
  opt_roomCount : option Z
}.

(** [v || d] on an optional number: undefined and 0 give [d]. *)
Definition orDefault (v : option Z) (d : Z) : Z :=
  match v with
  | Some n => if n =? 0 then d else n
  | None => d
  end.

(** [v = d] in a destructuring pattern: only undefined gives [d]. *)
Definition withDefault {A} (v : option A) (d : A) : A :=
  match v with Some a => a | None => d end.

Record MazeData : Type := mkMaze {
  maze_id : Z * Z;                  (* `maze_${seed}_${Date.now()}` *)
  maze_width : Z;
  maze_height : Z;
  maze_layout : Layout;
  maze_spawnPoints : list Vector2;
  maze_keySpawns : list Vector2;
  maze_doorPositions : list Vector2;
  maze_exitPosition : Vector2;
  maze_theme : string
}.

(** The object built by [new MazeGenerator(seed)]: [this.seed] and the
    state captured by [this.rng]. *)
Record MazeGenerator : Type := mkGenerator { gen_seed : Z; gen_state : Z }.

(** The constructor; [now] is the value of [Date.now()].
    [seed || Date.now()] takes the clock when [seed] is undefined or 0. *)
Definition newMazeGenerator (seed : option Z) (now : Z) : MazeGenerator :=
  let s := orDefault seed now in
  mkGenerator s s.

(** ** Building grids *)

(** The initialisation loops shared by the four strategies:
    [layout[y] = []] and then [layout[y][x] = cell] for every [x]. *)
Definition newGrid (width height : Z) (cell : Z -> Z -> M TileType)
  : M Layout :=
  forM (zrange 0 height) arr_empty (fun y layout =>
    let* row := forM (zrange 0 width) arr_empty (fun x row =>
                  let* t := cell x y in ret (arr_set row x t)) in
    ret (arr_set layout y row)).

Definition newGridO (width height : Z) (cell : Z -> Z -> Outcome TileType)
  : Outcome Layout :=
  forO (zrange 0 height) arr_empty (fun y layout =>
    let! row := forO (zrange 0 width) arr_empty (fun x row =>
                  let! t := cell x y in Returns (arr_set row x t)) in
    Returns (arr_set layout y row)).

(** [Array(height).fill(null).map(() => Array(width).fill(false))].  The
    boolean matrix is kept as the set of cells that hold [true]; it is only
    read and written inside the grid. *)
Definition newVisited (width height : Z) : Outcome (gset (Z * Z)) :=
  if height <? 0 then Throws RangeError
  else if (0 <? height) && (width <? 0) then Throws RangeError
  else Returns ∅.

(** ** Recursive backtracking *)

Definition directions : list Vector2 :=
  [mkV 0 (-2); mkV 2 0; mkV 0 2; mkV (-2) 0].

Fixpoint carvePassages (fuel : nat) (width height : Z) (layout : Layout)
    (visited : gset (Z * Z)) (stack : list Vector2) : M Layout :=
  match fuel with
  | O => timeout
  | S fuel' =>
    match stack with
    | [] => ret layout
    | current :: below =>
      let neighbors :=
        List.filter (fun n =>
            (0 <? vx n) && (vx n <? width - 1) &&
            (0 <? vy n) && (vy n <? height - 1) &&
            negb (bool_decide (key n ∈ visited)))
          (map (fun dir => mkV (vx current + vx dir) (vy current + vy dir))
               directions) in
      if 0 <? Z.of_nat (length neighbors) then
        let* i := randomIndex (Z.of_nat (length neighbors)) in
        match nthZ neighbors i with
        | None => throw TypeError
        | Some next =>
          let wallX := vx current + (vx next - vx current) / 2 in
          let wallY := vy current + (vy next - vy current) / 2 in
          let* layout := liftO (writeTile layout wallY wallX FLOOR) in
          let* layout := liftO (writeTile layout (vy next) (vx next) FLOOR) in
          carvePassages fuel' width height layout
                        ({[ key next ]} ∪ visited) (next :: stack)
        end
      else carvePassages fuel' width height layout visited below
    end
  end.

Definition connectRoomToMaze (layout : Layout)
    (roomX roomY roomWidth roomHeight : Z) : M Layout :=
  let* connections :=
    liftO (forO (zrange roomX (roomX + roomWidth)) [] (fun x connections =>
      let! top := andO (1 <? roomY) (isTile layout (roomY - 2) x FLOOR) in
      let connections :=
        if top then connections ++ [mkV x (roomY - 1)] else connections in
      let! bottom := andO (roomY + roomHeight <? len layout - 1)
                          (isTile layout (roomY + roomHeight + 1) x FLOOR) in
      Returns (if bottom then connections ++ [mkV x (roomY + roomHeight)]
               else connections))) in
  let* connections :=
    liftO (forO (zrange roomY (roomY + roomHeight)) connections
      (fun y connections =>
      let! left := andO (1 <? roomX) (isTile layout y (roomX - 2) FLOOR) in
      let connections :=
        if left then connections ++ [mkV (roomX - 1) y] else connections in
      let! width := firstRowLength layout in
      let! right := andO (roomX + roomWidth <? width - 1)
                         (isTile layout y (roomX + roomWidth + 1) FLOOR) in
      Returns (if right then connections ++ [mkV (roomX + roomWidth) y]
               else connections))) in
  if 0 <? Z.of_nat (length connections) then
    let* i := randomIndex (Z.of_nat (length connections)) in
    match nthZ connections i with
    | None => throw TypeError
    | Some connection =>
      liftO (writeTile layout (vy connection) (vx connection) FLOOR)
    end
  else ret layout.

Definition addRandomRooms (layout : Layout) (minSize maxSize count : Z)
  : M Layout :=
  let height := len layout in
  let* width := liftO (firstRowLength layout) in
  forM (zrange 0 count) layout (fun _ layout =>
    let* a := randomIndex (maxSize - minSize + 1) in
    let roomWidth := minSize + a in
    let* b := randomIndex (maxSize - minSize + 1) in
    let roomHeight := minSize + b in
    let* c := randomIndex (width - roomWidth - 2) in
    let roomX := 1 + c in
    let* d := randomIndex (height - roomHeight - 2) in
    let roomY := 1 + d in
    let* layout :=
      liftO (forO (zrange roomY (roomY + roomHeight)) layout (fun y layout =>
               forO (zrange roomX (roomX + roomWidth)) layout (fun x layout =>
                 writeTile layout y x FLOOR))) in
    connectRoomToMaze layout roomX roomY roomWidth roomHeight).

Definition generateRecursiveBacktracking (fuel : nat)
    (options : MazeGenerationOptions) : M Layout :=
  let width := opt_width options in
  let height := opt_height options in
  let* layout := newGrid width height (fun _ _ => ret WALL) in
  let startX := 1 in
  let startY := 1 in
  let* visited := liftO (newVisited width height) in
  let* layout := liftO (writeTile layout startY startX FLOOR) in
  let visited := {[ (startX, startY) ]} ∪ visited in
  let* layout := carvePassages fuel width height layout visited
                               [mkV startX startY] in
  addRandomRooms layout (orDefault (opt_minRoomSize options) 3)
                        (orDefault (opt_maxRoomSize options) 7)
                        (orDefault (opt_roomCount options) 3).

(** ** Cellular automata *)

Definition offsets : list Z := [-1; 0; 1].

(** The neighbour count of [applyCellularAutomataRules] for the cell
    [(x, y)]: [dy] and [dx] both run over -1, 0, 1.  ([floorCount] is
    computed by the source and never read.) *)
Definition wallCount (layout : Layout) (width height x y : Z) : Outcome Z :=
  forO offsets 0 (fun dy count =>
    forO offsets count (fun dx count =>
      let nx := x + dx in
      let ny := y + dy in
      if (nx <? 0) || (width <=? nx) || (ny <? 0) || (height <=? ny)
      then Returns (count + 1)
      else
        let! w := isTile layout ny nx WALL in
        Returns (if w then count + 1 else count))).

Definition applyCellularAutomataRules (layout : Layout) (width height : Z)
  : Outcome Layout :=
  newGridO width height (fun x y =>
    let! count := wallCount layout width height x y in
    Returns (if 5 <=? count then WALL else FLOOR)).

(** ** Connectivity repair *)

Fixpoint floodLoop (fuel : nat) (layout : Layout) (width height : Z)
    (visited : gset (Z * Z)) (region stack : list Vector2)
  : Outcome (list Vector2 * gset (Z * Z)) :=
  match fuel with
  | O => Timeout
  | S fuel' =>
    match stack with
    | [] => Returns (region, visited)
    | p :: stack' =>
      let x := vx p in
      let y := vy p in
      if (x <? 0) || (width <=? x) || (y <? 0) || (height <=? y)
         || bool_decide ((x, y) ∈ visited)
      then floodLoop fuel' layout width height visited region stack'
      else
        let! isFloor := isTile layout y x FLOOR in
        if negb isFloor
        then floodLoop fuel' layout width height visited region stack'
        else floodLoop fuel' layout width height
               ({[ (x, y) ]} ∪ visited) (region ++ [p])
               (mkV x (y - 1) :: mkV x (y + 1) :: mkV (x - 1) y
                  :: mkV (x + 1) y :: stack')
    end
  end.

(** [stack.pop()] takes the last pushed cell, so the stack is kept with its
    top first. *)
Definition floodFill (fuel : nat) (layout : Layout) (visited : gset (Z * Z))
    (startX startY : Z) : Outcome (list Vector2 * gset (Z * Z)) :=
  let height := len layout in
  let! width := firstRowLength layout in
  floodLoop fuel layout width height visited [] [mkV startX startY].

Fixpoint carveHorizontal (fuel : nat) (layout : Layout) (x y endX : Z)
  : Outcome (Layout * Z) :=
  if x =? endX then Returns (layout, x)
  else match fuel with
       | O => Timeout
       | S fuel' =>
         let! layout := writeTile layout y x FLOOR in
         carveHorizontal fuel' layout (x + (if x <? endX then 1 else -1))
                         y endX
       end.

Fixpoint carveVertical (fuel : nat) (layout : Layout) (x y endY : Z)
  : Outcome (Layout * Z) :=
  if y =? endY then Returns (layout, y)
  else match fuel with
       | O => Timeout
       | S fuel' =>
         let! layout := writeTile layout y x FLOOR in
         carveVertical fuel' layout x (y + (if y <? endY then 1 else -1))
                       endY
       end.

Definition carveConnection (fuel : nat) (layout : Layout)
    (start finish : Vector2) : Outcome Layout :=
  let! h := carveHorizontal fuel layout (vx start) (vy start) (vx finish) in
  let! v := carveVertical fuel (fst h) (snd h) (vy start) (vy finish) in
  writeTile (fst v) (snd v) (snd h) FLOOR.

(** The closest pair; [None] is the initial [bestDistance = Infinity]. *)
Definition closestPair (region1 region2 : list Vector2)
  : option (Z * (Vector2 * Vector2)) :=
  fold_left (fun best p1 =>
    fold_left (fun best p2 =>
      let distance := manhattan p1 p2 in
      match best with
      | None => Some (distance, (p1, p2))
      | Some (bestDistance, _) =>
        if distance <? bestDistance then Some (distance, (p1, p2)) else best
      end) region2 best) region1 None.

Definition connectRegions (fuel : nat) (layout : Layout)
    (region1 region2 : list Vector2) : Outcome Layout :=
  match closestPair region1 region2 with
  | Some (_, (p1, p2)) => carveConnection fuel layout p1 p2
  | None => Returns layout
  end.

Definition ensureConnectivity (fuel : nat) (layout : Layout)
  : Outcome Layout :=
  let height := len layout in
  let! width := firstRowLength layout in
  let! found :=
    forO (zrange 0 height) ([], ∅) (fun y st =>
      forO (zrange 0 width) st (fun x st =>
        let '(regions, visited) := st in
        let! isFloor := isTile layout y x FLOOR in
        if isFloor && negb (bool_decide ((x, y) ∈ visited)) then
          let! r := floodFill fuel layout visited x y in
          let '(region, visited) := r in
          Returns (if 10 <? Z.of_nat (length region)
                   then (regions ++ [region], visited)
                   else (regions, visited))
        else Returns st)) in
  match fst found with
  | region0 :: (_ :: _) as others =>
    forO others layout (fun region layout =>
      connectRegions fuel layout region0 region)
  | _ => Returns layout
  end.

Definition generateCellularAutomata (fuel : nat)
    (options : MazeGenerationOptions) : M Layout :=
  let width := opt_width options in
  let height := opt_height options in
  let density := withDefault (opt_density options) (lit (45 # 100)) in
  let iterations := withDefault (opt_iterations options) 5 in
  let* layout := newGrid width height (fun _ _ =>
                   let* r := rng in
                   ret (if Qltb r density then WALL else FLOOR)) in
  let* layout := liftO (forO (zrange 0 iterations) layout (fun _ layout =>
                   applyCellularAutomataRules layout width height)) in
  liftO (ensureConnectivity fuel layout).

(** ** Binary tree *)

(** The body of the inner loop at the site (x, y): carve the site, then
    north or west of it. *)
Definition treeSite (x y : Z) (layout : Layout) : M Layout :=
  let* layout := liftO (writeTile layout y x FLOOR) in
  let dirs := (if 1 <? y then [mkV 0 (-1)] else [])
              ++ (if 1 <? x then [mkV (-1) 0] else []) in
  if 0 <? Z.of_nat (length dirs) then
    let* i := randomIndex (Z.of_nat (length dirs)) in
    match nthZ dirs i with
    | None => throw TypeError
    | Some dir => liftO (writeTile layout (y + vy dir) (x + vx dir) FLOOR)
    end
  else ret layout.

Definition generateBinaryTree (options : MazeGenerationOptions) : M Layout :=
  let width := opt_width options in
  let height := opt_height options in
  let* layout := newGrid width height (fun _ _ => ret WALL) in
  forM (zrange_step 1 (height - 1) 2) layout (fun y layout =>
    forM (zrange_step 1 (width - 1) 2) layout (fun x layout =>
      treeSite x y layout)).

(** ** Noise caves *)

(** [JSON.parse(JSON.stringify(a))] on an array: the elements at
    0 .. length-1 are copied, other properties are dropped.  A hole is
    copied as null, which no comparison of this program tells from
    undefined, so it stays a missing index. *)
Definition jsonCopy {A B} (f : A -> B) (a : Arr A) : Arr B :=
  mkArr (fold_left (fun acc i =>
                      match arr_get a i with
                      | Some v => <[i := f v]> acc
                      | None => acc
                      end) (zrange 0 (len a)) ∅)
        (len a).

(** [layout[y][x] = t] where [t] may be undefined. *)
Definition writeTileOpt (layout : Layout) (y x : Z) (t : option TileType)
  : Outcome Layout :=
  match arr_get layout y with
  | None => Throws TypeError
  | Some row =>
    Returns (mkArr (<[y := arr_set_opt row x t]> (props layout)) (len layout))
  end.

(** The count of [smoothCaves] for the cell [(x, y)]. *)
Definition smoothCount (layout : Layout) (x y : Z) : Outcome Z :=
  forO offsets 0 (fun dy count =>
    forO offsets count (fun dx count =>
      let! w := isTile layout (y + dy) (x + dx) WALL in
      Returns (if w then count + 1 else count))).

Definition smoothCaves (layout : Layout) : Outcome Layout :=
  let height := len layout in
  let! width := firstRowLength layout in
  let newLayout : Layout := jsonCopy (jsonCopy (fun t => t)) layout in
  let! newLayout :=
    forO (zrange 1 (height - 1)) newLayout (fun y newLayout =>
      forO (zrange 1 (width - 1)) newLayout (fun x newLayout =>
        let! count := smoothCount layout x y in
        writeTile newLayout y x (if 5 <=? count then WALL else FLOOR))) in
  forO (zrange 0 height) layout (fun y layout =>
    forO (zrange 0 width) layout (fun x layout =>
      let! t := readTile newLayout y x in
      writeTileOpt layout y x t)).

Section Generator.

(** [Math.sin] is supplied by the JavaScript engine. *)
Variable Math_sin : Q -> Q.

Definition noise (seed : Z) (x y : Q) : Q :=
  let n := fmul (Math_sin (fadd (fadd (fmul x (lit (129898 # 10000)))
                                      (fmul y (lit (78233 # 1000))))
                                (inject_Z seed)))
                (lit (437585453 # 10000)) in
  binary64 (n - inject_Z (Math_floor n)).

Definition generatePerlinCaves (seed : Z) (options : MazeGenerationOptions)
  : M Layout :=
  let width := opt_width options in
  let height := opt_height options in
  let density := withDefault (opt_density options) (lit (4 # 10)) in
  let* layout := newGrid width height (fun x y =>
    let noise1 := noise seed (fmul (inject_Z x) (lit (1 # 10)))
                             (fmul (inject_Z y) (lit (1 # 10))) in
    let noise2 := fmul (noise seed (fmul (inject_Z x) (lit (5 # 100)))
                                   (fmul (inject_Z y) (lit (5 # 100))))
                       (1 # 2) in
    let noise3 := fmul (noise seed (fmul (inject_Z x) (lit (2 # 10)))
                                   (fmul (inject_Z y) (lit (2 # 10))))
                       (1 # 4) in
    let combined := fadd (fadd noise1 noise2) noise3 in
    ret (if Qltb density combined then WALL else FLOOR)) in
  liftO (forO (zrange 0 3) layout (fun _ layout => smoothCaves layout)).

End Generator.

(** ** Boundary enforcement *)

Definition ensureBoundaryWalls (layout : Layout) : Outcome Layout :=
  let height := len layout in
  let! width := firstRowLength layout in
  let! layout :=
    forO (zrange 0 width) layout (fun x layout =>
      let! layout := writeTile layout 0 x WALL in
      writeTile layout (height - 1) x WALL) in
  forO (zrange 0 height) layout (fun y layout =>
    let! layout := writeTile layout y 0 WALL in
    writeTile layout y (width - 1) WALL).

(** ** Placement *)

Definition findFloorTiles (layout : Layout) : Outcome (list Vector2) :=
  forO (zrange 0 (len layout)) [] (fun y floors =>
    match arr_get layout y with
    | None => Throws TypeError
    | Some row =>
      forO (zrange 0 (len row)) floors (fun x floors =>
        let! isFloor := isTile layout y x FLOOR in
        Returns (if isFloor then floors ++ [mkV x y] else floors))
    end).

(** [floorTiles[Math.floor(this.rng() * floorTiles.length)]] followed by
    the read of [tile.x]. *)
Definition randomTile (floorTiles : list Vector2) : M Vector2 :=
  let* i := randomIndex (Z.of_nat (length floorTiles)) in
  match nthZ floorTiles i with
  | None => throw TypeError
  | Some tile => ret tile
  end.

Abbreviation SpawnState := (list Vector2 * gset (Z * Z))%type.

(** The [while (attempts < maxAttempts)] loop of [generateSpawnPoints];
    [left] is [maxAttempts - attempts]. *)
Fixpoint spawnAttempts (left : nat) (floorTiles : list Vector2)
    (st : SpawnState) : M SpawnState :=
  match left with
  | O => ret st
  | S left' =>
    let '(spawns, used) := st in
    let* tile := randomTile floorTiles in
    if negb (bool_decide (key tile ∈ used)) then
      let minDistance := 5 in
      let tooClose :=
        existsb (fun spawn => manhattan spawn tile <? minDistance) spawns in
      if negb tooClose
      then ret (spawns ++ [tile], {[ key tile ]} ∪ used)
      else spawnAttempts left' floorTiles st
    else spawnAttempts left' floorTiles st
  end.

(** The relaxed loop
    [while (spawns.length < count && spawns.length < floorTiles.length)]. *)
Fixpoint spawnRelaxed (fuel : nat) (floorTiles : list Vector2) (count : Z)
    (st : SpawnState) : M SpawnState :=
  let '(spawns, used) := st in
  if (Z.of_nat (length spawns) <? count)
     && (Z.of_nat (length spawns) <? Z.of_nat (length floorTiles))
  then
    match fuel with
    | O => timeout
    | S fuel' =>
      let* tile := randomTile floorTiles in
      if negb (bool_decide (key tile ∈ used))
      then spawnRelaxed fuel' floorTiles count
                        (spawns ++ [tile], {[ key tile ]} ∪ used)
      else spawnRelaxed fuel' floorTiles count st
    end
  else ret st.

Definition generateSpawnPoints (fuel : nat) (floorTiles : list Vector2)
    (count : Z) : M (list Vector2) :=
  let* st := forM (zrange 0 count) ([], ∅) (fun _ st =>
               if Z.of_nat (length (fst st)) <? count
               then spawnAttempts 100 floorTiles st
               else ret st) in
  let* st := spawnRelaxed fuel floorTiles count st in
  ret (fst st).

(** The [while (attempts < maxAttempts && keys.length < count)] loop of
    [generateKeySpawns]. *)
Fixpoint keyAttempts (left : nat) (floorTiles : list Vector2) (count : Z)
    (st : SpawnState) : M SpawnState :=
  match left with
  | O => ret st
  | S left' =>
    let '(keys, used) := st in
    if Z.of_nat (length keys) <? count then
      let* tile := randomTile floorTiles in
      if negb (bool_decide (key tile ∈ used))
      then ret (keys ++ [tile], {[ key tile ]} ∪ used)
      else keyAttempts left' floorTiles count st
    else ret st
  end.

Definition generateKeySpawns (floorTiles spawnPoints : list Vector2)
    (count : Z) : M (list Vector2) :=
  let used : gset (Z * Z) := list_to_set (map key spawnPoints) in
  let* st := forM (zrange 0 count) ([], used) (fun _ st =>
               if Z.of_nat (length (fst st)) <? count
               then keyAttempts 100 floorTiles count st
               else ret st) in
  ret (fst st).

(** The four neighbours in the order of the source, kept when inside the
    grid and [FLOOR]. *)
Definition adjacentFloors (layout : Layout) (x y : Z)
  : Outcome (list Vector2) :=
  forO [mkV (x - 1) y; mkV (x + 1) y; mkV x (y - 1); mkV x (y + 1)] []
    (fun pos acc =>
      let! inside := andO (0 <=? vx pos) (let! w := firstRowLength layout in
                                         Returns (vx pos <? w)) in
      let! keep := andO (inside && (0 <=? vy pos) && (vy pos <? len layout))
                        (isTile layout (vy pos) (vx pos) FLOOR) in
      Returns (if keep then acc ++ [pos] else acc)).

(** The first scan of [generateDoorPositions]: interior walls next to a
    floor. *)
Definition doorCandidates (layout : Layout) : Outcome (list Vector2) :=
  forO (zrange 1 (len layout - 1)) [] (fun y potentialDoors =>
    match arr_get layout y with
    | None => Throws TypeError
    | Some row =>
      forO (zrange 1 (len row - 1)) potentialDoors (fun x potentialDoors =>
        let! isWall := isTile layout y x WALL in
        if isWall then
          let! adjacent := adjacentFloors layout x y in
          Returns (if 1 <=? Z.of_nat (length adjacent)
                   then potentialDoors ++ [mkV x y] else potentialDoors)
        else Returns potentialDoors)
    end).

(** The second scan: any wall two cells inside the edge whose key is not in
    [used]; [used] starts empty. *)
Definition doorFallback (layout : Layout) (potentialDoors : list Vector2)
  : Outcome (list Vector2) :=
  let! st :=
    forO (zrange 2 (len layout - 2)) (potentialDoors, (∅ : gset (Z * Z)))
      (fun y st =>
      match arr_get layout y with
      | None => Throws TypeError
      | Some row =>
        forO (zrange 2 (len row - 2)) st (fun x st =>
          let '(potentialDoors, used) := st in
          let! isWall := isTile layout y x WALL in
          if isWall && negb (bool_decide ((x, y) ∈ used))
          then Returns (potentialDoors ++ [mkV x y], {[ (x, y) ]} ∪ used)
          else Returns st)
      end) in
  Returns (fst st).

(** [a.splice(index, 1)]: the removed element, if any, and what is left. *)
Definition splice1 {A} (a : list A) (index : Z) : option A * list A :=
  let n := Z.of_nat (length a) in
  let start := if index <? 0 then Z.max (n + index) 0 else Z.min index n in
  match a !! Z.to_nat start with
  | Some v => (Some v, take (Z.to_nat start) a ++ drop (S (Z.to_nat start)) a)
  | None => (None, a)
  end.

(** The selection loop; a door may be undefined when [splice] removed
    nothing. *)
Definition selectDoors (potentialDoors : list Vector2) (count : Z)
  : M (list (option Vector2)) :=
  let* st := forM (zrange 0 count) ([], potentialDoors) (fun _ st =>
    let '(doors, potentialDoors) := st in
    if (Z.of_nat (length doors) <? count)
       && (0 <? Z.of_nat (length potentialDoors))
    then
      let* index := randomIndex (Z.of_nat (length potentialDoors)) in
      let '(door, potentialDoors) := splice1 potentialDoors index in
      ret (doors ++ [door], potentialDoors)
    else ret st) in
  ret (fst st).

Definition generateDoorPositions (layout : Layout) (count : Z)
  : M (list (option Vector2)) :=
  let* potentialDoors := liftO (doorCandidates layout) in
  let* potentialDoors :=
    if Z.of_nat (length potentialDoors) <? count
    then liftO (doorFallback layout potentialDoors)
    else ret potentialDoors in
  selectDoors potentialDoors count.

(** [Math.min(...distances)]; [None] is [Infinity]. *)
Definition minDistance (spawnPoints : list Vector2) (tile : Vector2)
  : option Z :=
  fold_left (fun m spawn =>
               let d := manhattan spawn tile in
               match m with
               | None => Some d
               | Some m' => Some (Z.min m' d)
               end) spawnPoints None.

(** [a > b] where [None] is [Infinity]. *)
Definition gtInf (a b : option Z) : bool :=
  match a, b with
  | None, Some _ => true
  | Some a', Some b' => b' <? a'
  | _, None => false
  end.

(** [None] is an undefined [bestExit]. *)
Definition generateExitPosition (floorTiles spawnPoints : list Vector2)
  : option Vector2 :=
  fst (fold_left (fun st tile =>
                    let '(bestExit, maxMinDistance) := st in
                    let d := minDistance spawnPoints tile in
                    if gtInf d maxMinDistance then (Some tile, d) else st)
                 floorTiles (floorTiles !! 0%nat, Some 0)).

Definition placeSpecialTiles (layout : Layout)
    (doorPositions : list (option Vector2)) : Outcome Layout :=
  forO doorPositions layout (fun door layout =>
    match door with
    | None => Throws TypeError
    | Some d => writeTile layout (vy d) (vx d) DOOR
    end).

(** The doors as the returned [Vector2[]]. *)
Definition definedDoors (doors : list (option Vector2)) : list Vector2 :=
  omap (fun d => d) doors.

Section Assembly.

Variable Math_sin : Q -> Q.

(** The [switch] of [generateMaze]. *)
Definition carve (fuel : nat) (seed : Z) (options : MazeGenerationOptions)
  : M Layout :=
  match opt_algorithm options with
  | RECURSIVE_BACKTRACKING => generateRecursiveBacktracking fuel options
  | CELLULAR_AUTOMATA => generateCellularAutomata fuel options
  | BINARY_TREE => generateBinaryTree options
  | PERLIN_CAVES => generatePerlinCaves Math_sin seed options
  end.

(** What [generateMaze] does after the [switch]; [now] is the value of
    [Date.now()] read for the id.  The loop that counts the [DOOR] tiles for
    the log reads every row of [layout] and changes nothing. *)
Definition assemble (fuel : nat) (seed : Z) (options : MazeGenerationOptions)
    (now : Z) (layout : Layout) : M MazeData :=
  let* layout := liftO (ensureBoundaryWalls layout) in
  let* floorTiles := liftO (findFloorTiles layout) in
  let* spawnPoints := generateSpawnPoints fuel floorTiles 4 in
  let* keySpawns := generateKeySpawns floorTiles spawnPoints 6 in
  let* doorPositions := generateDoorPositions layout 3 in
  match generateExitPosition floorTiles spawnPoints with
  | None => throw TypeError
  | Some exitPosition =>
    let* layout := liftO (placeSpecialTiles layout doorPositions) in
    ret (mkMaze (seed, now) (opt_width options) (opt_height options) layout
                spawnPoints keySpawns (definedDoors doorPositions)
                exitPosition "default")
  end.

(** [this.generateMaze(options)]: the result and the generator with the
    random state the call leaves behind. *)
Definition generateMaze (fuel : nat) (this : MazeGenerator)
    (options : MazeGenerationOptions) (now : Z)
  : Outcome (MazeData * MazeGenerator) :=
  match (let* layout := carve fuel (gen_seed this) options in
         assemble fuel (gen_seed this) options now layout) (gen_state this)
  with
  | Returns (maze, state) => Returns (maze, mkGenerator (gen_seed this) state)
  | Throws e => Throws e
  | Timeout => Timeout
  end.

End Assembly.

(** ** Observing results *)

(** The tile at column [x] of row [y]; [None] when the row or the index is
    missing. *)
Definition cell (layout : Layout) (x y : Z) : option TileType :=
  match arr_get layout y with
  | Some row => arr_get row x
  | None => None
  end.

(** The part of a result the determinism property speaks of: the grid and
    the four coordinate lists. *)
Definition observable (r : Outcome (MazeData * MazeGenerator))
  : Outcome (Layout * list Vector2 * list Vector2 * list Vector2 * Vector2) :=
  match r with
  | Returns (m, _) =>
    Returns (maze_layout m, maze_spawnPoints m, maze_keySpawns m,
             maze_doorPositions m, maze_exitPosition m)
  | Throws e => Throws e
  | Timeout => Timeout
  end.

Definition returned {A} (r : Outcome A) : bool :=
  match r with Returns _ => true | _ => false end.

(** A tile of the grid of a returned maze. *)
Definition resultCell (r : Outcome (MazeData * MazeGenerator)) (x y : Z)
  : option TileType :=
  match r with
  | Returns (m, _) => cell (maze_layout m) x y
  | _ => None
  end.

Definition resultDoors (r : Outcome (MazeData * MazeGenerator))
  : list Vector2 :=
  match r with
  | Returns (m, _) => maze_doorPositions m
  | _ => []
  end.

(** The floor tiles [generateMaze] finds after carving and boundary
    enforcement. *)
Definition floorTilesAfterBoundary (Math_sin : Q -> Q) (fuel : nat)
    (this : MazeGenerator) (options : MazeGenerationOptions)
  : Outcome (list Vector2) :=
  let! r := carve Math_sin fuel (gen_seed this) options (gen_state this) in
  let! layout := ensureBoundaryWalls (fst r) in
  findFloorTiles layout.

(** Options with only the dimensions and the algorithm given. *)
Definition plainOptions (width height : Z) (algorithm : MazeAlgorithm)
  : MazeGenerationOptions :=
  mkOptions width height algorithm None None None None None None.

(** An engine whose [Math.sin] is constantly 0; the strategies other than
    the noise caves never call it. *)
Definition flatSin : Q -> Q := fun _ => 0%Q.

(** An array literal of rows. *)
Definition layoutOfRows (rows : list (list TileType)) : Layout :=
  fold_left (fun layout row =>
               arr_set layout (len layout)
                 (fold_left (fun r t => arr_set r (len r) t) row arr_empty))
            rows arr_empty.

(** ** Vocabulary of the properties *)

(** Every row 0 .. height-1 of the layout is defined. *)
Definition rowsDefined (layout : Layout) (height : Z) : Prop :=
  forall y, 0 <= y < height -> is_Some (arr_get layout y).

(** A full [width] x [height] grid: the rows 0 .. height-1, each with a
    tile at every column 0 .. width-1. *)
Definition isGrid (layout : Layout) (width height : Z) : Prop :=
  len layout = height /\
  forall y, 0 <= y < height ->
    exists row, arr_get layout y = Some row /\ len row = width /\
                forall x, 0 <= x < width -> is_Some (arr_get row x).

(** The same as a test. *)
Definition fullGrid (layout : Layout) (width height : Z) : bool :=
  (len layout =? height)
  && forallb (fun y =>
       match arr_get layout y with
       | Some row =>
         (len row =? width)
         && forallb (fun x => bool_decide (is_Some (arr_get row x)))
                    (zrange 0 width)
       | None => false
       end) (zrange 0 height).

(** The layout [generateMaze] has before the doors are baked in: carved and
    with its boundary walled. *)
Definition layoutBeforeBaking (Math_sin : Q -> Q) (fuel : nat)
    (this : MazeGenerator) (options : MazeGenerationOptions)
  : Outcome Layout :=
  let! r := carve Math_sin fuel (gen_seed this) options (gen_state this) in
  ensureBoundaryWalls (fst r).

(** A cell 4-directionally adjacent to [d] holds floor. *)
Definition hasFloorNeighbour (layout : Layout) (d : Vector2) : Prop :=
  exists p, manhattan d p = 1 /\ cell layout (vx p) (vy p) = Some FLOOR.

(** Connectivity of the floor: [reach layout p q] says that a walk over
    floor cells, each 4-directionally adjacent to the one before, leads
    from [p] to [q]; this is what a flood fill started at [p] visits. *)
Definition floorAt (layout : Layout) (p : Vector2) : Prop :=
  cell layout (vx p) (vy p) = Some FLOOR.

Inductive reach (layout : Layout) (p : Vector2) : Vector2 -> Prop :=
| reach_here : floorAt layout p -> reach layout p p
| reach_step (q r : Vector2) :
    reach layout p q -> manhattan q r = 1 -> floorAt layout r ->
    reach layout p r.

Definition floorConnected (layout : Layout) : Prop :=
  forall p q, floorAt layout p -> floorAt layout q -> reach layout p q.

Definition neighbours4 (p : Vector2) : list Vector2 :=
  [mkV (vx p - 1) (vy p); mkV (vx p + 1) (vy p);
   mkV (vx p) (vy p - 1); mkV (vx p) (vy p + 1)].

(** [pocket] is closed under stepping to an adjacent floor cell. *)
Definition closedPocket (layout : Layout) (pocket : list Vector2) : bool :=
  forallb (fun q =>
    forallb (fun r =>
      implb (bool_decide (cell layout (vx r) (vy r) = Some FLOOR))
            (bool_decide (r ∈ pocket)))
      (neighbours4 q)) pocket.

(** A position that is outside the grid or holds a wall. *)
Definition isWallOrOutside (layout : Layout) (width height x y : Z) : bool :=
  (x <? 0) || (width <=? x) || (y <? 0) || (height <=? y)
  || match cell layout x y with
     | Some t => tile_eqb t WALL
     | None => false
     end.

(** Offsets (dx, dy) of the 8 neighbours of a cell, and of the 3 x 3 block
    around it, which has the cell itself in the middle. *)
Definition neighbours8 : list (Z * Z) :=
  [(-1, -1); (0, -1); (1, -1); (-1, 0); (1, 0); (-1, 1); (0, 1); (1, 1)].
Definition block9 : list (Z * Z) :=
  [(-1, -1); (0, -1); (1, -1); (-1, 0); (0, 0); (1, 0); (-1, 1); (0, 1);
   (1, 1)].

(** How many of the given positions around (x, y) are walls or outside. *)
Definition countWalls (positions : list (Z * Z)) (layout : Layout)
    (width height x y : Z) : Z :=
  Z.of_nat (length (List.filter
    (fun d => isWallOrOutside layout width height (x + fst d) (y + snd d))
    positions)).

(** The threshold: wall from 5 on, floor below. *)
Definition majority (n : Z) : TileType := if 5 <=? n then WALL else FLOOR.

(** The grid with the tile [f x y] at column [x] of row [y]. *)
Definition rowOf {A} (width : Z) (g : Z -> A) : Arr A :=
  fold_left (fun r x => arr_set r x (g x)) (zrange 0 width) arr_empty.
Definition gridOf (width height : Z) (f : Z -> Z -> TileType) : Layout :=
  rowOf height (fun y => rowOf width (fun x => f x y)).

(** The outcomes the JavaScript runtime itself can produce. *)
Definition jsOnly {A} (r : Outcome A) : Prop :=
  match r with
  | Throws e => e = TypeError \/ e = RangeError
  | _ => True
  end.

Definition jsOnlyM {A} (c : M A) : Prop := forall s, jsOnly (c s).

(** Not in the first or last row of the layout, nor in the first or last
    column of its own row.  On a full width x height grid this is strictly
    inside the border; where room injection has lengthened a row beyond the
    width, a cell of column width - 1 of that row satisfies it too. *)
Definition insideBorder (layout : Layout) (d : Vector2) : Prop :=
  1 <= vy d < len layout - 1 /\
  exists row, arr_get layout (vy d) = Some row /\ 1 <= vx d < len row - 1.

(** What the first scan promises of a candidate. *)
Definition candidate (layout : Layout) (d : Vector2) : Prop :=
  cell layout (vx d) (vy d) = Some WALL /\
  insideBorder layout d /\
  hasFloorNeighbour layout d.

(** Strictly inside the border of a [width] x [height] grid. *)
Definition interior (width height : Z) (p : Vector2) : Prop :=
  1 <= vx p <= width - 2 /\ 1 <= vy p <= height - 2.

(** What holds of the layout between two sites: its size and its row 0 are
    those of the initial grid, and every floor cell lies inside the border
    and is joined to (1, 1). *)
Definition treeInv (width height : Z) (layout0 layout : Layout) : Prop :=
  len layout = len layout0 /\
  arr_get layout 0 = arr_get layout0 0 /\
  forall p, floorAt layout p ->
            interior width height p /\ reach layout (mkV 1 1) p.


(** ** Vocabulary of the further properties *)

(** [1 + 2^-53]: rounding a positive value to binary64 raises it by at most
    this factor. *)
Definition ulpFactor : Q := 9007199254740993 # 9007199254740992.

(** Inside the arrays of the layout: in one of its rows, at a column of
    that row. *)
Definition inArray (layout : Layout) (p : Vector2) : Prop :=
  0 <= vy p < len layout /\
  exists row, arr_get layout (vy p) = Some row /\ 0 <= vx p < len row.

(** What the placement loops keep of their state: the tiles placed so far
    are floor tiles with pairwise distinct keys, and [used] holds at least
    their keys. *)
Definition placed (floorTiles : list Vector2) (st : SpawnState) : Prop :=
  (forall p, p ∈ fst st -> p ∈ floorTiles) /\
  NoDup (map key (fst st)) /\
  (forall p, p ∈ fst st -> key p ∈ snd st).

(** [d] is the distance from [tile] to the nearest spawn point. *)
Definition spawnDistance (spawnPoints : list Vector2) (tile : Vector2)
    (d : Z) : Prop :=
  (exists s, s ∈ spawnPoints /\ manhattan s tile = d) /\
  forall s, s ∈ spawnPoints -> d <= manhattan s tile.

(** Inside a [width] x [height] grid. *)
Definition inGrid (width height : Z) (p : Vector2) : Prop :=
  0 <= vx p < width /\ 0 <= vy p < height.

(** [c] lies between [a] and [b], whichever is the smaller. *)
Definition between (a b c : Z) : Prop := a <= c <= b \/ b <= c <= a.

(** The cells [carveConnection] writes: the row of [start] from its column
    to the column of [finish], then that column down or up to [finish]. *)
Definition onPath (start finish p : Vector2) : Prop :=
  (vy p = vy start /\ between (vx start) (vx finish) (vx p)) \/
  (vx p = vx finish /\ between (vy start) (vy finish) (vy p)).

(** What [floodLoop] keeps between two iterations, for a fill started at
    [start] with the cells [visited0] marked: the region holds distinct
    floor cells of the grid, each joined to [start] and none marked before;
    [visited] is [visited0] and the region; every floor cell on the stack is
    joined to [start]; [start] is in the region or on the stack; and every
    floor neighbour of a region cell is marked or on the stack. *)
Definition fillInv (layout : Layout) (width height : Z) (start : Vector2)
    (visited0 visited : gset (Z * Z)) (region stack : list Vector2) : Prop :=
  NoDup region /\
  (forall p, p ∈ region ->
             inGrid width height p /\ reach layout start p /\
             key p ∉ visited0) /\
  (forall k, k ∈ visited <-> k ∈ visited0 \/ exists p, p ∈ region /\ key p = k) /\
  (forall s, s ∈ stack -> floorAt layout s -> reach layout start s) /\
  (floorAt layout start -> inGrid width height start ->
   key start ∉ visited0 -> start ∈ region \/ start ∈ stack) /\
  (forall p n, p ∈ region -> manhattan p n = 1 ->
               inGrid width height n -> floorAt layout n ->
               key n ∈ visited \/ n ∈ stack).

(** The keys of the cells of a [width] x [height] grid. *)
Definition gridKeys (width height : Z) : gset (Z * Z) :=
  list_to_set (flat_map (fun y => map (fun x => (x, y)) (zrange 0 width))
                        (zrange 0 height)).

(** [best] is the first closest pair among the pairs compared so far. *)
Definition closestSoFar (best : option (Z * (Vector2 * Vector2)))
    (seen : list (Vector2 * Vector2)) : Prop :=
  match best with
  | None => seen = []
  | Some (d, (p1, p2)) =>
    (p1, p2) ∈ seen /\ d = manhattan p1 p2 /\
    forall q, q ∈ seen -> d <= manhattan (fst q) (snd q)
  end.

(** [p] lies in a region of more than 10 floor cells. *)
Definition large (layout : Layout) (p : Vector2) : Prop :=
  exists l, NoDup l /\ (10 < length l)%nat /\
            forall c, c ∈ l -> reach layout p c.

(** What the scan of [ensureConnectivity] keeps of the regions it has kept
    and the cells it has marked: the marked cells are closed under walks
    over floor; every kept region has more than 10 cells and is all that is
    joined to one cell; every marked floor cell of a large region is in a
    kept region. *)
Definition scanned (layout : Layout)
    (st : list (list Vector2) * gset (Z * Z)) : Prop :=
  (forall p q, reach layout p q -> key p ∈ snd st -> key q ∈ snd st) /\
  (forall region, region ∈ fst st ->
     (10 < length region)%nat /\
     exists c, forall q, q ∈ region <-> reach layout c q) /\
  (forall p, floorAt layout p -> key p ∈ snd st -> large layout p ->
             exists region, region ∈ fst st /\ p ∈ region).

(** A row of [width] tiles and nothing else. *)
Definition isRow (row : Row) (width : Z) : Prop :=
  len row = width /\ forall x, is_Some (arr_get row x) <-> 0 <= x < width.

(** A grid of [height] such rows and nothing else. *)
Definition exactGrid (layout : Layout) (width height : Z) : Prop :=
  len layout = height /\
  (forall y, is_Some (arr_get layout y) <-> 0 <= y < height) /\
  forall y row, arr_get layout y = Some row -> isRow row width.

(** The call does not throw, and what it returns satisfies [Q]. *)
Definition okO {A} (c : Outcome A) (Q : A -> Prop) : Prop :=
  match c with
  | Returns a => Q a
  | Throws _ => False
  | Timeout => True
  end.

(** The cells the depth-first search of [generateRecursiveBacktracking]
    walks on: both coordinates odd, strictly inside the border. *)
Definition lattice (width height : Z) (p : Vector2) : Prop :=
  Z.odd (vx p) = true /\ Z.odd (vy p) = true /\
  0 < vx p < width - 1 /\ 0 < vy p < height - 1.

(** A full grid whose floor lies strictly inside the border and is joined
    to the cell (1, 1). *)
Definition rooted (width height : Z) (layout : Layout) : Prop :=
  isGrid layout width height /\
  forall p, floorAt layout p ->
            interior width height p /\ reach layout (mkV 1 1) p.

(** What the search keeps between two iterations: the marked cells are
    lattice cells that are floor, (1, 1) among them; the stack holds marked
    cells; and a marked cell that has left the stack has all its lattice
    neighbours marked. *)
Definition passagesInv (width height : Z) (layout : Layout)
    (visited : gset (Z * Z)) (stack : list Vector2) : Prop :=
  rooted width height layout /\
  (1, 1) ∈ visited /\
  (forall p, key p ∈ visited -> lattice width height p /\ floorAt layout p) /\
  (forall s, s ∈ stack -> key s ∈ visited) /\
  (forall p dir, key p ∈ visited -> p ∉ stack -> In dir directions ->
     0 < vx p + vx dir < width - 1 -> 0 < vy p + vy dir < height - 1 ->
     (vx p + vx dir, vy p + vy dir) ∈ visited).

(** The rooms fit: every side is at least 2, and the largest room leaves
    room for the border and a cell beside it. *)
Definition roomsFit (options : MazeGenerationOptions) : Prop :=
  2 <= orDefault (opt_minRoomSize options) 3
    <= orDefault (opt_maxRoomSize options) 7 /\
  orDefault (opt_maxRoomSize options) 7 + 3 <= opt_width options /\
  orDefault (opt_maxRoomSize options) 7 + 3 <= opt_height options.

(** Where [connectRoomToMaze] may open a wall: a cell just outside one side
    of the room, on a side that is not against the border. *)
Definition besideRoom (width height roomX roomY roomWidth roomHeight : Z)
    (c : Vector2) : Prop :=
  (roomX <= vx c < roomX + roomWidth /\
   ((vy c = roomY - 1 /\ 1 < roomY) \/
    (vy c = roomY + roomHeight /\ roomY + roomHeight < height - 1))) \/
  (roomY <= vy c < roomY + roomHeight /\
   ((vx c = roomX - 1 /\ 1 < roomX) \/
    (vx c = roomX + roomWidth /\ roomX + roomWidth < width - 1))).

(** The binary64 values of the sine at the 57 arguments that [noise] passes
    to [Math.sin] on a 5 x 5 grid with seed 35, as (argument, value).  On
    that grid (density 0.7) every sum of the three octaves is more than
    0.011 away from the density, so the last bits of a sine decide no
    cell. *)
Definition sineTable : list (Q * Q) :=
  [((35 # 1),
    ((-964181655394685) # 2251799813685248));
   ((1277156818765071 # 35184372088832),
    ((-4438171919319897) # 4503599627370496));
   ((2508609841874191 # 70368744177664),
    ((-3997109784816889) # 4503599627370496));
   ((661430307210511 # 17592186044416),
    ((-3638167704574923) # 36028797018963968));
   ((353567051433231 # 8796093022208),
    (84586920060363 # 140737488355328));
   ((1368564410076973 # 35184372088832),
    (131061772553519 # 140737488355328));
   ((2600017433186093 # 70368744177664),
    ((-1535971228060149) # 2251799813685248));
   ((752837898522413 # 17592186044416),
    ((-4178347513109213) # 4503599627370496));
   ((199635423544591 # 4398046511104),
    (4445173556354735 # 4503599627370496));
   ((3013421842543359 # 70368744177664),
    ((-257944279536203) # 281474976710656));
   ((5476327888761599 # 140737488355328),
    (1054415402047747 # 1125899906842624));
   ((7127875277736955 # 140737488355328),
    (837575089830081 # 2251799813685248));
   ((3104829433855261 # 70368744177664),
    (5026958694606499 # 36028797018963968));
   ((5567735480073501 # 140737488355328),
    (8627914236755299 # 9007199254740992));
   ((7493505642984563 # 140737488355328),
    (1457371021206853 # 9007199254740992));
   ((3196237025167163 # 70368744177664),
    (8929039697418917 # 9007199254740992));
   ((5659143071385403 # 140737488355328),
    (1326771600379137 # 2251799813685248));
   ((7859136008232171 # 140737488355328),
    ((-5844839630354289) # 9007199254740992));
   ((3287644616479065 # 70368744177664),
    (3537824602454059 # 9007199254740992));
   ((5750550662697305 # 140737488355328),
    ((-5595786247046197) # 288230376151711744));
   ((8224766373479779 # 140737488355328),
    (133547964066207 # 140737488355328));
   ((3379052207790967 # 70368744177664),
    ((-7029358653447609) # 9007199254740992));
   ((5841958254009207 # 140737488355328),
    ((-5585613983005755) # 9007199254740992));
   ((8590396738727387 # 140737488355328),
    ((-4392464558553003) # 4503599627370496));
   ((4664969231518715 # 70368744177664),
    ((-5662525328881325) # 18014398509481984));
   ((7310690460360759 # 140737488355328),
    (8953449393265729 # 9007199254740992));
   ((1529562819099655 # 35184372088832),
    ((-1098308729161539) # 2251799813685248));
   ((4847784414142519 # 70368744177664),
    ((-999857089674417) # 4503599627370496));
   ((5030599596766323 # 70368744177664),
    (781764353344117 # 1125899906842624));
   ((7676320825608367 # 140737488355328),
    ((-8170895023244295) # 9007199254740992));
   ((787633307377803 # 17592186044416),
    (6394950615767397 # 9007199254740992));
   ((5213414779390127 # 70368744177664),
    ((-4352635451302429) # 4503599627370496));
   ((5396229962013931 # 70368744177664),
    (67550330335645 # 70368744177664));
   ((4114453435193597 # 70368744177664),
    (1057471258783565 # 1125899906842624));
   ((6577359481411837 # 140737488355328),
    (6831197123456691 # 18014398509481984));
   ((2883000412084477 # 35184372088832),
    (2301567334574427 # 9007199254740992));
   ((4205861026505499 # 70368744177664),
    ((-5659303639003321) # 72057594037927936));
   ((6668767072723739 # 140737488355328),
    ((-4640729137994673) # 18014398509481984));
   ((2974408003396379 # 35184372088832),
    (5069059749792569 # 18014398509481984));
   ((4297268617817401 # 70368744177664),
    ((-8839624679144373) # 9007199254740992));
   ((6760174664035641 # 140737488355328),
    ((-7111439699575801) # 9007199254740992));
   ((3065815594708281 # 35184372088832),
    ((-6639847851022405) # 9007199254740992));
   ((4388676209129303 # 70368744177664),
    ((-4039138761437261) # 9007199254740992));
   ((6851582255347543 # 140737488355328),
    ((-4503313819126753) # 4503599627370496));
   ((3157223186020183 # 35184372088832),
    (4415351560699907 # 4503599627370496));
   ((4480083800441205 # 70368744177664),
    (6670756461723537 # 9007199254740992));
   ((6942989846659445 # 140737488355328),
    ((-1808544705598555) # 2251799813685248));
   ((3248630777332085 # 35184372088832),
    ((-4237703956005255) # 4503599627370496));
   ((3433516208409595 # 35184372088832),
    ((-220401035695401) # 1125899906842624));
   ((4756376822830617 # 70368744177664),
    ((-8996851753658113) # 9007199254740992));
   ((7219282869048857 # 140737488355328),
    (7724678612224697 # 9007199254740992));
   ((3524923799721497 # 35184372088832),
    ((-6119609835145055) # 18014398509481984));
   ((3616331391033399 # 35184372088832),
    (437536668762567 # 562949953421312));
   ((4939192005454421 # 70368744177664),
    (123798111784085 # 140737488355328));
   ((7402098051672661 # 140737488355328),
    (3268119207905929 # 4503599627370496));
   ((3707738982345301 # 35184372088832),
    ((-4461447097989023) # 4503599627370496));
   ((3799146573657203 # 35184372088832),
    (8272469823672947 # 9007199254740992))]%Q.

(** [Math.sin] on those arguments. *)
Definition tableSin (q : Q) : Q :=
  match List.find (fun e => Qeq_bool (fst e) q) sineTable with
  | Some e => snd e
  | None => 0%Q
  end.

(** * Properties *)

(** ** The random source *)

(** C9: with the seed -6 the first call of [rng()] returns
    -6509/233280 (as a binary64), which is below 0: the truncated remainder
    keeps the sign of a negative state. *)
Theorem rng_negative_for_seed_minus_6 :
  exists v, rng (-6) = Returns (v, -6509) /\ (v < 0)%Q.
Proof.
  eexists. split.
  - vm_compute. reflexivity.
  - reflexivity.
Qed.

(** For a state that is not negative the remainder is taken of a number
    that is not negative, and the quotient by 233280 rounds to a binary64
    below 1. *)
Lemma rne_bounds (n d : Z) :
  0 <= n -> 0 < d -> n / d <= rne n d <= n / d + 1.
Proof.
  intros Hn Hd. unfold rne.
  destruct (2 * (n mod d) <? d); [lia|].
  destruct (d <? 2 * (n mod d)); [lia|].
  destruct (Z.even (n / d)); lia.
Qed.

Lemma rne_nonneg (n d : Z) : 0 <= n -> 0 < d -> 0 <= rne n d.
Proof.
  intros Hn Hd. pose proof (rne_bounds n d Hn Hd).
  pose proof (Z.div_pos n d Hn Hd). lia.
Qed.

Lemma binary64_nonneg (q : Q) : (0 <= q)%Q -> (0 <= binary64 q)%Q.
Proof.
  destruct q as [n d]. unfold Qle. cbn [Qnum Qden]. intros Hq.
  assert (Hn : 0 <= n) by lia.
  unfold binary64. cbn [Qnum Qden].
  destruct (Z.abs n =? 0); [cbn; lia|].
  replace (n <? 0) with false by (symmetry; apply Z.ltb_ge; exact Hn).
  set (e := ilog2 (Z.abs n) (Z.pos d) - 52).
  destruct (0 <=? e) eqn:E.
  - apply Z.leb_le in E. cbn [inject_Z Qnum Qden].
    assert (0 < 2 ^ e) by (apply Z.pow_pos_nonneg; lia).
    pose proof (rne_nonneg (Z.abs n) (Z.pos d * 2 ^ e)
                           ltac:(lia) ltac:(lia)).
    nia.
  - cbn [Qnum Qden].
    pose proof (rne_nonneg (Z.abs n * 2 ^ (- e)) (Z.pos d)).
    assert (0 <= 2 ^ (- e)) by (apply Z.pow_nonneg; lia).
    assert (0 <= Z.abs n * 2 ^ (- e)) by nia.
    lia.
Qed.

Lemma lcg_bounds (s : Z) : -233280 < lcg s < 233280.
Proof.
  unfold lcg.
  pose proof (Z.rem_bound_abs
                (Math_floor (fadd (fmul (inject_Z s) 9301) 49297)) 233280
                ltac:(lia)).
  lia.
Qed.

Lemma lcg_nonneg (s : Z) : 0 <= s -> 0 <= lcg s < 233280.
Proof.
  intros Hs. unfold lcg. apply Z.rem_bound_pos; [|lia].
  unfold Math_floor. change 0 with (Qfloor 0). apply Qfloor_resp_le.
  unfold fadd. apply binary64_nonneg.
  assert (H : (0 <= fmul (inject_Z s) 9301)%Q).
  { unfold fmul. apply binary64_nonneg. unfold Qle. cbn. lia. }
  revert H. generalize (fmul (inject_Z s) 9301).
  intros [a b]. unfold Qle. cbn. lia.
Qed.

Lemma ilog2_below_one (n d : Z) : 0 < n < d -> ilog2 n d <= -1.
Proof.
  intros H. unfold ilog2.
  assert (Z.log2 n <= Z.log2 d) by (apply Z.log2_le_mono; lia).
  destruct (0 <=? Z.log2 n - Z.log2 d) eqn:E.
  - apply Z.leb_le in E. replace (Z.log2 n - Z.log2 d) with 0 by lia.
    replace (d * 2 ^ 0 <=? n) with false; [lia|].
    symmetry. apply Z.leb_gt. lia.
  - apply Z.leb_gt in E. destruct (d <=? _); lia.
Qed.

Lemma rng_value_unit (s : Z) : 0 <= s < 233280 -> (0 <= rng_value s < 1)%Q.
Proof.
  intros Hs. unfold rng_value, fdiv. split.
  - apply binary64_nonneg. unfold Qle. cbn. lia.
  - unfold binary64.
    change (Qnum (inject_Z s / 233280)) with (s * 1).
    change (Qden (inject_Z s / 233280)) with (1 * 233280)%positive.
    rewrite Z.mul_1_r. change (Z.pos (1 * 233280)) with 233280.
    destruct (Z.abs s =? 0) eqn:E0; [reflexivity|].
    apply Z.eqb_neq in E0.
    replace (s <? 0) with false by (symmetry; apply Z.ltb_ge; lia).
    rewrite Z.abs_eq by lia.
    pose proof (ilog2_below_one s 233280 ltac:(lia)) as Hl.
    set (e := ilog2 s 233280 - 52) in *.
    replace (0 <=? e) with false by (symmetry; apply Z.leb_gt; lia).
    assert (Hk : 2 ^ 53 <= 2 ^ (- e)) by (apply Z.pow_le_mono_r; lia).
    set (k := 2 ^ (- e)) in *.
    assert (Hk' : 9007199254740992 <= k) by exact Hk.
    pose proof (rne_bounds (s * k) 233280 ltac:(nia) ltac:(lia)) as [_ Hr].
    assert (Hd : (s * k) / 233280 <= k - 2).
    { apply Z.lt_succ_r. apply Z.div_lt_upper_bound; [lia|]. nia. }
    unfold Qlt. cbn [Qnum Qden]. rewrite Z2Pos.id by lia. lia.
Qed.




(** ** Seed 0 and the clock *)

Lemma newMazeGenerator_seed_zero (now : Z) :
  newMazeGenerator (Some 0) now = newMazeGenerator None now.
Proof. reflexivity. Qed.

Lemma newMazeGenerator_seed_nonzero (seed now : Z) :
  seed <> 0 -> newMazeGenerator (Some seed) now = mkGenerator seed seed.
Proof.
  intros Hs. unfold newMazeGenerator, orDefault.
  destruct (seed =? 0) eqn:E; [apply Z.eqb_eq in E; contradiction | reflexivity].
Qed.

(** C10: a generator constructed with seed 0 is the generator constructed
    with no seed, whatever the clock shows, so both generate the same maze;
    and two generators constructed with seed 0 one millisecond apart
    generate different mazes (the cell (3, 2) is a wall in one and floor in
    the other). *)
Theorem seed_zero_uses_clock :
  (forall now, newMazeGenerator (Some 0) now = newMazeGenerator None now) /\
  (forall Math_sin fuel now options clock,
      generateMaze Math_sin fuel (newMazeGenerator (Some 0) now) options clock
      = generateMaze Math_sin fuel (newMazeGenerator None now) options clock) /\
  (exists now1 now2 options clock,
      let r1 := generateMaze flatSin 1000 (newMazeGenerator (Some 0) now1)
                             options clock in
      let r2 := generateMaze flatSin 1000 (newMazeGenerator (Some 0) now2)
                             options clock in
      returned r1 = true /\ returned r2 = true /\
      resultCell r1 3 2 = Some WALL /\ resultCell r2 3 2 = Some FLOOR).
Proof.
  split; [exact newMazeGenerator_seed_zero|].
  split; [intros; rewrite newMazeGenerator_seed_zero; reflexivity|].
  exists 1700000000000, 1700000000001, (plainOptions 7 7 BINARY_TREE), 0.
  vm_compute. repeat split; reflexivity.
Qed.

(** ** Determinism *)

(** C2, as stated, fails at seed 0: the two calls below use the same options
    and generators constructed from the same seed, and return different
    grids. *)
Lemma seed_zero_not_deterministic :
  let options := plainOptions 7 7 BINARY_TREE in
  resultCell (generateMaze flatSin 1000
                (newMazeGenerator (Some 0) 1700000000000) options 0) 3 2
  <> resultCell (generateMaze flatSin 1000
                   (newMazeGenerator (Some 0) 1700000000001) options 0) 3 2.
Proof. vm_compute. discriminate. Qed.

(** The clock read for the id reaches nothing but the id. *)
Lemma assemble_clock fuel seed options now1 now2 layout s :
  match assemble fuel seed options now1 layout s,
        assemble fuel seed options now2 layout s with
  | Returns (m1, s1), Returns (m2, s2) =>
    s1 = s2 /\ maze_layout m1 = maze_layout m2 /\
    maze_spawnPoints m1 = maze_spawnPoints m2 /\
    maze_keySpawns m1 = maze_keySpawns m2 /\
    maze_doorPositions m1 = maze_doorPositions m2 /\
    maze_exitPosition m1 = maze_exitPosition m2
  | Throws e1, Throws e2 => e1 = e2
  | Timeout, Timeout => True
  | _, _ => False
  end.
Proof.
  unfold assemble, bind, liftO, bindO, ret, throw.
  destruct (ensureBoundaryWalls layout) as [l1| |];
    [|reflexivity|exact I].
  destruct (findFloorTiles l1) as [fl| |]; [|reflexivity|exact I].
  destruct (generateSpawnPoints fuel fl 4 s) as [[sp s1]| |];
    [|reflexivity|exact I].
  destruct (generateKeySpawns fl sp 6 s1) as [[ks s2]| |];
    [|reflexivity|exact I].
  destruct (generateDoorPositions l1 3 s2) as [[ds s3]| |];
    [|reflexivity|exact I].
  destruct (generateExitPosition fl sp) as [ex|]; [|reflexivity].
  destruct (placeSpecialTiles l1 ds) as [l2| |]; [|reflexivity|exact I].
  cbn. repeat split.
Qed.

(** C2, amended: for a seed other than 0, two generators constructed from
    that seed, at whatever times, return on the same options the same grid,
    spawn points, key spawns, door positions and exit position (or fail
    alike), whatever the clock shows when the id is formed. *)
Theorem generateMaze_deterministic_nonzero_seed
    (Math_sin : Q -> Q) (fuel : nat) (seed now1 now2 clock1 clock2 : Z)
    (options : MazeGenerationOptions) :
  seed <> 0 ->
  observable (generateMaze Math_sin fuel (newMazeGenerator (Some seed) now1)
                           options clock1)
  = observable (generateMaze Math_sin fuel (newMazeGenerator (Some seed) now2)
                             options clock2).
Proof.
  intros Hs. rewrite !newMazeGenerator_seed_nonzero by assumption.
  unfold generateMaze, bind; cbn [gen_seed gen_state].
  destruct (carve Math_sin fuel seed options seed) as [[layout s]| |];
    try reflexivity.
  pose proof (assemble_clock fuel seed options clock1 clock2 layout s)
    as H.
  destruct (assemble fuel seed options clock1 layout s) as [[m1 s1]| |],
           (assemble fuel seed options clock2 layout s) as [[m2 s2]| |];
    try contradiction; cbn.
  - destruct H as (_ & -> & -> & -> & -> & ->). reflexivity.
  - congruence.
  - reflexivity.
Qed.

Lemma generateMaze_deterministic_nonzero_seed_witness :
  42 <> 0 /\
  observable (generateMaze flatSin 1000 (newMazeGenerator (Some 42) 1)
                           (plainOptions 32 21 RECURSIVE_BACKTRACKING) 10)
  = observable (generateMaze flatSin 1000 (newMazeGenerator (Some 42) 2)
                             (plainOptions 32 21 RECURSIVE_BACKTRACKING) 20).
Proof.
  split; [lia|].
  apply (generateMaze_deterministic_nonzero_seed flatSin 1000 42 1 2 10 20
           (plainOptions 32 21 RECURSIVE_BACKTRACKING)).
  lia.
Defined.

(** A second call on the same generator continues the random stream where
    the first call left it, and returns another maze: the cell (3, 2) is a
    door in the first and floor in the second. *)
Lemma second_call_continues_the_stream :
  exists m1 g1 m2 g2,
    generateMaze flatSin 1000 (newMazeGenerator (Some 42) 0)
                 (plainOptions 7 7 BINARY_TREE) 0 = Returns (m1, g1) /\
    generateMaze flatSin 1000 g1 (plainOptions 7 7 BINARY_TREE) 0
    = Returns (m2, g2) /\
    gen_state g1 = 39338 /\
    cell (maze_layout m1) 3 2 = Some DOOR /\
    cell (maze_layout m2) 3 2 = Some FLOOR.
Proof.
  eexists. eexists. eexists. eexists.
  split; [vm_compute; reflexivity|].
  split; [vm_compute; reflexivity|].
  vm_compute. repeat split; reflexivity.
Qed.

(** ** Room injection leaves the grid *)

(** C5: on a 5 x 5 grid with the default room sizes (3 to 7) and seed 1 the
    first room is 7 wide and 6 high and is placed at row -2; carving it
    reads [layout[-2]], which is undefined, and the call ends in a
    TypeError. *)
Theorem room_injection_throws :
  generateRecursiveBacktracking 1000
    (plainOptions 5 5 RECURSIVE_BACKTRACKING) 1 = Throws TypeError /\
  generateMaze flatSin 1000 (newMazeGenerator (Some 1) 0)
    (plainOptions 5 5 RECURSIVE_BACKTRACKING) 0 = Throws TypeError.
Proof. split; vm_compute; reflexivity. Qed.

(** C4: on a 5 x 5 grid with one room of size 4 to 6 and seed 15 the room is
    6 wide and 4 high and is placed at (0, 0); carving it extends the rows
    0 to 3 to length 6, so [ensureBoundaryWalls] walls column 5, and column
    4 = width - 1 of the returned grid holds floor in the rows 1 to 3. *)
Theorem boundary_column_left_open :
  let options := mkOptions 5 5 RECURSIVE_BACKTRACKING None None None
                           (Some 4) (Some 6) (Some 1) in
  let r := generateMaze flatSin 1000 (newMazeGenerator (Some 15) 0)
                        options 0 in
  returned r = true /\
  resultCell r (opt_width options - 1) 1 = Some FLOOR /\
  resultCell r (opt_width options - 1) 2 = Some FLOOR /\
  resultCell r (opt_width options - 1) 3 = Some FLOOR /\
  resultCell r 5 1 = Some WALL.
Proof. vm_compute. repeat split; reflexivity. Qed.

(** ** A grid without floor *)

Lemma randomTile_nil (s : Z) : randomTile [] s = Throws TypeError.
Proof.
  cbv beta iota zeta delta [randomTile bind randomIndex rng ret throw nthZ].
  match goal with |- context [?i <? 0] => destruct (i <? 0) end; reflexivity.
Qed.

Lemma bind_throws {A B} (c : M A) (k : A -> M B) (s : Z) (e : Error) :
  c s = Throws e -> bind c k s = Throws e.
Proof. intros H. unfold bind. rewrite H. reflexivity. Qed.

Lemma spawnAttempts_nil (n : nat) (st : SpawnState) (s : Z) :
  spawnAttempts (S n) [] st s = Throws TypeError.
Proof.
  destruct st as [spawns used]. cbn [spawnAttempts].
  apply bind_throws, randomTile_nil.
Qed.

Lemma generateSpawnPoints_nil (fuel : nat) (s : Z) :
  generateSpawnPoints fuel [] 4 s = Throws TypeError.
Proof.
  unfold generateSpawnPoints.
  change (zrange 0 4) with [0; 1; 2; 3].
  apply bind_throws. cbn [forM]. apply bind_throws.
  cbn [fst length Z.of_nat]. change (0 <? 4) with true. cbv iota.
  apply spawnAttempts_nil.
Qed.

(** C8, as stated, fails on Scenario B of the specification (10 x 10
    cellular automata, density 0.9, 5 iterations, seed 7): no floor tile is
    left, and the call ends in a TypeError. *)
Lemma scenario_B_throws_TypeError :
  let options := mkOptions 10 10 CELLULAR_AUTOMATA None (Some (lit (9 # 10)))
                           (Some 5) None None None in
  floorTilesAfterBoundary flatSin 1000 (newMazeGenerator (Some 7) 0) options
  = Returns [] /\
  generateMaze flatSin 1000 (newMazeGenerator (Some 7) 0) options 0
  = Throws TypeError.
Proof. vm_compute. split; reflexivity. Qed.

(** C8, amended: when the grid has no floor tile after carving and boundary
    enforcement, [generateMaze] ends in the TypeError that
    [generateSpawnPoints] raises on reading [tile.x] of an undefined
    tile. *)
Theorem zero_floor_throws_TypeError
    (Math_sin : Q -> Q) (fuel : nat) (this : MazeGenerator)
    (options : MazeGenerationOptions) (now : Z) :
  floorTilesAfterBoundary Math_sin fuel this options = Returns [] ->
  generateMaze Math_sin fuel this options now = Throws TypeError.
Proof.
  unfold floorTilesAfterBoundary, generateMaze, assemble, bind, liftO, bindO.
  destruct (carve Math_sin fuel (gen_seed this) options (gen_state this))
    as [[layout s]| |]; try discriminate.
  cbn [fst].
  destruct (ensureBoundaryWalls layout) as [walled| |]; try discriminate.
  intros ->. rewrite generateSpawnPoints_nil. reflexivity.
Qed.

Lemma zero_floor_throws_TypeError_witness :
  let options := mkOptions 5 5 CELLULAR_AUTOMATA None (Some 1%Q) (Some 0)
                           None None None in
  floorTilesAfterBoundary flatSin 10 (newMazeGenerator (Some 3) 0) options
  = Returns [] /\
  generateMaze flatSin 10 (newMazeGenerator (Some 3) 0) options 0
  = Throws TypeError.
Proof.
  split.
  - vm_compute. reflexivity.
  - apply (zero_floor_throws_TypeError flatSin 10 (newMazeGenerator (Some 3) 0)).
    vm_compute. reflexivity.
Defined.

(** ** Errors raised *)

Lemma jsOnly_bindO {A B} (c : Outcome A) (k : A -> Outcome B) :
  jsOnly c -> (forall a, jsOnly (k a)) -> jsOnly (bindO c k).
Proof. destruct c; cbn; auto. Qed.

Lemma jsOnly_forO {A S} (l : list A) (body : A -> S -> Outcome S) :
  (forall a s, jsOnly (body a s)) -> forall s, jsOnly (forO l s body).
Proof.
  intros Hb. induction l as [|a l IH]; intros s; cbn; [exact I|].
  apply jsOnly_bindO; auto.
Qed.

Lemma jsOnlyM_bind {A B} (c : M A) (k : A -> M B) :
  jsOnlyM c -> (forall a, jsOnlyM (k a)) -> jsOnlyM (bind c k).
Proof.
  intros Hc Hk s. unfold bind. specialize (Hc s).
  destruct (c s) as [[a s']| |]; cbn in *; auto. apply Hk.
Qed.

Lemma jsOnlyM_forM {A S} (l : list A) (body : A -> S -> M S) :
  (forall a s, jsOnlyM (body a s)) -> forall s, jsOnlyM (forM l s body).
Proof.
  intros Hb. induction l as [|a l IH]; intros s; cbn.
  - intros s'. exact I.
  - apply jsOnlyM_bind; auto.
Qed.

Lemma jsOnlyM_liftO {A} (c : Outcome A) : jsOnly c -> jsOnlyM (liftO c).
Proof. intros H s. unfold liftO. destruct c; cbn in *; auto. Qed.

Lemma jsOnlyM_ret {A} (a : A) : jsOnlyM (ret a).
Proof. intros s. exact I. Qed.

Lemma jsOnlyM_throw {A} : jsOnlyM (@throw A TypeError).
Proof. intros s. left. reflexivity. Qed.

Lemma jsOnlyM_timeout {A} : jsOnlyM (@timeout A).
Proof. intros s. exact I. Qed.

Lemma jsOnlyM_rng : jsOnlyM rng.
Proof. intros s. exact I. Qed.

Create HintDb js discriminated.

#[local] Hint Resolve jsOnlyM_ret jsOnlyM_throw jsOnlyM_timeout jsOnlyM_rng
  : js.

(** One step through the shape of a computation. *)
Ltac js_step :=
  match goal with
  | |- jsOnly (Returns _) => exact I
  | |- jsOnly Timeout => exact I
  | |- jsOnly (Throws TypeError) => left; reflexivity
  | |- jsOnly (Throws RangeError) => right; reflexivity
  | |- jsOnly (bindO _ _) => apply jsOnly_bindO; [|intros]
  | |- jsOnly (forO _ _ _) => apply jsOnly_forO; intros
  | |- jsOnly (andO ?b _) => unfold andO; destruct b
  | |- jsOnlyM (bind _ _) => apply jsOnlyM_bind; [|intros]
  | |- jsOnlyM (forM _ _ _) => apply jsOnlyM_forM; intros
  | |- jsOnlyM (liftO _) => apply jsOnlyM_liftO
  | |- jsOnly (match ?x with _ => _ end) => destruct x
  | |- jsOnlyM (match ?x with _ => _ end) => destruct x
  | |- _ => solve [auto with js]
  end.

Ltac js := repeat js_step.

Lemma jsOnly_readTile layout y x : jsOnly (readTile layout y x).
Proof. unfold readTile. js. Qed.

Lemma jsOnly_writeTile layout y x t : jsOnly (writeTile layout y x t).
Proof. unfold writeTile. js. Qed.

Lemma jsOnly_writeTileOpt layout y x t : jsOnly (writeTileOpt layout y x t).
Proof. unfold writeTileOpt. js. Qed.

Lemma jsOnly_firstRowLength layout : jsOnly (firstRowLength layout).
Proof. unfold firstRowLength. js. Qed.

#[local] Hint Resolve jsOnly_readTile jsOnly_writeTile jsOnly_writeTileOpt
  jsOnly_firstRowLength : js.

Lemma jsOnly_isTile layout y x t : jsOnly (isTile layout y x t).
Proof. unfold isTile. js. Qed.

#[local] Hint Resolve jsOnly_isTile : js.

Lemma jsOnlyM_randomIndex n : jsOnlyM (randomIndex n).
Proof. unfold randomIndex. js. Qed.

#[local] Hint Resolve jsOnlyM_randomIndex : js.

Lemma jsOnlyM_newGrid width height cell :
  (forall x y, jsOnlyM (cell x y)) -> jsOnlyM (newGrid width height cell).
Proof. intros H. unfold newGrid. js. Qed.

Lemma jsOnly_newGridO width height cell :
  (forall x y, jsOnly (cell x y)) -> jsOnly (newGridO width height cell).
Proof. intros H. unfold newGridO. js. Qed.

Lemma jsOnlyM_carvePassages fuel width height layout visited stack :
  jsOnlyM (carvePassages fuel width height layout visited stack).
Proof.
  revert layout visited stack.
  induction fuel as [|fuel IH]; intros; cbn [carvePassages]; js.
Qed.

Lemma jsOnlyM_connectRoomToMaze layout roomX roomY roomWidth roomHeight :
  jsOnlyM (connectRoomToMaze layout roomX roomY roomWidth roomHeight).
Proof. unfold connectRoomToMaze. js. Qed.

#[local] Hint Resolve jsOnlyM_carvePassages jsOnlyM_connectRoomToMaze : js.

Lemma jsOnlyM_addRandomRooms layout minSize maxSize count :
  jsOnlyM (addRandomRooms layout minSize maxSize count).
Proof. unfold addRandomRooms. js. Qed.

Lemma jsOnly_newVisited width height : jsOnly (newVisited width height).
Proof. unfold newVisited. js. Qed.

#[local] Hint Resolve jsOnlyM_addRandomRooms jsOnly_newVisited : js.

Lemma jsOnlyM_generateRecursiveBacktracking fuel options :
  jsOnlyM (generateRecursiveBacktracking fuel options).
Proof.
  unfold generateRecursiveBacktracking. js.
  apply jsOnlyM_newGrid. intros. js.
Qed.

Lemma jsOnly_wallCount layout width height x y :
  jsOnly (wallCount layout width height x y).
Proof. unfold wallCount. js. Qed.

#[local] Hint Resolve jsOnly_wallCount : js.

Lemma jsOnly_applyCellularAutomataRules layout width height :
  jsOnly (applyCellularAutomataRules layout width height).
Proof.
  unfold applyCellularAutomataRules. apply jsOnly_newGridO. intros. js.
Qed.

Lemma jsOnly_floodLoop fuel layout width height visited region stack :
  jsOnly (floodLoop fuel layout width height visited region stack).
Proof.
  revert visited region stack.
  induction fuel as [|fuel IH]; intros; cbn [floodLoop]; js.
Qed.

#[local] Hint Resolve jsOnly_applyCellularAutomataRules jsOnly_floodLoop : js.

Lemma jsOnly_floodFill fuel layout visited startX startY :
  jsOnly (floodFill fuel layout visited startX startY).
Proof. unfold floodFill. js. Qed.

Lemma jsOnly_carveHorizontal fuel layout x y endX :
  jsOnly (carveHorizontal fuel layout x y endX).
Proof.
  revert layout x.
  induction fuel as [|fuel IH]; intros; cbn [carveHorizontal]; js.
Qed.

Lemma jsOnly_carveVertical fuel layout x y endY :
  jsOnly (carveVertical fuel layout x y endY).
Proof.
  revert layout y.
  induction fuel as [|fuel IH]; intros; cbn [carveVertical]; js.
Qed.

#[local] Hint Resolve jsOnly_floodFill jsOnly_carveHorizontal
  jsOnly_carveVertical : js.

Lemma jsOnly_carveConnection fuel layout start finish :
  jsOnly (carveConnection fuel layout start finish).
Proof. unfold carveConnection. js. Qed.

#[local] Hint Resolve jsOnly_carveConnection : js.

Lemma jsOnly_connectRegions fuel layout region1 region2 :
  jsOnly (connectRegions fuel layout region1 region2).
Proof. unfold connectRegions. js. Qed.

#[local] Hint Resolve jsOnly_connectRegions : js.

Lemma jsOnly_ensureConnectivity fuel layout :
  jsOnly (ensureConnectivity fuel layout).
Proof. unfold ensureConnectivity. js. Qed.

#[local] Hint Resolve jsOnly_ensureConnectivity : js.

Lemma jsOnlyM_generateCellularAutomata fuel options :
  jsOnlyM (generateCellularAutomata fuel options).
Proof.
  unfold generateCellularAutomata. js.
  apply jsOnlyM_newGrid. intros. js.
Qed.

Lemma jsOnlyM_generateBinaryTree options :
  jsOnlyM (generateBinaryTree options).
Proof.
  unfold generateBinaryTree, treeSite. js.
  apply jsOnlyM_newGrid. intros. js.
Qed.

Lemma jsOnly_smoothCount layout x y : jsOnly (smoothCount layout x y).
Proof. unfold smoothCount. js. Qed.

#[local] Hint Resolve jsOnly_smoothCount : js.

Lemma jsOnly_smoothCaves layout : jsOnly (smoothCaves layout).
Proof. unfold smoothCaves. js. Qed.

#[local] Hint Resolve jsOnly_smoothCaves : js.

Lemma jsOnlyM_generatePerlinCaves Math_sin seed options :
  jsOnlyM (generatePerlinCaves Math_sin seed options).
Proof.
  unfold generatePerlinCaves. js.
  apply jsOnlyM_newGrid. intros. js.
Qed.

Lemma jsOnlyM_carve Math_sin fuel seed options :
  jsOnlyM (carve Math_sin fuel seed options).
Proof.
  unfold carve.
  destruct (opt_algorithm options);
    auto using jsOnlyM_generateRecursiveBacktracking,
      jsOnlyM_generateCellularAutomata, jsOnlyM_generateBinaryTree,
      jsOnlyM_generatePerlinCaves.
Qed.

Lemma jsOnly_ensureBoundaryWalls layout : jsOnly (ensureBoundaryWalls layout).
Proof. unfold ensureBoundaryWalls. js. Qed.

Lemma jsOnly_findFloorTiles layout : jsOnly (findFloorTiles layout).
Proof. unfold findFloorTiles. js. Qed.

Lemma jsOnlyM_randomTile floorTiles : jsOnlyM (randomTile floorTiles).
Proof. unfold randomTile. js. Qed.

#[local] Hint Resolve jsOnly_ensureBoundaryWalls jsOnly_findFloorTiles
  jsOnlyM_randomTile : js.

Lemma jsOnlyM_spawnAttempts left floorTiles st :
  jsOnlyM (spawnAttempts left floorTiles st).
Proof.
  revert st. induction left as [|left IH]; intros; cbn [spawnAttempts]; js.
Qed.

Lemma jsOnlyM_spawnRelaxed fuel floorTiles count st :
  jsOnlyM (spawnRelaxed fuel floorTiles count st).
Proof.
  revert st. induction fuel as [|fuel IH]; intros [spawns used];
    cbn [spawnRelaxed]; js.
Qed.

Lemma jsOnlyM_keyAttempts left floorTiles count st :
  jsOnlyM (keyAttempts left floorTiles count st).
Proof.
  revert st. induction left as [|left IH]; intros; cbn [keyAttempts]; js.
Qed.

#[local] Hint Resolve jsOnlyM_spawnAttempts jsOnlyM_spawnRelaxed
  jsOnlyM_keyAttempts : js.

Lemma jsOnlyM_generateSpawnPoints fuel floorTiles count :
  jsOnlyM (generateSpawnPoints fuel floorTiles count).
Proof. unfold generateSpawnPoints. js. Qed.

Lemma jsOnlyM_generateKeySpawns floorTiles spawnPoints count :
  jsOnlyM (generateKeySpawns floorTiles spawnPoints count).
Proof. unfold generateKeySpawns. js. Qed.

Lemma jsOnly_adjacentFloors layout x y : jsOnly (adjacentFloors layout x y).
Proof. unfold adjacentFloors. js. Qed.

#[local] Hint Resolve jsOnly_adjacentFloors : js.

Lemma jsOnly_doorCandidates layout : jsOnly (doorCandidates layout).
Proof. unfold doorCandidates. js. Qed.

Lemma jsOnly_doorFallback layout potentialDoors :
  jsOnly (doorFallback layout potentialDoors).
Proof. unfold doorFallback. js. Qed.

Lemma jsOnlyM_selectDoors potentialDoors count :
  jsOnlyM (selectDoors potentialDoors count).
Proof. unfold selectDoors. js. Qed.

#[local] Hint Resolve jsOnly_doorCandidates jsOnly_doorFallback
  jsOnlyM_selectDoors : js.

Lemma jsOnlyM_generateDoorPositions layout count :
  jsOnlyM (generateDoorPositions layout count).
Proof. unfold generateDoorPositions. js. Qed.

Lemma jsOnly_placeSpecialTiles layout doorPositions :
  jsOnly (placeSpecialTiles layout doorPositions).
Proof. unfold placeSpecialTiles. js. Qed.

#[local] Hint Resolve jsOnlyM_generateSpawnPoints jsOnlyM_generateKeySpawns
  jsOnlyM_generateDoorPositions jsOnly_placeSpecialTiles : js.

Lemma jsOnlyM_assemble fuel seed options now layout :
  jsOnlyM (assemble fuel seed options now layout).
Proof. unfold assemble. js. Qed.

Lemma jsOnly_generateMaze Math_sin fuel this options now :
  jsOnly (generateMaze Math_sin fuel this options now).
Proof.
  unfold generateMaze.
  pose proof (jsOnlyM_bind (carve Math_sin fuel (gen_seed this) options)
                (assemble fuel (gen_seed this) options now)
                (jsOnlyM_carve Math_sin fuel (gen_seed this) options)
                (jsOnlyM_assemble fuel (gen_seed this) options now)
                (gen_state this)) as H.
  destruct (bind _ _ _) as [[maze state]| |]; cbn in *; auto.
Qed.

(** ** Dimensions below the minimum *)

(** C3, as stated, fails on Scenario E of the specification: with width 4
    and height 4 the binary tree is carved (the cell (1, 1) is floor) and a
    maze is returned. *)
Lemma scenario_E_returns_a_maze :
  let r := generateMaze flatSin 1000 (newMazeGenerator (Some 1) 0)
                        (plainOptions 4 4 BINARY_TREE) 0 in
  returned r = true /\ resultCell r 1 1 = Some FLOOR.
Proof. vm_compute. split; reflexivity. Qed.

(** ** Loops *)

Lemma zrange_In (lo hi x : Z) : In x (zrange lo hi) <-> lo <= x < hi.
Proof.
  unfold zrange. rewrite in_map_iff. split.
  - intros (k & <- & Hk). apply in_seq in Hk. lia.
  - intros H. exists (Z.to_nat (x - lo)). split; [lia|].
    apply in_seq. lia.
Qed.

Lemma zrange_step_In (lo hi x : Z) :
  In x (zrange_step lo hi 2) <-> exists k, x = lo + 2 * k /\ 0 <= k /\ x < hi.
Proof.
  unfold zrange_step. rewrite in_map_iff. split.
  - intros (k & <- & Hk). apply in_seq in Hk. exists (Z.of_nat k).
    split; [reflexivity|]. split; [lia|].
    destruct Hk as [_ Hk]. cbn in Hk.
    assert (Z.of_nat k < (hi - lo + 2 - 1) / 2) by lia.
    assert (2 * ((hi - lo + 2 - 1) / 2) <= hi - lo + 2 - 1)
      by (apply Z.mul_div_le; lia).
    lia.
  - intros (k & -> & Hk & Hlt). exists (Z.to_nat k). split; [lia|].
    apply in_seq. cbn. split; [lia|].
    assert (k + 1 <= (hi - lo + 2 - 1) / 2); [|lia].
    apply Z.div_le_lower_bound; lia.
Qed.

(** A loop whose body always returns is a fold. *)
Lemma forO_pure {A S} (l : list A) (body : A -> S -> Outcome S)
    (g : A -> S -> S) :
  (forall a s, In a l -> body a s = Returns (g a s)) ->
  forall s, forO l s body = Returns (fold_left (fun s a => g a s) l s).
Proof.
  induction l as [|a l IH]; intros Hb s; cbn; [reflexivity|].
  rewrite Hb by (left; reflexivity). cbn. apply IH.
  intros; apply Hb; right; assumption.
Qed.

Lemma forM_pure {A S} (l : list A) (body : A -> S -> M S) (g : A -> S -> S) :
  (forall a s st, In a l -> body a s st = Returns (g a s, st)) ->
  forall s st,
    forM l s body st = Returns (fold_left (fun s a => g a s) l s, st).
Proof.
  induction l as [|a l IH]; intros Hb s st; cbn; [reflexivity|].
  unfold bind. rewrite Hb by (left; reflexivity). apply IH.
  intros; apply Hb; right; assumption.
Qed.

(** The invariant rule: [I pre s] speaks of the state [s] reached after
    the elements [pre]. *)
Lemma forO_inv {A S} (I : list A -> S -> Prop) (l : list A)
    (body : A -> S -> Outcome S) (s0 s : S) :
  I [] s0 ->
  (forall pre a post s1 s2,
      l = pre ++ a :: post -> I pre s1 -> body a s1 = Returns s2 ->
      I (pre ++ [a]) s2) ->
  forO l s0 body = Returns s -> I l s.
Proof.
  intros H0 Hstep.
  assert (G : forall post pre s1,
             l = pre ++ post -> I pre s1 ->
             forO post s1 body = Returns s -> I l s).
  { induction post as [|a post IH]; intros pre s1 Hl Hpre Hrun.
    - cbn in Hrun. injection Hrun as <-. rewrite Hl, app_nil_r. exact Hpre.
    - cbn in Hrun. destruct (body a s1) as [s2| |] eqn:E; try discriminate.
      cbn in Hrun. apply (IH (pre ++ [a]) s2).
      + rewrite <- app_assoc. exact Hl.
      + eapply Hstep; eauto.
      + exact Hrun. }
  intros Hrun. apply (G l [] s0); auto.
Qed.

Lemma forM_inv {A S} (I : list A -> S -> Prop) (l : list A)
    (body : A -> S -> M S) (s0 s : S) (st0 st : Z) :
  I [] s0 ->
  (forall pre a post s1 st1 s2 st2,
      l = pre ++ a :: post -> I pre s1 ->
      body a s1 st1 = Returns (s2, st2) -> I (pre ++ [a]) s2) ->
  forM l s0 body st0 = Returns (s, st) -> I l s.
Proof.
  intros H0 Hstep.
  assert (G : forall post pre s1 st1,
             l = pre ++ post -> I pre s1 ->
             forM post s1 body st1 = Returns (s, st) -> I l s).
  { induction post as [|a post IH]; intros pre s1 st1 Hl Hpre Hrun.
    - cbn in Hrun. injection Hrun as <- _.
      rewrite Hl, app_nil_r. exact Hpre.
    - cbn in Hrun. unfold bind in Hrun.
      destruct (body a s1 st1) as [[s2 st2]| |] eqn:E; try discriminate.
      apply (IH (pre ++ [a]) s2 st2).
      + rewrite <- app_assoc. exact Hl.
      + eapply Hstep; eauto.
      + exact Hrun. }
  intros Hrun. apply (G l [] s0 st0); auto.
Qed.

(** The same rule when every step is known to return. *)
Lemma forO_total {A S} (I : list A -> S -> Prop) (l : list A)
    (body : A -> S -> Outcome S) (s0 : S) :
  I [] s0 ->
  (forall pre a post s1,
      l = pre ++ a :: post -> I pre s1 ->
      exists s2, body a s1 = Returns s2 /\ I (pre ++ [a]) s2) ->
  exists s, forO l s0 body = Returns s /\ I l s.
Proof.
  intros H0 Hstep.
  assert (G : forall post pre s1,
             l = pre ++ post -> I pre s1 ->
             exists s, forO post s1 body = Returns s /\ I l s).
  { induction post as [|a post IH]; intros pre s1 Hl Hpre.
    - exists s1. split; [reflexivity|]. rewrite Hl, app_nil_r. exact Hpre.
    - destruct (Hstep pre a post s1 Hl Hpre) as (s2 & E & H2).
      cbn. rewrite E. cbn. apply (IH (pre ++ [a]) s2); auto.
      rewrite <- app_assoc. exact Hl. }
  apply (G l [] s0); auto.
Qed.

(** ** Cells and writes *)

Lemma cell_writeTile layout y x t layout' :
  writeTile layout y x t = Returns layout' ->
  forall x' y',
    cell layout' x' y'
    = if decide (x' = x /\ y' = y) then Some t else cell layout x' y'.
Proof.
  unfold writeTile, cell, arr_get.
  destruct (props layout !! y) as [row|] eqn:E; [|discriminate].
  intros [= <-] x' y'. cbn.
  destruct (decide (y' = y)) as [->|Hy].
  - rewrite lookup_insert_eq, E. cbn.
    destruct (decide (x' = x)) as [->|Hx].
    + rewrite lookup_insert_eq. rewrite decide_True by auto. reflexivity.
    + rewrite lookup_insert_ne by auto.
      rewrite decide_False by tauto. reflexivity.
  - rewrite lookup_insert_ne by auto.
    rewrite decide_False by tauto. reflexivity.
Qed.

Lemma writeTile_rows layout y x t layout' :
  writeTile layout y x t = Returns layout' ->
  len layout' = len layout /\
  forall y', is_Some (arr_get layout' y') <-> is_Some (arr_get layout y').
Proof.
  unfold writeTile, arr_get.
  destruct (props layout !! y) as [row|] eqn:E; [|discriminate].
  intros [= <-]. cbn. split; [reflexivity|]. intros y'.
  destruct (decide (y' = y)) as [->|Hy].
  - rewrite lookup_insert_eq, E. split; eauto.
  - rewrite lookup_insert_ne by auto. reflexivity.
Qed.

Lemma writeTile_total layout y x t :
  is_Some (arr_get layout y) -> exists layout', writeTile layout y x t = Returns layout'.
Proof. intros [row E]. unfold writeTile. rewrite E. eauto. Qed.

Lemma isTile_cell layout y x t :
  is_Some (arr_get layout y) ->
  isTile layout y x t
  = Returns (match cell layout x y with
             | Some t' => tile_eqb t' t
             | None => false
             end).
Proof.
  intros [row E]. unfold isTile, readTile, cell. rewrite E. reflexivity.
Qed.

Lemma isTile_true layout y x t :
  isTile layout y x t = Returns true -> cell layout x y = Some t.
Proof.
  unfold isTile, readTile, cell.
  destruct (arr_get layout y) as [row|]; [|discriminate]. cbn.
  destruct (arr_get row x) as [t'|]; [|discriminate].
  intros [= H]. unfold tile_eqb in H. apply bool_decide_eq_true in H.
  congruence.
Qed.

(** ** Grids built cell by cell *)

Lemma arr_get_fold_set {A} (g : Z -> A) (l : list Z) (r0 : Arr A) (x : Z) :
  (In x l ->
   arr_get (fold_left (fun r x => arr_set r x (g x)) l r0) x = Some (g x)) /\
  (~ In x l ->
   arr_get (fold_left (fun r x => arr_set r x (g x)) l r0) x = arr_get r0 x).
Proof.
  revert r0. induction l as [|a l IH]; intros r0; cbn [fold_left].
  - split; [intros []|reflexivity].
  - destruct (IH (arr_set r0 a (g a))) as [IH1 IH2].
    destruct (in_dec Z.eq_dec x l) as [Hin|Hnin].
    + split; [intros _; auto|]. intros Hn. exfalso. apply Hn. right. exact Hin.
    + split.
      * intros [->|Hin]; [|contradiction].
        rewrite IH2 by assumption. unfold arr_get, arr_set. cbn.
        apply lookup_insert_eq.
      * intros Hn. rewrite IH2 by assumption. unfold arr_get, arr_set. cbn.
        apply lookup_insert_ne. intros ->. apply Hn. left. reflexivity.
Qed.

Lemma arr_get_rowOf {A} (width : Z) (g : Z -> A) (x : Z) :
  0 <= x < width -> arr_get (rowOf width g) x = Some (g x).
Proof.
  intros Hx. unfold rowOf. apply arr_get_fold_set. apply zrange_In. lia.
Qed.

Lemma cell_gridOf (width height : Z) (f : Z -> Z -> TileType) (x y : Z) :
  0 <= x < width -> 0 <= y < height ->
  cell (gridOf width height f) x y = Some (f x y).
Proof.
  intros Hx Hy. unfold cell, gridOf.
  rewrite (arr_get_rowOf height _ y Hy).
  apply (arr_get_rowOf width (fun x => f x y) x Hx).
Qed.

Lemma newGridO_pure (width height : Z) (cellf : Z -> Z -> Outcome TileType)
    (f : Z -> Z -> TileType) :
  (forall x y, 0 <= x < width -> 0 <= y < height ->
               cellf x y = Returns (f x y)) ->
  newGridO width height cellf = Returns (gridOf width height f).
Proof.
  intros Hc. unfold newGridO, gridOf, rowOf.
  apply (forO_pure _ _ (fun y layout =>
           arr_set layout y
             (fold_left (fun r x => arr_set r x (f x y)) (zrange 0 width)
                        arr_empty))).
  intros y layout Hy. apply zrange_In in Hy.
  rewrite (forO_pure _ _ (fun x row => arr_set row x (f x y))).
  - reflexivity.
  - intros x row Hx. apply zrange_In in Hx.
    rewrite Hc by lia. reflexivity.
Qed.

Lemma newGrid_pure (width height : Z) (cellf : Z -> Z -> M TileType)
    (f : Z -> Z -> TileType) :
  (forall x y s, cellf x y s = Returns (f x y, s)) ->
  forall s, newGrid width height cellf s = Returns (gridOf width height f, s).
Proof.
  intros Hc s. unfold newGrid, gridOf, rowOf.
  apply (forM_pure _ _ (fun y layout =>
           arr_set layout y
             (fold_left (fun r x => arr_set r x (f x y)) (zrange 0 width)
                        arr_empty))).
  intros y layout st Hy. unfold bind.
  rewrite (forM_pure _ _ (fun x row => arr_set row x (f x y))).
  - reflexivity.
  - intros x row st' Hx. unfold bind. rewrite Hc. reflexivity.
Qed.

(** ** The smoothing rule *)

Lemma countWalls_fold (positions : list (Z * Z)) layout width height x y :
  countWalls positions layout width height x y
  = fold_left (fun count d =>
                 if isWallOrOutside layout width height
                                    (x + fst d) (y + snd d)
                 then count + 1 else count) positions 0.
Proof.
  unfold countWalls.
  assert (G : forall l c,
    fold_left (fun count d =>
                 if isWallOrOutside layout width height
                                    (x + fst d) (y + snd d)
                 then count + 1 else count) l c
    = c + Z.of_nat (length (List.filter
        (fun d => isWallOrOutside layout width height (x + fst d) (y + snd d))
        l))).
  { induction l as [|d l IH]; intros c; cbn [fold_left List.filter].
    - cbn. lia.
    - rewrite IH. destruct (isWallOrOutside _ _ _ _ _); cbn [length]; lia. }
  rewrite G. lia.
Qed.

(** One step of the counting loop of [applyCellularAutomataRules]. *)
Lemma wallCount_step layout width height nx ny count :
  rowsDefined layout height ->
  (if (nx <? 0) || (width <=? nx) || (ny <? 0) || (height <=? ny)
   then Returns (count + 1)
   else let! w := isTile layout ny nx WALL in
        Returns (if w then count + 1 else count))
  = Returns (if isWallOrOutside layout width height nx ny
             then count + 1 else count).
Proof.
  intros Hrows. unfold isWallOrOutside.
  destruct ((nx <? 0) || (width <=? nx) || (ny <? 0) || (height <=? ny))
    eqn:E; [reflexivity|].
  rewrite isTile_cell by (apply Hrows; lia). reflexivity.
Qed.

Lemma wallCount_block layout width height x y :
  rowsDefined layout height ->
  wallCount layout width height x y
  = Returns (countWalls block9 layout width height x y).
Proof.
  intros Hrows. rewrite countWalls_fold.
  unfold wallCount, offsets, block9. cbn [forO fold_left fst snd].
  repeat (rewrite wallCount_step by assumption; cbn [bindO]).
  reflexivity.
Qed.

Lemma applyCellularAutomataRules_block layout width height :
  rowsDefined layout height ->
  applyCellularAutomataRules layout width height
  = Returns (gridOf width height (fun x y =>
      majority (countWalls block9 layout width height x y))).
Proof.
  intros Hrows. unfold applyCellularAutomataRules.
  apply newGridO_pure. intros x y _ _.
  rewrite wallCount_block by assumption. reflexivity.
Qed.

Lemma forO_ext {A S} (l : list A) (body body' : A -> S -> Outcome S) :
  (forall a s, In a l -> body a s = body' a s) ->
  forall s, forO l s body = forO l s body'.
Proof.
  induction l as [|a l IH]; intros Hb s; cbn; [reflexivity|].
  rewrite Hb by (left; reflexivity).
  destruct (body' a s); cbn; try reflexivity.
  apply IH. intros; apply Hb; right; assumption.
Qed.

(** Writing the tile [F x y] at every column of [xs] in every row of
    [ys]. *)
Lemma paint_row (xs : list Z) (y : Z) (F : Z -> TileType) (layout0 : Layout) :
  is_Some (arr_get layout0 y) ->
  exists layout,
    forO xs layout0 (fun x layout => writeTile layout y x (F x))
    = Returns layout /\
    len layout = len layout0 /\
    (forall y', is_Some (arr_get layout y') <-> is_Some (arr_get layout0 y')) /\
    (forall x', In x' xs -> cell layout x' y = Some (F x')) /\
    (forall x' y', ~ (y' = y /\ In x' xs) ->
                   cell layout x' y' = cell layout0 x' y').
Proof.
  intros Hrow.
  apply (forO_total (fun pre layout =>
    len layout = len layout0 /\
    (forall y', is_Some (arr_get layout y') <-> is_Some (arr_get layout0 y')) /\
    (forall x', In x' pre -> cell layout x' y = Some (F x')) /\
    (forall x' y', ~ (y' = y /\ In x' pre) ->
                   cell layout x' y' = cell layout0 x' y'))).
  - repeat split; auto. intros x' [].
  - intros pre a post layout1 _ (Hlen & Hrows & Hin & Hout).
    destruct (writeTile_total layout1 y a (F a)) as [layout2 E];
      [apply Hrows; assumption|].
    exists layout2. split; [exact E|].
    pose proof (writeTile_rows _ _ _ _ _ E) as [Hlen2 Hrows2].
    pose proof (cell_writeTile _ _ _ _ _ E) as Hcell.
    split; [congruence|]. split; [intros y'; rewrite Hrows2; apply Hrows|].
    split.
    + intros x' Hx'. rewrite Hcell. case_decide as Hd; [destruct Hd; congruence|].
      apply in_app_or in Hx' as [Hx'|[->|[]]]; [auto|tauto].
    + intros x' y' Hn. rewrite Hcell. case_decide as Hd.
      * exfalso. apply Hn. destruct Hd as [-> ->]. split; [reflexivity|].
        apply in_or_app. right. left. reflexivity.
      * apply Hout. intros [-> Hx']. apply Hn. split; [reflexivity|].
        apply in_or_app. left. exact Hx'.
Qed.

Lemma paint (ys xs : list Z) (F : Z -> Z -> TileType) (layout0 : Layout) :
  (forall y, In y ys -> is_Some (arr_get layout0 y)) ->
  exists layout,
    forO ys layout0 (fun y layout =>
      forO xs layout (fun x layout => writeTile layout y x (F x y)))
    = Returns layout /\
    len layout = len layout0 /\
    (forall y', is_Some (arr_get layout y') <-> is_Some (arr_get layout0 y')) /\
    (forall x' y', In y' ys -> In x' xs -> cell layout x' y' = Some (F x' y')) /\
    (forall x' y', ~ (In y' ys /\ In x' xs) ->
                   cell layout x' y' = cell layout0 x' y').
Proof.
  intros Hys.
  apply (forO_total (fun pre layout =>
    len layout = len layout0 /\
    (forall y', is_Some (arr_get layout y') <-> is_Some (arr_get layout0 y')) /\
    (forall x' y', In y' pre -> In x' xs ->
                   cell layout x' y' = Some (F x' y')) /\
    (forall x' y', ~ (In y' pre /\ In x' xs) ->
                   cell layout x' y' = cell layout0 x' y'))).
  - repeat split; auto. intros x' y' [].
  - intros pre a post layout1 Hl (Hlen & Hrows & Hin & Hout).
    destruct (paint_row xs a (fun x => F x a) layout1)
      as (layout2 & E & Hlen2 & Hrows2 & Hin2 & Hout2).
    { apply Hrows, Hys. rewrite Hl. apply in_or_app. right. left. reflexivity. }
    exists layout2. split; [exact E|].
    split; [congruence|]. split; [intros y'; rewrite Hrows2; apply Hrows|].
    split.
    + intros x' y' Hy' Hx'.
      destruct (Z.eq_dec y' a) as [->|Hne]; [auto|].
      rewrite Hout2 by tauto.
      apply in_app_or in Hy' as [Hy'|[->|[]]]; [auto|congruence].
    + intros x' y' Hn. rewrite Hout2.
      * apply Hout. intros [Hy' Hx']. apply Hn. split; [|exact Hx'].
        apply in_or_app. left. exact Hy'.
      * intros [-> Hx']. apply Hn. split; [|exact Hx'].
        apply in_or_app. right. left. reflexivity.
Qed.

Lemma isGrid_rowsDefined layout width height :
  isGrid layout width height -> rowsDefined layout height.
Proof.
  intros [_ H] y Hy. destruct (H y Hy) as (row & E & _). rewrite E. eauto.
Qed.

Lemma isGrid_cell layout width height x y :
  isGrid layout width height -> 0 <= x < width -> 0 <= y < height ->
  is_Some (cell layout x y).
Proof.
  intros [_ H] Hx Hy. destruct (H y Hy) as (row & E & _ & Hc).
  unfold cell. rewrite E. auto.
Qed.

(** [JSON.parse(JSON.stringify(a))] keeps the elements 0 .. length-1. *)
Lemma arr_get_jsonCopy {A B} (f : A -> B) (a : Arr A) (i : Z) :
  arr_get (jsonCopy f a) i
  = if decide (0 <= i < len a) then f <$> arr_get a i else None.
Proof.
  unfold jsonCopy, arr_get at 1. cbn [props].
  set (step := fun (acc : gmap Z B) k =>
                 match arr_get a k with
                 | Some v => <[k := f v]> acc
                 | None => acc
                 end).
  assert (G : forall l (m : gmap Z B),
    fold_left step l m !! i
    = if existsb (Z.eqb i) l
      then match arr_get a i with Some v => Some (f v) | None => m !! i end
      else m !! i).
  { induction l as [|k l IH]; intros m; cbn [fold_left existsb];
      [reflexivity|].
    rewrite IH. destruct (Z.eqb_spec i k) as [<-|Hne]; cbn [orb].
    - unfold step. destruct (arr_get a i) as [v|] eqn:E.
      + rewrite lookup_insert_eq. destruct (existsb _ l); reflexivity.
      + destruct (existsb _ l); reflexivity.
    - assert (Hm : step m k !! i = m !! i).
      { unfold step. destruct (arr_get a k); [|reflexivity].
        apply lookup_insert_ne. congruence. }
      rewrite Hm. reflexivity. }
  rewrite G, lookup_empty.
  destruct (existsb (Z.eqb i) (zrange 0 (len a))) eqn:E.
  - apply existsb_exists in E as (k & Hk & Hik).
    apply Z.eqb_eq in Hik as <-. apply zrange_In in Hk.
    rewrite decide_True by lia. destruct (arr_get a i); reflexivity.
  - rewrite decide_False; [reflexivity|]. intros Hi.
    assert (existsb (Z.eqb i) (zrange 0 (len a)) = true); [|congruence].
    apply existsb_exists. exists i. split; [apply zrange_In; lia|].
    apply Z.eqb_refl.
Qed.

Lemma fullGrid_isGrid layout width height :
  fullGrid layout width height = true -> isGrid layout width height.
Proof.
  unfold fullGrid, isGrid. intros H.
  apply andb_true_iff in H as [Hlen Hrows]. apply Z.eqb_eq in Hlen.
  split; [exact Hlen|]. intros y Hy.
  rewrite forallb_forall in Hrows.
  specialize (Hrows y (proj2 (zrange_In 0 height y) Hy)).
  destruct (arr_get layout y) as [row|]; [|discriminate].
  apply andb_true_iff in Hrows as [Hw Hcells]. apply Z.eqb_eq in Hw.
  exists row. split; [reflexivity|]. split; [exact Hw|]. intros x Hx.
  rewrite forallb_forall in Hcells.
  specialize (Hcells x (proj2 (zrange_In 0 width x) Hx)).
  apply bool_decide_eq_true in Hcells. exact Hcells.
Qed.

Lemma readTile_cell layout y x :
  is_Some (arr_get layout y) -> readTile layout y x = Returns (cell layout x y).
Proof. intros [row E]. unfold readTile, cell. rewrite E. reflexivity. Qed.

(** One step of the counting loop of [smoothCaves]. *)
Lemma smoothCount_step layout width height nx ny count :
  rowsDefined layout height -> 0 <= nx < width -> 0 <= ny < height ->
  (let! w := isTile layout ny nx WALL in
   Returns (if w then count + 1 else count))
  = Returns (if isWallOrOutside layout width height nx ny
             then count + 1 else count).
Proof.
  intros Hrows Hx Hy. rewrite isTile_cell by (apply Hrows; lia).
  unfold isWallOrOutside.
  replace (nx <? 0) with false by (symmetry; apply Z.ltb_ge; lia).
  replace (width <=? nx) with false by (symmetry; apply Z.leb_gt; lia).
  replace (ny <? 0) with false by (symmetry; apply Z.ltb_ge; lia).
  replace (height <=? ny) with false by (symmetry; apply Z.leb_gt; lia).
  reflexivity.
Qed.

Lemma smoothCount_block layout width height x y :
  rowsDefined layout height -> 1 <= x < width - 1 -> 1 <= y < height - 1 ->
  smoothCount layout x y
  = Returns (countWalls block9 layout width height x y).
Proof.
  intros Hrows Hx Hy. rewrite countWalls_fold.
  unfold smoothCount, offsets, block9. cbn [forO fold_left fst snd].
  repeat (rewrite (smoothCount_step layout width height) by (assumption || lia);
          cbn [bindO]).
  reflexivity.
Qed.

Lemma jsonCopy_grid layout width height :
  isGrid layout width height ->
  let copy := jsonCopy (jsonCopy (fun t : TileType => t)) layout in
  rowsDefined copy height /\
  forall x y, 0 <= x < width -> 0 <= y < height ->
              cell copy x y = cell layout x y.
Proof.
  intros [Hlen Hrows] copy.
  assert (R : forall y, 0 <= y < height ->
                exists row, arr_get layout y = Some row /\ len row = width /\
                  arr_get copy y = Some (jsonCopy (fun t => t) row)).
  { intros y Hy. destruct (Hrows y Hy) as (row & E & Hw & _).
    exists row. split; [exact E|]. split; [exact Hw|].
    unfold copy. rewrite arr_get_jsonCopy.
    case_decide as Hd; [|exfalso; lia].
    rewrite E. reflexivity. }
  split.
  - intros y Hy. destruct (R y Hy) as (row & _ & _ & E). rewrite E. eauto.
  - intros x y Hx Hy. destruct (R y Hy) as (row & E & Hw & Ec).
    unfold cell. rewrite E, Ec, arr_get_jsonCopy.
    case_decide as Hd; [|exfalso; lia].
    destruct (arr_get row x); reflexivity.
Qed.

Lemma smoothCaves_block layout width height :
  0 < height -> isGrid layout width height ->
  exists next,
    smoothCaves layout = Returns next /\
    forall x y, 0 <= x < width -> 0 <= y < height ->
      cell next x y
      = if (1 <=? x) && (x <? width - 1) && (1 <=? y) && (y <? height - 1)
        then Some (majority (countWalls block9 layout width height x y))
        else cell layout x y.
Proof.
  intros Hh Hgrid.
  pose proof (isGrid_rowsDefined _ _ _ Hgrid) as Hrows.
  destruct (jsonCopy_grid _ _ _ Hgrid) as [Hcrows Hccell].
  destruct Hgrid as [Hlen Hg].
  unfold smoothCaves. rewrite Hlen.
  destruct (Hg 0 ltac:(lia)) as (row0 & E0 & Hw0 & _).
  unfold firstRowLength. rewrite E0, Hw0. cbn [bindO].
  set (copy := jsonCopy (jsonCopy (fun t : TileType => t)) layout) in *.
  set (F := fun x y => majority (countWalls block9 layout width height x y)).
  rewrite (forO_ext _ _ (fun y nl =>
             forO (zrange 1 (width - 1)) nl (fun x nl =>
               writeTile nl y x (F x y)))).
  2:{ intros y nl Hy. apply zrange_In in Hy. apply forO_ext.
      intros x nl' Hx. apply zrange_In in Hx.
      rewrite (smoothCount_block layout width height) by (assumption || lia).
      reflexivity. }
  destruct (paint (zrange 1 (height - 1)) (zrange 1 (width - 1)) F copy)
    as (nl1 & E1 & _ & Hrows1 & Hin1 & Hout1).
  { intros y Hy. apply zrange_In in Hy. apply Hcrows. lia. }
  rewrite E1. cbn [bindO].
  set (G := fun x y => default WALL (cell nl1 x y)).
  assert (Hnl1 : forall x y, 0 <= x < width -> 0 <= y < height ->
            cell nl1 x y
            = if (1 <=? x) && (x <? width - 1) && (1 <=? y)
                 && (y <? height - 1)
              then Some (F x y) else cell layout x y).
  { intros x y Hx Hy.
    destruct ((1 <=? x) && (x <? width - 1) && (1 <=? y)
              && (y <? height - 1)) eqn:B.
    - apply Hin1; apply zrange_In; lia.
    - rewrite Hout1; [apply Hccell; assumption|].
      rewrite !zrange_In. intros [? ?].
      assert ((1 <=? x) && (x <? width - 1) && (1 <=? y)
              && (y <? height - 1) = true); [|congruence].
      repeat (apply andb_true_intro; split); lia. }
  assert (HG : forall x y, 0 <= x < width -> 0 <= y < height ->
            cell nl1 x y = Some (G x y)).
  { intros x y Hx Hy. unfold G. rewrite Hnl1 by assumption.
    destruct (_ && _); [reflexivity|].
    destruct (isGrid_cell layout width height x y) as [t Et];
      [split; assumption|assumption|assumption|].
    rewrite Et. reflexivity. }
  rewrite (forO_ext _ _ (fun y l =>
             forO (zrange 0 width) l (fun x l => writeTile l y x (G x y)))).
  2:{ intros y l Hy. apply zrange_In in Hy. apply forO_ext.
      intros x l' Hx. apply zrange_In in Hx.
      rewrite readTile_cell by (apply Hrows1, Hcrows; lia).
      rewrite HG by lia. reflexivity. }
  destruct (paint (zrange 0 height) (zrange 0 width) G layout)
    as (next & E2 & _ & _ & Hin2 & _).
  { intros y Hy. apply zrange_In in Hy. apply Hrows. lia. }
  exists next. split; [exact E2|].
  intros x y Hx Hy. rewrite Hin2 by (apply zrange_In; lia).
  rewrite <- HG by assumption. apply Hnl1; assumption.
Qed.

(** C6, as stated, fails: in the 3 x 3 grid below the middle cell is a wall
    with 4 walls among its 8 neighbours, and both [applyCellularAutomataRules]
    and [smoothCaves] keep it a wall; and the corner (2, 2), floor with 6
    walls or out-of-grid cells among its 8 neighbours, is left floor by
    [smoothCaves]. *)
Lemma rule_counts_the_cell_itself :
  let layout := layoutOfRows [[WALL; WALL; WALL];
                              [WALL; WALL; FLOOR];
                              [FLOOR; FLOOR; FLOOR]] in
  countWalls neighbours8 layout 3 3 1 1 = 4 /\
  countWalls neighbours8 layout 3 3 2 2 = 6 /\
  exists next smoothed,
    applyCellularAutomataRules layout 3 3 = Returns next /\
    cell next 1 1 = Some WALL /\
    smoothCaves layout = Returns smoothed /\
    cell smoothed 1 1 = Some WALL /\
    cell smoothed 2 2 = Some FLOOR.
Proof.
  cbv zeta. split; [vm_compute; reflexivity|].
  split; [vm_compute; reflexivity|].
  eexists. eexists.
  split; [vm_compute; reflexivity|].
  split; [vm_compute; reflexivity|].
  split; [vm_compute; reflexivity|].
  split; vm_compute; reflexivity.
Qed.

(** C6, amended: on a full width x height grid an iteration of
    [applyCellularAutomataRules] returns a new grid in which a cell is a
    wall exactly when the 3 x 3 block around it, the cell itself included
    and positions outside the grid counted as walls, holds at least 5
    walls, and floor otherwise; a round of [smoothCaves] applies the same
    count to the cells strictly inside the border and leaves the border
    cells as they were.  Both read the old grid only. *)
Theorem smoothing_counts_the_block
    (layout : Layout) (width height : Z) :
  0 < height -> fullGrid layout width height = true ->
  (exists next,
      applyCellularAutomataRules layout width height = Returns next /\
      forall x y, 0 <= x < width -> 0 <= y < height ->
        cell next x y
        = Some (majority (countWalls block9 layout width height x y))) /\
  (exists next,
      smoothCaves layout = Returns next /\
      forall x y, 0 <= x < width -> 0 <= y < height ->
        cell next x y
        = if (1 <=? x) && (x <? width - 1) && (1 <=? y) && (y <? height - 1)
          then Some (majority (countWalls block9 layout width height x y))
          else cell layout x y).
Proof.
  intros Hh Hfull. apply fullGrid_isGrid in Hfull. split.
  - eexists. split.
    + apply applyCellularAutomataRules_block.
      eapply isGrid_rowsDefined; eassumption.
    + intros x y Hx Hy. apply cell_gridOf; assumption.
  - apply smoothCaves_block; assumption.
Qed.

Lemma smoothing_counts_the_block_witness :
  let layout := layoutOfRows [[WALL; WALL; WALL];
                              [WALL; WALL; FLOOR];
                              [FLOOR; FLOOR; FLOOR]] in
  0 < 3 /\ fullGrid layout 3 3 = true /\
  (exists next,
      applyCellularAutomataRules layout 3 3 = Returns next /\
      forall x y, 0 <= x < 3 -> 0 <= y < 3 ->
        cell next x y
        = Some (majority (countWalls block9 layout 3 3 x y))) /\
  (exists next,
      smoothCaves layout = Returns next /\
      forall x y, 0 <= x < 3 -> 0 <= y < 3 ->
        cell next x y
        = if (1 <=? x) && (x <? 3 - 1) && (1 <=? y) && (y <? 3 - 1)
          then Some (majority (countWalls block9 layout 3 3 x y))
          else cell layout x y).
Proof.
  cbv zeta. split; [lia|]. split; [vm_compute; reflexivity|].
  apply smoothing_counts_the_block; [lia|vm_compute; reflexivity].
Defined.

(** ** Door positions *)

Lemma elem_of_zrange (lo hi x : Z) : x ∈ zrange lo hi <-> lo <= x < hi.
Proof. rewrite list_elem_of_In. apply zrange_In. Qed.

Lemma NoDup_zrange (lo hi : Z) : NoDup (zrange lo hi).
Proof.
  unfold zrange. apply NoDup_fmap_2; [|apply NoDup_seq].
  intros a b H. lia.
Qed.

Lemma NoDup_split_middle {A} (pre post : list A) (a : A) :
  NoDup (pre ++ a :: post) -> a ∉ pre.
Proof.
  intros H Hin. apply NoDup_app in H as (_ & Hd & _).
  apply (Hd a Hin). left.
Qed.

Lemma andO_true (b : bool) (c : Outcome bool) :
  andO b c = Returns true -> b = true /\ c = Returns true.
Proof. destruct b; cbn; [auto|discriminate]. Qed.

Lemma adjacentFloors_floor layout x y adj :
  adjacentFloors layout x y = Returns adj ->
  forall p, p ∈ adj ->
            manhattan (mkV x y) p = 1 /\
            cell layout (vx p) (vy p) = Some FLOOR.
Proof.
  unfold adjacentFloors. intros H.
  assert (G : forall p, p ∈ adj ->
            p ∈ [mkV (x - 1) y; mkV (x + 1) y; mkV x (y - 1); mkV x (y + 1)]
            /\ cell layout (vx p) (vy p) = Some FLOOR).
  { revert H.
    apply (forO_inv (fun pre acc =>
             forall p, p ∈ acc ->
                       p ∈ pre /\ cell layout (vx p) (vy p) = Some FLOOR)).
    - intros p Hp. inversion Hp.
    - intros pre pos post acc acc' _ IH Hb p Hp.
      destruct (andO (0 <=? vx pos) _) as [inside| |]; try discriminate.
      cbn [bindO] in Hb.
      destruct (andO (inside && (0 <=? vy pos) && (vy pos <? len layout)) _)
        as [keep| |] eqn:E; try discriminate.
      cbn [bindO] in Hb. injection Hb as <-.
      destruct keep.
      + apply elem_of_app in Hp as [Hp|Hp].
        * destruct (IH p Hp). split; [apply elem_of_app; auto|assumption].
        * apply list_elem_of_singleton in Hp as ->.
          split; [apply elem_of_app; right; left|].
          apply andO_true in E as [_ E]. apply isTile_true in E. exact E.
      + destruct (IH p Hp). split; [apply elem_of_app; auto|assumption]. }
  intros p Hp. destruct (G p Hp) as [Hin Hfl]. split; [|exact Hfl].
  repeat (apply elem_of_cons in Hin as [->|Hin]);
    [unfold manhattan; cbn [vx vy]; lia..|inversion Hin].
Qed.

Lemma doorCandidates_row layout y row pre acc acc' :
  arr_get layout y = Some row ->
  1 <= y < len layout - 1 -> y ∉ pre ->
  NoDup acc ->
  (forall d, d ∈ acc -> vy d ∈ pre /\ candidate layout d) ->
  forO (zrange 1 (len row - 1)) acc (fun x potentialDoors =>
    let! isWall := isTile layout y x WALL in
    if isWall then
      let! adjacent := adjacentFloors layout x y in
      Returns (if 1 <=? Z.of_nat (length adjacent)
               then potentialDoors ++ [mkV x y] else potentialDoors)
    else Returns potentialDoors) = Returns acc' ->
  NoDup acc' /\
  forall d, d ∈ acc' -> vy d ∈ pre ++ [y] /\ candidate layout d.
Proof.
  intros Erow Hy Hfresh Hnd IH Hb.
  assert (G : NoDup acc' /\
              forall d, d ∈ acc' ->
                (vy d ∈ pre \/ (vy d = y /\ vx d ∈ zrange 1 (len row - 1)))
                /\ candidate layout d).
  { revert Hb.
    apply (forO_inv (fun pre' acc =>
             NoDup acc /\
             forall d, d ∈ acc ->
               (vy d ∈ pre \/ (vy d = y /\ vx d ∈ pre')) /\
               candidate layout d)).
    - split; [exact Hnd|]. intros d Hd. destruct (IH d Hd). auto.
    - intros pre' x post' acc1 acc2 Hxs [Hnd1 IH1] Hb.
      assert (Hx : 1 <= x < len row - 1).
      { apply elem_of_zrange. rewrite Hxs. apply elem_of_app. right. left. }
      assert (Hfresh' : x ∉ pre').
      { eapply NoDup_split_middle. rewrite <- Hxs. apply NoDup_zrange. }
      assert (Hold : forall d, d ∈ acc1 ->
                (vy d ∈ pre \/ (vy d = y /\ vx d ∈ pre' ++ [x])) /\
                candidate layout d).
      { intros d Hd. destruct (IH1 d Hd) as [[?|[? ?]] ?]; split; auto.
        right. split; [assumption|]. apply elem_of_app; auto. }
      destruct (isTile layout y x WALL) as [isWall| |] eqn:Ew;
        try discriminate.
      cbn [bindO] in Hb. destruct isWall.
      + destruct (adjacentFloors layout x y) as [adj| |] eqn:Ea;
          try discriminate.
        cbn [bindO] in Hb. injection Hb as <-.
        destruct (1 <=? Z.of_nat (length adj)) eqn:El; [|split; assumption].
        split.
        * apply NoDup_app. split; [exact Hnd1|].
          split; [|apply NoDup_singleton].
          intros d Hd Hd'. apply list_elem_of_singleton in Hd' as ->.
          destruct (IH1 _ Hd) as [[Hin|[_ Hin]] _]; cbn in Hin; contradiction.
        * intros d Hd. apply elem_of_app in Hd as [Hd|Hd]; [auto|].
          apply list_elem_of_singleton in Hd as ->. cbn [vx vy]. split.
          -- right. split; [reflexivity|]. apply elem_of_app. right. left.
          -- unfold candidate, insideBorder. cbn [vx vy].
             split; [apply isTile_true; exact Ew|].
             split; [split; [lia|exists row; split; [exact Erow|lia]]|].
             destruct adj as [|p adj]; [discriminate|].
             destruct (adjacentFloors_floor _ _ _ _ Ea p) as [Hm Hf]; [left|].
             exists p. split; assumption.
      + injection Hb as <-. split; assumption. }
  destruct G as [Hnd' IH']. split; [exact Hnd'|].
  intros d Hd. destruct (IH' d Hd) as [[Hin|[-> _]] Hc]; split; auto.
  - apply elem_of_app; auto.
  - apply elem_of_app. right. left.
Qed.

Lemma doorCandidates_spec layout potentialDoors :
  doorCandidates layout = Returns potentialDoors ->
  NoDup potentialDoors /\ Forall (candidate layout) potentialDoors.
Proof.
  unfold doorCandidates. intros H.
  assert (G : NoDup potentialDoors /\
              forall d, d ∈ potentialDoors ->
                vy d ∈ zrange 1 (len layout - 1) /\ candidate layout d).
  { revert H.
    apply (forO_inv (fun pre acc =>
             NoDup acc /\
             forall d, d ∈ acc -> vy d ∈ pre /\ candidate layout d)).
    - split; [constructor|]. intros d Hd. inversion Hd.
    - intros pre y post acc acc' Hys [Hnd IH] Hb.
      destruct (arr_get layout y) as [row|] eqn:Erow; [|discriminate].
      eapply doorCandidates_row; eauto.
      + apply elem_of_zrange. rewrite Hys. apply elem_of_app. right. left.
      + eapply NoDup_split_middle. rewrite <- Hys. apply NoDup_zrange. }
  destruct G as [Hnd Hall]. split; [exact Hnd|].
  apply Forall_forall. intros d Hd. apply Hall. exact Hd.
Qed.

Lemma doorFallback_spec layout potentialDoors widened :
  doorFallback layout potentialDoors = Returns widened ->
  forall d, d ∈ widened ->
            d ∈ potentialDoors \/
            (cell layout (vx d) (vy d) = Some WALL /\ insideBorder layout d).
Proof.
  unfold doorFallback. intros H.
  destruct (forO _ _ _) as [st| |] eqn:E; try discriminate.
  cbn [bindO] in H. injection H as <-.
  revert E.
  apply (forO_inv (fun _ (st : list Vector2 * gset (Z * Z)) =>
           forall d, d ∈ fst st ->
             d ∈ potentialDoors \/
             (cell layout (vx d) (vy d) = Some WALL /\
              insideBorder layout d)));
    [cbn; auto|].
  intros pre y post st1 st2 Hys IH Hb.
  assert (Hy : 2 <= y < len layout - 2).
  { apply elem_of_zrange. rewrite Hys. apply elem_of_app. right. left. }
  destruct (arr_get layout y) as [row|] eqn:Erow; [|discriminate].
  revert Hb.
  apply (forO_inv (fun _ (st : list Vector2 * gset (Z * Z)) =>
           forall d, d ∈ fst st ->
             d ∈ potentialDoors \/
             (cell layout (vx d) (vy d) = Some WALL /\
              insideBorder layout d)));
    [exact IH|].
  clear IH. intros pre' x post' [acc used] st3 Hxs IH Hb.
  assert (Hx : 2 <= x < len row - 2).
  { apply elem_of_zrange. rewrite Hxs. apply elem_of_app. right. left. }
  destruct (isTile layout y x WALL) as [isWall| |] eqn:Ew; try discriminate.
  cbn [bindO] in Hb.
  destruct (isWall && negb (bool_decide ((x, y) ∈ used))) eqn:Ec;
    injection Hb as <-; [|exact IH].
  cbn [fst] in *. intros d Hd. apply elem_of_app in Hd as [Hd|Hd]; [auto|].
  apply list_elem_of_singleton in Hd as ->. right.
  apply andb_true_iff in Ec as [-> _]. unfold insideBorder. cbn [vx vy].
  split; [apply isTile_true; exact Ew|].
  split; [lia|]. exists row. split; [exact Erow|lia].
Qed.

Lemma splice1_spec {A} (a : list A) (index : Z) (door : option A)
    (rest : list A) :
  splice1 a index = (door, rest) ->
  match door with
  | Some v => a ≡ₚ v :: rest
  | None => rest = a
  end.
Proof.
  unfold splice1.
  set (start := if index <? 0
                then Z.max (Z.of_nat (length a) + index) 0
                else Z.min index (Z.of_nat (length a))).
  destruct (a !! Z.to_nat start) as [v|] eqn:E; intros [= <- <-];
    [|reflexivity].
  rewrite <- (take_drop_middle a (Z.to_nat start) v E) at 1.
  symmetry. apply Permutation_middle.
Qed.

Lemma definedDoors_snoc (doors : list (option Vector2))
    (door : option Vector2) :
  definedDoors (doors ++ [door])
  = definedDoors doors ++ match door with Some v => [v] | None => [] end.
Proof. unfold definedDoors. rewrite omap_app. destruct door; reflexivity. Qed.

Lemma elem_of_definedDoors (doors : list (option Vector2)) (d : Vector2) :
  d ∈ definedDoors doors <-> Some d ∈ doors.
Proof.
  unfold definedDoors. rewrite list_elem_of_omap. split.
  - intros (o & Ho & ->). exact Ho.
  - intros H. exists (Some d). auto.
Qed.

Lemma definedDoors_length (doors : list (option Vector2)) :
  (length (definedDoors doors) <= length doors)%nat.
Proof.
  induction doors as [|[d|] doors IH]; cbn; [lia| |];
    fold (definedDoors doors); lia.
Qed.

Lemma selectDoors_spec (potentialDoors : list Vector2) (count s s' : Z)
    (doors : list (option Vector2)) :
  selectDoors potentialDoors count s = Returns (doors, s') ->
  Z.of_nat (length doors) <= Z.max count 0 /\
  (forall d, Some d ∈ doors -> d ∈ potentialDoors) /\
  (NoDup potentialDoors -> NoDup (definedDoors doors)).
Proof.
  unfold selectDoors, bind, ret. intros H.
  destruct (forM _ _ _ s) as [[st s1]| |] eqn:E; try discriminate.
  injection H as <- <-.
  assert (G : Z.of_nat (length (fst st)) <= Z.max count 0 /\
              (forall d, Some d ∈ fst st -> d ∈ potentialDoors) /\
              (forall d, d ∈ snd st -> d ∈ potentialDoors) /\
              (NoDup potentialDoors ->
               NoDup (definedDoors (fst st) ++ snd st))).
  { revert E.
    apply (forM_inv (fun _ (st : list (option Vector2) * list Vector2) =>
             Z.of_nat (length (fst st)) <= Z.max count 0 /\
             (forall d, Some d ∈ fst st -> d ∈ potentialDoors) /\
             (forall d, d ∈ snd st -> d ∈ potentialDoors) /\
             (NoDup potentialDoors ->
              NoDup (definedDoors (fst st) ++ snd st)))).
    - cbn. split; [lia|]. split; [intros d Hd; inversion Hd|]. auto.
    - intros _ _ _ [ds pot] st1 [ds' pot'] st2 _ (Hlen & Hin & Hpot & Hnd) Hb.
      cbn [fst snd] in *.
      destruct ((Z.of_nat (length ds) <? count)
                && (0 <? Z.of_nat (length pot))) eqn:Ec.
      + cbv beta iota zeta delta [bind randomIndex rng ret] in Hb.
        destruct (splice1 pot _) as [door rest] eqn:Es.
        injection Hb as <- <- _.
        apply splice1_spec in Es.
        apply andb_true_iff in Ec as [Hc _]. apply Z.ltb_lt in Hc.
        split; [rewrite length_app; cbn; lia|].
        destruct door as [v|].
        * split; [|split].
          -- intros d Hd. apply elem_of_app in Hd as [Hd|Hd]; [auto|].
             apply list_elem_of_singleton in Hd as [= ->].
             apply Hpot. rewrite Es. left.
          -- intros d Hd. apply Hpot. rewrite Es. right. exact Hd.
          -- intros Hc'. specialize (Hnd Hc').
             rewrite definedDoors_snoc, <- app_assoc. cbn [app].
             rewrite Es in Hnd. exact Hnd.
        * subst rest. split; [|split].
          -- intros d Hd. apply elem_of_app in Hd as [Hd|Hd]; [auto|].
             apply list_elem_of_singleton in Hd. discriminate.
          -- exact Hpot.
          -- intros Hc'. rewrite definedDoors_snoc, app_nil_r. auto.
      + injection Hb as <- <- _. auto. }
  destruct G as (Hlen & Hin & _ & Hnd).
  split; [exact Hlen|]. split; [exact Hin|].
  intros Hc. apply NoDup_app in Hnd as [Hnd _]; auto.
Qed.

Lemma generateDoorPositions_spec (layout : Layout) (s s' : Z)
    (doors : list (option Vector2)) :
  generateDoorPositions layout 3 s = Returns (doors, s') ->
  (length doors <= 3)%nat /\
  (forall d, Some d ∈ doors ->
             cell layout (vx d) (vy d) = Some WALL /\ insideBorder layout d) /\
  (forall potentialDoors,
      doorCandidates layout = Returns potentialDoors ->
      (3 <= length potentialDoors)%nat ->
      NoDup (definedDoors doors) /\
      forall d, Some d ∈ doors -> candidate layout d).
Proof.
  unfold generateDoorPositions, bind, liftO. intros H.
  destruct (doorCandidates layout) as [c| |] eqn:Ec; try discriminate.
  cbn [bindO] in H.
  destruct (doorCandidates_spec _ _ Ec) as [Hnd Hc].
  rewrite Forall_forall in Hc.
  destruct (Z.of_nat (length c) <? 3) eqn:El.
  - destruct (doorFallback layout c) as [c'| |] eqn:Ef; try discriminate.
    cbn [bindO] in H. apply selectDoors_spec in H as (Hlen & Hin & _).
    split; [lia|]. split.
    + intros d Hd.
      destruct (doorFallback_spec _ _ _ Ef d (Hin d Hd)) as [Hd'|Hw];
        [|exact Hw].
      destruct (Hc d Hd') as (? & ? & _). auto.
    + intros c1 [= <-] Hc1. apply Z.ltb_lt in El. lia.
  - unfold ret in H. apply selectDoors_spec in H as (Hlen & Hin & Hnd').
    split; [lia|]. split.
    + intros d Hd. destruct (Hc d (Hin d Hd)) as (? & ? & _). auto.
    + intros c1 [= <-] _. split; [auto|]. intros d Hd. apply Hc, Hin, Hd.
Qed.

(** The stages of a call that returned. *)
Lemma generateMaze_stages Math_sin fuel this options now m g :
  generateMaze Math_sin fuel this options now = Returns (m, g) ->
  exists walled doors s s',
    layoutBeforeBaking Math_sin fuel this options = Returns walled /\
    generateDoorPositions walled 3 s = Returns (doors, s') /\
    placeSpecialTiles walled doors = Returns (maze_layout m) /\
    maze_doorPositions m = definedDoors doors.
Proof.
  unfold generateMaze, layoutBeforeBaking, assemble, bind, liftO, bindO.
  destruct (carve Math_sin fuel (gen_seed this) options (gen_state this))
    as [[layout s0]| |]; try discriminate.
  cbn [fst].
  destruct (ensureBoundaryWalls layout) as [walled| |]; try discriminate.
  destruct (findFloorTiles walled) as [fl| |]; try discriminate.
  destruct (generateSpawnPoints fuel fl 4 s0) as [[sp s1]| |];
    try discriminate.
  destruct (generateKeySpawns fl sp 6 s1) as [[ks s2]| |]; try discriminate.
  destruct (generateDoorPositions walled 3 s2) as [[ds s3]| |] eqn:Ed;
    try discriminate.
  destruct (generateExitPosition fl sp) as [ex|]; try discriminate.
  destruct (placeSpecialTiles walled ds) as [final| |] eqn:Ep;
    try discriminate.
  intros [= <- <-]. exists walled, ds, s2, s3. cbn. auto.
Qed.

(** C7, as stated, fails twice.  On the 5 x 5 binary tree of seed 1 only two
    interior walls touch floor, the second scan adds the wall (2, 2) again,
    and (2, 2) is returned twice.  On the 6 x 6 cellular-automata grid of
    seed 8 (density 0.6, one iteration) the only floor tile is (1, 4); the
    second scan adds walls that touch no floor, and the door (2, 3) is
    returned although its four neighbours are walls. *)
Lemma doors_repeated_or_without_floor :
  resultDoors (generateMaze flatSin 1000 (newMazeGenerator (Some 1) 0)
                 (plainOptions 5 5 BINARY_TREE) 0)
  = [mkV 2 3; mkV 2 2; mkV 2 2] /\
  let options := mkOptions 6 6 CELLULAR_AUTOMATA None (Some (lit (6 # 10)))
                           (Some 1) None None None in
  resultDoors (generateMaze flatSin 1000 (newMazeGenerator (Some 8) 0)
                 options 0)
  = [mkV 2 3; mkV 2 2; mkV 1 3] /\
  exists walled,
    layoutBeforeBaking flatSin 1000 (newMazeGenerator (Some 8) 0) options
    = Returns walled /\
    cell walled 1 3 = Some WALL /\ cell walled 3 3 = Some WALL /\
    cell walled 2 2 = Some WALL /\ cell walled 2 4 = Some WALL.
Proof.
  split; [vm_compute; reflexivity|].
  cbv zeta. split; [vm_compute; reflexivity|].
  eexists. split; [vm_compute; reflexivity|].
  vm_compute. repeat split; reflexivity.
Qed.

(** ** Connectivity *)

Lemma reach_floor_l layout p q : reach layout p q -> floorAt layout p.
Proof. induction 1; assumption. Qed.

Lemma reach_floor_r layout p q : reach layout p q -> floorAt layout q.
Proof. destruct 1; assumption. Qed.

Lemma reach_trans layout p q r :
  reach layout p q -> reach layout q r -> reach layout p r.
Proof.
  intros Hpq Hqr. induction Hqr as [|r r' _ IH Hm Hf]; [exact Hpq|].
  eapply reach_step; eauto.
Qed.

Lemma manhattan_sym (a b : Vector2) : manhattan a b = manhattan b a.
Proof. unfold manhattan. lia. Qed.

Lemma reach_sym layout p q : reach layout p q -> reach layout q p.
Proof.
  induction 1 as [Hp|q r Hpq IH Hm Hr].
  - apply reach_here. exact Hp.
  - apply (reach_trans _ _ q); [|exact IH].
    apply (reach_step _ _ r); [apply reach_here; exact Hr| |].
    + rewrite manhattan_sym. exact Hm.
    + eapply reach_floor_r. exact Hpq.
Qed.

Lemma reach_mono layout layout' p q :
  (forall r, floorAt layout r -> floorAt layout' r) ->
  reach layout p q -> reach layout' p q.
Proof.
  intros Hsub. induction 1 as [Hp|q r _ IH Hm Hr].
  - apply reach_here. auto.
  - eapply reach_step; eauto.
Qed.

Lemma manhattan_neighbours4 (q r : Vector2) :
  manhattan q r = 1 -> r ∈ neighbours4 q.
Proof.
  destruct q as [qx qy], r as [rx ry]. unfold manhattan, neighbours4.
  cbn [vx vy]. intros H.
  assert (C : (rx = qx - 1 /\ ry = qy) \/ (rx = qx + 1 /\ ry = qy) \/
              (rx = qx /\ ry = qy - 1) \/ (rx = qx /\ ry = qy + 1)) by lia.
  destruct C as [[-> ->]|[[-> ->]|[[-> ->]|[-> ->]]]].
  - left.
  - right. left.
  - right. right. left.
  - right. right. right. left.
Qed.

(** A walk that starts inside a closed pocket stays inside it. *)
Lemma reach_in_pocket layout pocket p q :
  closedPocket layout pocket = true -> p ∈ pocket ->
  reach layout p q -> q ∈ pocket.
Proof.
  intros Hc Hp. induction 1 as [|q r _ IH Hm Hr]; [exact Hp|].
  unfold closedPocket in Hc. rewrite forallb_forall in Hc.
  specialize (Hc q (proj1 (list_elem_of_In _ _) IH)).
  rewrite forallb_forall in Hc.
  specialize (Hc r (proj1 (list_elem_of_In _ _)
                          (manhattan_neighbours4 _ _ Hm))).
  unfold floorAt in Hr. rewrite (bool_decide_eq_true_2 _ Hr) in Hc.
  cbn in Hc. apply bool_decide_eq_true in Hc. exact Hc.
Qed.

(** On a 10 x 10 cellular-automata grid with the default density 0.45 and
    5 iterations (seed 67), the pocket of 7 floor cells around (3, 7) is
    below the size [ensureConnectivity] keeps, and stays cut off from the
    floor at (6, 1). *)
Lemma cellular_small_region_discarded :
  let options := mkOptions 10 10 CELLULAR_AUTOMATA None None None
                           None None None in
  exists m g,
    generateMaze flatSin 1000 (newMazeGenerator (Some 67) 0) options 0
    = Returns (m, g) /\
    floorAt (maze_layout m) (mkV 6 1) /\
    floorAt (maze_layout m) (mkV 3 7) /\
    ~ reach (maze_layout m) (mkV 3 7) (mkV 6 1).
Proof.
  cbv zeta. eexists. eexists. split; [vm_compute; reflexivity|].
  match goal with |- floorAt ?l _ /\ _ => set (layout := l) end.
  split; [vm_compute; reflexivity|]. split; [vm_compute; reflexivity|].
  intros Hr.
  apply (reach_in_pocket layout
           [mkV 2 6; mkV 3 6; mkV 2 7; mkV 3 7; mkV 4 7; mkV 2 8; mkV 3 8])
    in Hr; [|vm_compute; reflexivity|do 3 right; left].
  repeat (apply elem_of_cons in Hr as [Hr|Hr]; [discriminate|]).
  inversion Hr.
Qed.

(** *** The grid of walls the binary tree starts from *)

Lemma len_fold_set {A} (g : Z -> A) (k : nat) :
  len (fold_left (fun r x => arr_set r x (g x))
                 (map (fun i => 0 + Z.of_nat i) (seq 0 k)) arr_empty)
  = Z.of_nat k.
Proof.
  induction k as [|k IH]; [reflexivity|].
  rewrite seq_S, map_app, fold_left_app. cbn [map fold_left Nat.add].
  unfold arr_set at 1. cbn [len]. rewrite IH.
  replace (0 <=? 0 + Z.of_nat k) with true by (symmetry; apply Z.leb_le; lia).
  lia.
Qed.

Lemma len_rowOf {A} (width : Z) (g : Z -> A) :
  len (rowOf width g) = Z.max width 0.
Proof. unfold rowOf, zrange. rewrite len_fold_set. lia. Qed.

Lemma arr_get_rowOf_inv {A} (width : Z) (g : Z -> A) (x : Z) (v : A) :
  arr_get (rowOf width g) x = Some v -> 0 <= x < width /\ v = g x.
Proof.
  unfold rowOf. intros H.
  destruct (in_dec Z.eq_dec x (zrange 0 width)) as [Hin|Hnin].
  - rewrite (proj1 (arr_get_fold_set g _ arr_empty x) Hin) in H.
    injection H as <-. apply zrange_In in Hin. auto.
  - rewrite (proj2 (arr_get_fold_set g _ arr_empty x) Hnin) in H.
    unfold arr_get, arr_empty in H. cbn in H. rewrite lookup_empty in H.
    discriminate.
Qed.

Lemma cell_gridOf_inv (width height : Z) (f : Z -> Z -> TileType)
    (x y : Z) (t : TileType) :
  cell (gridOf width height f) x y = Some t -> t = f x y.
Proof.
  unfold cell, gridOf.
  destruct (arr_get (rowOf height _) y) as [row|] eqn:E; [|discriminate].
  apply arr_get_rowOf_inv in E as [_ ->].
  intros H. apply arr_get_rowOf_inv in H as [_ ->]. reflexivity.
Qed.

Lemma firstRowLength_gridOf (width height : Z) (f : Z -> Z -> TileType)
    (n : Z) :
  firstRowLength (gridOf width height f) = Returns n -> n = Z.max width 0.
Proof.
  unfold firstRowLength, gridOf.
  destruct (arr_get (rowOf height _) 0) as [row|] eqn:E; [|discriminate].
  apply arr_get_rowOf_inv in E as [_ ->]. intros [= <-]. apply len_rowOf.
Qed.

(** *** One site of the binary tree *)

Lemma writeTile_row0 layout y x t layout' :
  writeTile layout y x t = Returns layout' -> y <> 0 ->
  arr_get layout' 0 = arr_get layout 0.
Proof.
  unfold writeTile, arr_get.
  destruct (props layout !! y) as [row|]; [|discriminate].
  intros [= <-] Hy. cbn. apply lookup_insert_ne. exact Hy.
Qed.

Lemma floorAt_writeTile layout y x layout' p :
  writeTile layout y x FLOOR = Returns layout' ->
  floorAt layout' p <-> p = mkV x y \/ floorAt layout p.
Proof.
  intros H. unfold floorAt. rewrite (cell_writeTile _ _ _ _ _ H).
  destruct p as [px py]. cbn [vx vy]. case_decide as Hd.
  - destruct Hd as [-> ->]. split; auto.
  - split; [auto|]. intros [[= -> ->]|Hf]; [tauto|exact Hf].
Qed.

Lemma nthZ_In {A} (l : list A) (i : Z) (a : A) : nthZ l i = Some a -> a ∈ l.
Proof.
  unfold nthZ. destruct (i <? 0); [discriminate|].
  apply list_elem_of_lookup_2.
Qed.

Lemma bind_Returns {A B} (c : M A) (k : A -> M B) (s : Z) (r : B * Z) :
  bind c k s = Returns r ->
  exists a s1, c s = Returns (a, s1) /\ k a s1 = Returns r.
Proof.
  unfold bind. destruct (c s) as [[a s1]| |]; try discriminate. eauto.
Qed.

Lemma liftO_Returns {A} (c : Outcome A) (s : Z) (a : A) (s' : Z) :
  liftO c s = Returns (a, s') -> c = Returns a /\ s' = s.
Proof.
  unfold liftO. destruct c; cbn; try discriminate. intros [= -> ->]. auto.
Qed.

Lemma treeSite_inv x y layout st layout2 st2 :
  treeSite x y layout st = Returns (layout2, st2) ->
  exists layout1,
    writeTile layout y x FLOOR = Returns layout1 /\
    ((x <= 1 /\ y <= 1 /\ layout2 = layout1) \/
     (1 < y /\ writeTile layout1 (y - 1) x FLOOR = Returns layout2) \/
     (1 < x /\ writeTile layout1 y (x - 1) FLOOR = Returns layout2)).
Proof.
  unfold treeSite. intros H.
  apply bind_Returns in H as (layout1 & s1 & H1 & H).
  apply liftO_Returns in H1 as [H1 ->].
  exists layout1. split; [exact H1|].
  destruct (0 <? Z.of_nat (length _)) eqn:El.
  - apply bind_Returns in H as (i & s2 & _ & H).
    destruct (nthZ _ i) as [dir|] eqn:En; [|discriminate].
    apply nthZ_In in En. apply liftO_Returns in H as [Ew _].
    right. apply elem_of_app in En as [En|En].
    + left. destruct (1 <? y) eqn:Ey; [|inversion En].
      apply list_elem_of_singleton in En as ->. cbn [vx vy] in Ew.
      apply Z.ltb_lt in Ey. split; [exact Ey|].
      rewrite Z.add_0_r in Ew. exact Ew.
    + right. destruct (1 <? x) eqn:Ex; [|inversion En].
      apply list_elem_of_singleton in En as ->. cbn [vx vy] in Ew.
      apply Z.ltb_lt in Ex. split; [exact Ex|].
      rewrite Z.add_0_r in Ew. exact Ew.
  - injection H as <- _. left.
    destruct (1 <? y) eqn:Ey; [discriminate|].
    destruct (1 <? x) eqn:Ex; [discriminate|].
    apply Z.ltb_ge in Ey, Ex. auto.
Qed.

Lemma treeSite_step width height layout0 layout x y st layout2 st2 :
  treeInv width height layout0 layout ->
  1 <= x <= width - 2 -> 1 <= y <= height - 2 ->
  (1 < y -> 3 <= y /\ floorAt layout (mkV x (y - 2))) ->
  (1 < x -> 3 <= x /\ floorAt layout (mkV (x - 2) y)) ->
  treeSite x y layout st = Returns (layout2, st2) ->
  treeInv width height layout0 layout2 /\
  floorAt layout2 (mkV x y) /\
  forall p, floorAt layout p -> floorAt layout2 p.
Proof.
  intros (Hlen & Hrow0 & Hfloor) Hx Hy Hnorth Hwest H.
  apply treeSite_inv in H as (layout1 & H1 & H2).
  pose proof (floorAt_writeTile _ _ _ _ (mkV x y) H1) as Hsite.
  assert (Hsub1 : forall p, floorAt layout p -> floorAt layout1 p).
  { intros p Hp. apply (floorAt_writeTile _ _ _ _ p H1). auto. }
  destruct (writeTile_rows _ _ _ _ _ H1) as [Hlen1 _].
  pose proof (writeTile_row0 _ _ _ _ _ H1 ltac:(lia)) as Hrow1.
  destruct H2 as [(Hx1 & Hy1 & ->)|[[Hy1 H2]|[Hx1 H2]]].
  - (* the first site: nothing to join *)
    split; [|split; [apply Hsite; auto|exact Hsub1]].
    split; [congruence|]. split; [congruence|].
    intros p Hp. apply (floorAt_writeTile _ _ _ _ p H1) in Hp as [->|Hp].
    + split; [split; cbn [vx vy]; lia|].
      assert (x = 1 /\ y = 1) as [-> ->] by lia.
      apply reach_here, Hsite. auto.
    + destruct (Hfloor p Hp) as [Hi Hr]. split; [exact Hi|].
      eapply reach_mono; eauto.
  - (* carve north *)
    destruct (Hnorth Hy1) as [Hy3 Habove].
    assert (Hsub : forall p, floorAt layout1 p -> floorAt layout2 p).
    { intros p Hp. apply (floorAt_writeTile _ _ _ _ p H2). auto. }
    assert (Hc : floorAt layout2 (mkV x (y - 1))).
    { apply (floorAt_writeTile _ _ _ _ _ H2). auto. }
    assert (Hs : floorAt layout2 (mkV x y)) by (apply Hsub, Hsite; auto).
    assert (Rc : reach layout2 (mkV 1 1) (mkV x (y - 1))).
    { apply (reach_step _ _ (mkV x (y - 2))); [|unfold manhattan; cbn; lia|exact Hc].
      eapply reach_mono; [|apply Hfloor; exact Habove]. auto. }
    assert (Rs : reach layout2 (mkV 1 1) (mkV x y)).
    { apply (reach_step _ _ (mkV x (y - 1))); [exact Rc| |exact Hs].
      unfold manhattan; cbn; lia. }
    destruct (writeTile_rows _ _ _ _ _ H2) as [Hlen2 _].
    pose proof (writeTile_row0 _ _ _ _ _ H2 ltac:(lia)) as Hrow2.
    split; [|split; [exact Hs|auto]].
    split; [congruence|]. split; [congruence|].
    intros p Hp. apply (floorAt_writeTile _ _ _ _ p H2) in Hp as [->|Hp].
    { split; [split; cbn [vx vy]; lia|exact Rc]. }
    apply (floorAt_writeTile _ _ _ _ p H1) in Hp as [->|Hp].
    { split; [split; cbn [vx vy]; lia|exact Rs]. }
    destruct (Hfloor p Hp) as [Hi Hr]. split; [exact Hi|].
    eapply reach_mono; [|exact Hr]. auto.
  - (* carve west *)
    destruct (Hwest Hx1) as [Hx3 Hleft].
    assert (Hsub : forall p, floorAt layout1 p -> floorAt layout2 p).
    { intros p Hp. apply (floorAt_writeTile _ _ _ _ p H2). auto. }
    assert (Hc : floorAt layout2 (mkV (x - 1) y)).
    { apply (floorAt_writeTile _ _ _ _ _ H2). auto. }
    assert (Hs : floorAt layout2 (mkV x y)) by (apply Hsub, Hsite; auto).
    assert (Rc : reach layout2 (mkV 1 1) (mkV (x - 1) y)).
    { apply (reach_step _ _ (mkV (x - 2) y)); [|unfold manhattan; cbn; lia|exact Hc].
      eapply reach_mono; [|apply Hfloor; exact Hleft]. auto. }
    assert (Rs : reach layout2 (mkV 1 1) (mkV x y)).
    { apply (reach_step _ _ (mkV (x - 1) y)); [exact Rc| |exact Hs].
      unfold manhattan; cbn; lia. }
    destruct (writeTile_rows _ _ _ _ _ H2) as [Hlen2 _].
    pose proof (writeTile_row0 _ _ _ _ _ H2 ltac:(lia)) as Hrow2.
    split; [|split; [exact Hs|auto]].
    split; [congruence|]. split; [congruence|].
    intros p Hp. apply (floorAt_writeTile _ _ _ _ p H2) in Hp as [->|Hp].
    { split; [split; cbn [vx vy]; lia|exact Rc]. }
    apply (floorAt_writeTile _ _ _ _ p H1) in Hp as [->|Hp].
    { split; [split; cbn [vx vy]; lia|exact Rs]. }
    destruct (Hfloor p Hp) as [Hi Hr]. split; [exact Hi|].
    eapply reach_mono; [|exact Hr]. auto.
Qed.

(** The odd lattice in the order the loops visit it. *)
Lemma map_seq_split {A} (f : nat -> A) (n : nat) (pre post : list A) (a : A) :
  map f (seq 0 n) = pre ++ a :: post ->
  a = f (length pre) /\ forall k, (k < length pre)%nat -> f k ∈ pre.
Proof.
  intros H.
  assert (Hn : (length pre < n)%nat).
  { apply (f_equal (@length A)) in H.
    rewrite length_map, length_seq, length_app in H. cbn in H. lia. }
  split.
  - assert (E : (pre ++ a :: post) !! length pre = Some a)
      by (apply list_lookup_middle; reflexivity).
    rewrite <- H, list_lookup_fmap, lookup_seq_lt in E by exact Hn.
    cbn in E. congruence.
  - intros k Hk.
    assert (E : (pre ++ a :: post) !! k = pre !! k)
      by (apply lookup_app_l; exact Hk).
    rewrite <- H, list_lookup_fmap, lookup_seq_lt in E by lia.
    cbn in E. symmetry in E. eapply list_elem_of_lookup_2. exact E.
Qed.

Lemma zrange_step_prev (lo hi : Z) (pre post : list Z) (a : Z) :
  zrange_step lo hi 2 = pre ++ a :: post ->
  lo <= a < hi /\ (exists k, a = lo + 2 * k) /\
  (lo < a -> lo + 2 <= a /\ a - 2 ∈ pre).
Proof.
  intros H.
  assert (Hin : In a (zrange_step lo hi 2)).
  { rewrite H. apply in_or_app. right. left. reflexivity. }
  apply zrange_step_In in Hin as (k & Hk & Hk0 & Hlt).
  split; [lia|]. split; [eauto|].
  unfold zrange_step in H. apply map_seq_split in H as [Ha Hpre].
  intros Hlo. split; [lia|].
  assert (Hpos : (0 < length pre)%nat) by lia.
  specialize (Hpre (length pre - 1)%nat ltac:(lia)).
  replace (a - 2) with (lo + 2 * Z.of_nat (length pre - 1)) by lia.
  exact Hpre.
Qed.

Lemma generateBinaryTree_tree (options : MazeGenerationOptions)
    (s s' : Z) (layout : Layout) :
  generateBinaryTree options s = Returns (layout, s') ->
  treeInv (opt_width options) (opt_height options)
          (gridOf (opt_width options) (opt_height options) (fun _ _ => WALL))
          layout.
Proof.
  unfold generateBinaryTree.
  set (width := opt_width options). set (height := opt_height options).
  set (layout0 := gridOf width height (fun _ _ => WALL)).
  intros H. apply bind_Returns in H as (l0 & s0 & H0 & H).
  rewrite (newGrid_pure width height _ (fun _ _ => WALL)) in H0
    by reflexivity.
  injection H0 as <- <-. fold layout0 in H.
  assert (G : treeInv width height layout0 layout /\
              forall x' y', y' ∈ zrange_step 1 (height - 1) 2 ->
                            x' ∈ zrange_step 1 (width - 1) 2 ->
                            floorAt layout (mkV x' y')); [|apply G].
  revert H.
  apply (forM_inv (fun pre layout =>
           treeInv width height layout0 layout /\
           forall x' y', y' ∈ pre -> x' ∈ zrange_step 1 (width - 1) 2 ->
                         floorAt layout (mkV x' y'))).
  - split.
    + split; [reflexivity|]. split; [reflexivity|].
      intros p Hp. apply cell_gridOf_inv in Hp. discriminate.
    + intros x' y' Hy'. inversion Hy'.
  - intros pre y post l1 st1 l2 st2 Hys [Hinv Hdone] Hrow.
    apply zrange_step_prev in Hys as (Hy & _ & Hyprev).
    assert (G : treeInv width height layout0 l2 /\
                (forall x' y', y' ∈ pre ->
                               x' ∈ zrange_step 1 (width - 1) 2 ->
                               floorAt l2 (mkV x' y')) /\
                forall x', x' ∈ zrange_step 1 (width - 1) 2 ->
                           floorAt l2 (mkV x' y)).
    { revert Hrow.
      apply (forM_inv (fun pre' layout =>
               treeInv width height layout0 layout /\
               (forall x' y', y' ∈ pre ->
                              x' ∈ zrange_step 1 (width - 1) 2 ->
                              floorAt layout (mkV x' y')) /\
               forall x', x' ∈ pre' -> floorAt layout (mkV x' y))).
      - split; [exact Hinv|]. split; [exact Hdone|].
        intros x' Hx'. inversion Hx'.
      - intros pre' x post' l3 st3 l4 st4 Hxs (Hinv3 & Hdone3 & Hrow3) Hsite.
        assert (Hxin : x ∈ zrange_step 1 (width - 1) 2).
        { rewrite Hxs. apply elem_of_app. right. left. }
        apply zrange_step_prev in Hxs as (Hx & _ & Hxprev).
        destruct (treeSite_step width height layout0 l3 x y st3 l4 st4)
          as (Hinv4 & Hs4 & Hsub4); try assumption; try lia.
        + intros Hy1. destruct (Hyprev Hy1) as [Hy3 Hin].
          split; [lia|]. apply Hdone3; assumption.
        + intros Hx1. destruct (Hxprev Hx1) as [Hx3 Hin].
          split; [lia|]. apply Hrow3. exact Hin.
        + split; [exact Hinv4|]. split.
          * intros x' y' Hy' Hx'. apply Hsub4, Hdone3; assumption.
          * intros x' Hx'. apply elem_of_app in Hx' as [Hx'|Hx'].
            -- apply Hsub4, Hrow3. exact Hx'.
            -- apply list_elem_of_singleton in Hx' as ->. exact Hs4. }
    destruct G as (Hinv2 & Hdone2 & Hrow2). split; [exact Hinv2|].
    intros x' y' Hy' Hx'. apply elem_of_app in Hy' as [Hy'|Hy'].
    + apply Hdone2; assumption.
    + apply list_elem_of_singleton in Hy' as ->. apply Hrow2. exact Hx'.
Qed.

(** *** Boundary enforcement and door baking keep the floor inside *)

Lemma floorAt_writeTile_other layout y x t layout' p :
  t <> FLOOR ->
  writeTile layout y x t = Returns layout' ->
  floorAt layout' p <-> floorAt layout p /\ p <> mkV x y.
Proof.
  intros Ht H. unfold floorAt. rewrite (cell_writeTile _ _ _ _ _ H).
  destruct p as [px py]. cbn [vx vy]. case_decide as Hd.
  - destruct Hd as [-> ->]. split; [intros [= E]; congruence|].
    intros [_ Hn]. congruence.
  - split; [|tauto]. intros Hf. split; [exact Hf|].
    intros [= -> ->]. tauto.
Qed.

Lemma ensureBoundaryWalls_floor layout walled width :
  firstRowLength layout = Returns width ->
  ensureBoundaryWalls layout = Returns walled ->
  (forall p, floorAt walled p -> floorAt layout p) /\
  (forall p, floorAt layout p ->
             vy p <> 0 -> vy p <> len layout - 1 ->
             vx p <> 0 -> vx p <> width - 1 -> floorAt walled p).
Proof.
  intros Hw. unfold ensureBoundaryWalls. rewrite Hw. cbn [bindO].
  set (keeps := fun cur : Layout =>
    (forall p, floorAt cur p -> floorAt layout p) /\
    (forall p, floorAt layout p ->
               vy p <> 0 -> vy p <> len layout - 1 ->
               vx p <> 0 -> vx p <> width - 1 -> floorAt cur p)).
  assert (Hstep : forall cur y x cur',
            keeps cur -> (y = 0 \/ y = len layout - 1 \/ x = 0 \/ x = width - 1) ->
            writeTile cur y x WALL = Returns cur' -> keeps cur').
  { intros cur y x cur' [K1 K2] Hyx Hwr. split.
    - intros p Hp.
      apply (floorAt_writeTile_other cur y x WALL cur' p) in Hp;
        [|discriminate|exact Hwr].
      apply K1, Hp.
    - intros p Hp H1 H2 H3 H4.
      apply (floorAt_writeTile_other cur y x WALL cur' p);
        [discriminate|exact Hwr|].
      split; [apply K2; assumption|].
      intros ->. cbn [vx vy] in *. lia. }
  destruct (forO (zrange 0 width) layout _) as [mid| |] eqn:E1;
    try discriminate.
  cbn [bindO]. intros E2.
  assert (Kmid : keeps mid).
  { revert E1. apply (forO_inv (fun _ cur => keeps cur)).
    - split; auto.
    - intros _ x _ cur cur' _ K Hb.
      destruct (writeTile cur 0 x WALL) as [cur1| |] eqn:Ew1;
        try discriminate.
      cbn [bindO] in Hb.
      eapply (Hstep cur1); [|right; left; reflexivity|exact Hb].
      eapply (Hstep cur); [exact K|left; reflexivity|exact Ew1]. }
  change (keeps walled). revert E2.
  apply (forO_inv (fun _ cur => keeps cur)); [exact Kmid|].
  intros _ y _ cur cur' _ K Hb.
  destruct (writeTile cur y 0 WALL) as [cur1| |] eqn:Ew1; try discriminate.
  cbn [bindO] in Hb.
  eapply (Hstep cur1); [|do 3 right; reflexivity|exact Hb].
  eapply (Hstep cur); [exact K|right; right; left; reflexivity|exact Ew1].
Qed.

Lemma placeSpecialTiles_floor layout doors final :
  placeSpecialTiles layout doors = Returns final ->
  (forall d, Some d ∈ doors -> ~ floorAt layout d) ->
  forall p, floorAt final p <-> floorAt layout p.
Proof.
  unfold placeSpecialTiles. intros H Hd. revert H.
  apply (forO_inv (fun _ cur => forall p, floorAt cur p <-> floorAt layout p)).
  - reflexivity.
  - intros pre [d|] post cur cur' Hl IH Hb; [|discriminate].
    intros p.
    rewrite (floorAt_writeTile_other cur (vy d) (vx d) DOOR cur' p
               ltac:(discriminate) Hb).
    rewrite IH. split; [tauto|]. intros Hp. split; [exact Hp|].
    intros ->. destruct d as [dx dy]. cbn [vx vy] in Hp.
    apply (Hd (mkV dx dy)); [|exact Hp].
    rewrite Hl. apply elem_of_app. right. left.
Qed.

(** For the binary tree strategy, whatever the dimensions and the seed,
    all floor cells of a returned layout form one connected component
    under 4-directional adjacency. *)
Lemma binary_tree_floor_connected
    (Math_sin : Q -> Q) (fuel : nat) (this : MazeGenerator)
    (options : MazeGenerationOptions) (now : Z)
    (m : MazeData) (g : MazeGenerator) :
  opt_algorithm options = BINARY_TREE ->
  generateMaze Math_sin fuel this options now = Returns (m, g) ->
  floorConnected (maze_layout m).
Proof.
  intros Halg H.
  destruct (generateMaze_stages _ _ _ _ _ _ _ H)
    as (walled & doors & s & s' & Hw & Hd & Hp & _).
  unfold layoutBeforeBaking, carve in Hw. rewrite Halg in Hw.
  destruct (generateBinaryTree options (gen_state this))
    as [[layout s0]| |] eqn:Et; try discriminate.
  cbn [bindO fst] in Hw.
  destruct (generateBinaryTree_tree _ _ _ _ Et) as (Hlen & Hrow0 & Hfloor).
  set (width := opt_width options) in *.
  set (height := opt_height options) in *.
  assert (Hheight : len layout = Z.max height 0).
  { rewrite Hlen. unfold gridOf. apply len_rowOf. }
  destruct (firstRowLength layout) as [w| |] eqn:Ew;
    try (unfold ensureBoundaryWalls in Hw; rewrite Ew in Hw; discriminate).
  assert (Hwidth : w = Z.max width 0).
  { apply (firstRowLength_gridOf width height (fun _ _ => WALL)).
    unfold firstRowLength in *. rewrite <- Hrow0. exact Ew. }
  destruct (ensureBoundaryWalls_floor _ _ _ Ew Hw) as [K1 K2].
  destruct (generateDoorPositions_spec _ _ _ _ Hd) as (_ & Hwall & _).
  pose proof (placeSpecialTiles_floor _ _ _ Hp) as Hbake.
  assert (Hsame : forall p, floorAt (maze_layout m) p <-> floorAt layout p).
  { intros p. rewrite Hbake.
    - split; [apply K1|]. intros Hf.
      destruct (Hfloor p Hf) as [[Hx Hy] _].
      apply K2; try assumption; lia.
    - intros d Hin Hf. destruct (Hwall d Hin) as [Hwd _].
      unfold floorAt in Hf. congruence. }
  intros p q Hpf Hqf. apply Hsame in Hpf, Hqf.
  apply (reach_mono layout); [intros r Hr; apply Hsame; exact Hr|].
  apply (reach_trans _ _ (mkV 1 1)).
  - apply reach_sym, Hfloor, Hpf.
  - apply Hfloor, Hqf.
Qed.

(** ** The boundary of a full grid *)

Lemma writeTile_grid layout width height y x t :
  isGrid layout width height -> 0 <= x < width -> 0 <= y < height ->
  exists layout', writeTile layout y x t = Returns layout' /\
                  isGrid layout' width height.
Proof.
  intros [Hlen Hrows] Hx Hy.
  destruct (Hrows y Hy) as (row & Erow & Hw & Hcells).
  unfold writeTile. rewrite Erow. eexists. split; [reflexivity|].
  split; [exact Hlen|]. intros y' Hy'. unfold arr_get. cbn [props].
  destruct (decide (y' = y)) as [->|Hne].
  - rewrite lookup_insert_eq. eexists. split; [reflexivity|].
    unfold arr_set. cbn [len props]. split.
    + replace (0 <=? x) with true by (symmetry; apply Z.leb_le; lia). lia.
    + intros x' Hx'. destruct (decide (x' = x)) as [->|Hnx].
      * rewrite lookup_insert_eq. eauto.
      * rewrite lookup_insert_ne by auto. apply Hcells. exact Hx'.
  - rewrite lookup_insert_ne by auto. apply Hrows. exact Hy'.
Qed.

Lemma writeTile_keeps_wall layout y x layout' x' y' :
  writeTile layout y x WALL = Returns layout' ->
  cell layout x' y' = Some WALL -> cell layout' x' y' = Some WALL.
Proof.
  intros H Hc. rewrite (cell_writeTile _ _ _ _ _ H).
  case_decide; [reflexivity|exact Hc].
Qed.

Lemma cell_writeTile_same layout y x t layout' :
  writeTile layout y x t = Returns layout' -> cell layout' x y = Some t.
Proof.
  intros H. rewrite (cell_writeTile _ _ _ _ _ H).
  rewrite decide_True by auto. reflexivity.
Qed.

(** Both writes of one step of a loop of [ensureBoundaryWalls]. *)
Lemma wall_pair layout width height y1 x1 y2 x2 (known : Z -> Z -> Prop) :
  isGrid layout width height ->
  0 <= x1 < width -> 0 <= y1 < height ->
  0 <= x2 < width -> 0 <= y2 < height ->
  (forall x y, known x y -> cell layout x y = Some WALL) ->
  exists layout',
    (let! layout := writeTile layout y1 x1 WALL in
     writeTile layout y2 x2 WALL) = Returns layout' /\
    isGrid layout' width height /\
    cell layout' x1 y1 = Some WALL /\ cell layout' x2 y2 = Some WALL /\
    forall x y, known x y -> cell layout' x y = Some WALL.
Proof.
  intros Hg Hx1 Hy1 Hx2 Hy2 Hk.
  destruct (writeTile_grid layout width height y1 x1 WALL Hg Hx1 Hy1)
    as (l1 & E1 & Hg1).
  destruct (writeTile_grid l1 width height y2 x2 WALL Hg1 Hx2 Hy2)
    as (l2 & E2 & Hg2).
  exists l2. rewrite E1. cbn [bindO]. split; [exact E2|].
  split; [exact Hg2|]. split; [|split].
  - eapply writeTile_keeps_wall; [exact E2|].
    eapply cell_writeTile_same. exact E1.
  - eapply cell_writeTile_same. exact E2.
  - intros x y Hxy. eapply writeTile_keeps_wall; [exact E2|].
    eapply writeTile_keeps_wall; [exact E1|]. auto.
Qed.

Lemma ensureBoundaryWalls_grid layout width height :
  isGrid layout width height -> 0 < width -> 0 < height ->
  exists walled,
    ensureBoundaryWalls layout = Returns walled /\
    isGrid walled width height /\
    forall x y, 0 <= x < width -> 0 <= y < height ->
      x = 0 \/ x = width - 1 \/ y = 0 \/ y = height - 1 ->
      cell walled x y = Some WALL.
Proof.
  intros Hg Hw Hh. unfold ensureBoundaryWalls.
  destruct Hg as [Hlen Hrows]. rewrite Hlen.
  destruct (Hrows 0 ltac:(lia)) as (row0 & E0 & Hw0 & _).
  unfold firstRowLength. rewrite E0, Hw0. cbn [bindO].
  destruct (forO_total (fun pre cur =>
              isGrid cur width height /\
              forall x y, In x pre -> y = 0 \/ y = height - 1 ->
                          cell cur x y = Some WALL)
              (zrange 0 width)
              (fun x layout =>
                 let! layout := writeTile layout 0 x WALL in
                 writeTile layout (height - 1) x WALL) layout)
    as (mid & E1 & Hgm & Hmid).
  { split; [split; assumption|]. intros x y []. }
  { intros pre x post cur Hl [Hgc Hc].
    assert (Hx : 0 <= x < width).
    { apply zrange_In. rewrite Hl. apply in_or_app. right. left. reflexivity. }
    destruct (wall_pair cur width height 0 x (height - 1) x
                (fun x' y' => In x' pre /\ (y' = 0 \/ y' = height - 1)))
      as (cur' & E & Hg' & Ha & Hb & Hk); try assumption; try lia.
    { intros x' y' [? ?]. auto. }
    exists cur'. split; [exact E|]. split; [exact Hg'|].
    intros x' y' Hin Hy'. apply in_app_or in Hin as [Hin|[->|[]]].
    - apply Hk. auto.
    - destruct Hy' as [->| ->]; assumption. }
  rewrite E1. cbn [bindO].
  destruct (forO_total (fun pre cur =>
              isGrid cur width height /\
              (forall x y, 0 <= x < width -> y = 0 \/ y = height - 1 ->
                           cell cur x y = Some WALL) /\
              forall x y, In y pre -> x = 0 \/ x = width - 1 ->
                          cell cur x y = Some WALL)
              (zrange 0 height)
              (fun y layout =>
                 let! layout := writeTile layout y 0 WALL in
                 writeTile layout y (width - 1) WALL) mid)
    as (walled & E2 & Hgw & Htb & Hlr).
  { split; [exact Hgm|]. split.
    - intros x y Hx Hy. apply Hmid; [apply zrange_In; lia|exact Hy].
    - intros x y []. }
  { intros pre y post cur Hl (Hgc & Htb & Hlr).
    assert (Hy : 0 <= y < height).
    { apply zrange_In. rewrite Hl. apply in_or_app. right. left. reflexivity. }
    destruct (wall_pair cur width height y 0 y (width - 1)
                (fun x' y' =>
                   (0 <= x' < width /\ (y' = 0 \/ y' = height - 1)) \/
                   (In y' pre /\ (x' = 0 \/ x' = width - 1))))
      as (cur' & E & Hg' & Ha & Hb & Hk); try assumption; try lia.
    { intros x' y' [[? ?]|[? ?]]; auto. }
    exists cur'. split; [exact E|]. split; [exact Hg'|]. split.
    - intros x' y' Hx' Hy'. apply Hk. left. auto.
    - intros x' y' Hin Hx'. apply in_app_or in Hin as [Hin|[->|[]]].
      + apply Hk. right. auto.
      + destruct Hx' as [->| ->]; assumption. }
  exists walled. split; [exact E2|]. split; [exact Hgw|].
  intros x y Hx Hy [->|[->|[->| ->]]].
  - apply Hlr; [apply zrange_In; lia|auto].
  - apply Hlr; [apply zrange_In; lia|auto].
  - apply Htb; auto.
  - apply Htb; auto.
Qed.

Lemma placeSpecialTiles_cells layout doors final x y :
  placeSpecialTiles layout doors = Returns final ->
  (forall d, Some d ∈ doors -> ~ (vx d = x /\ vy d = y)) ->
  cell final x y = cell layout x y.
Proof.
  unfold placeSpecialTiles. intros H Hd. revert H.
  apply (forO_inv (fun _ cur => cell cur x y = cell layout x y)).
  - reflexivity.
  - intros pre [d|] post cur cur' Hl IH Hb; [|discriminate].
    rewrite (cell_writeTile _ _ _ _ _ Hb), <- IH.
    case_decide as Hc; [|reflexivity].
    exfalso. apply (Hd d); [|destruct Hc; auto].
    rewrite Hl. apply elem_of_app. right. left.
Qed.

(** When the carved layout is a full grid of the requested size, which it
    is unless a room was carved across its edge, the outer ring of the
    returned layout is wall. *)
Lemma boundary_walled_on_full_grid Math_sin fuel this options now m g
    layout s :
  carve Math_sin fuel (gen_seed this) options (gen_state this)
  = Returns (layout, s) ->
  fullGrid layout (opt_width options) (opt_height options) = true ->
  0 < opt_width options -> 0 < opt_height options ->
  generateMaze Math_sin fuel this options now = Returns (m, g) ->
  forall x y,
    0 <= x < opt_width options -> 0 <= y < opt_height options ->
    x = 0 \/ x = opt_width options - 1 \/
    y = 0 \/ y = opt_height options - 1 ->
    cell (maze_layout m) x y = Some WALL.
Proof.
  intros Hc Hfull Hw Hh H x y Hx Hy Hborder.
  apply fullGrid_isGrid in Hfull.
  destruct (generateMaze_stages _ _ _ _ _ _ _ H)
    as (walled & doors & s1 & s2 & Hwalled & Hd & Hp & _).
  unfold layoutBeforeBaking in Hwalled. rewrite Hc in Hwalled.
  cbn [bindO fst] in Hwalled.
  destruct (ensureBoundaryWalls_grid _ _ _ Hfull Hw Hh)
    as (walled' & E & Hg & Hwall).
  rewrite E in Hwalled. injection Hwalled as ->.
  rewrite (placeSpecialTiles_cells _ _ _ x y Hp); [apply Hwall; assumption|].
  intros d Hin [Hdx Hdy].
  destruct (generateDoorPositions_spec _ _ _ _ Hd) as (_ & Hinside & _).
  destruct (Hinside d Hin) as (_ & Hvy & row & Erow & Hvx).
  destruct Hg as [Hlen Hrows].
  destruct (Hrows (vy d) ltac:(lia)) as (row' & Erow' & Hlenrow & _).
  rewrite Erow in Erow'. injection Erow' as <-.
  lia.
Qed.

(** ** Rounding and the range of a random index *)

Lemma ilog2_lower (n d : Z) :
  0 < n -> 0 < d ->
  (0 <= ilog2 n d -> d * 2 ^ ilog2 n d <= n) /\
  (ilog2 n d < 0 -> d <= n * 2 ^ (- ilog2 n d)).
Proof.
  intros Hn Hd. unfold ilog2.
  pose proof (Z.log2_spec n Hn) as [Ln1 Ln2].
  pose proof (Z.log2_spec d Hd) as [Ld1 Ld2].
  pose proof (Z.log2_nonneg n) as Pn. pose proof (Z.log2_nonneg d) as Pd.
  generalize dependent (Z.log2 n). generalize dependent (Z.log2 d).
  intros ld Ld1 Ld2 Pd ln Ln1 Ln2 Pn.
  destruct (0 <=? ln - ld) eqn:E.
  - apply Z.leb_le in E.
    destruct (d * 2 ^ (ln - ld) <=? n) eqn:T.
    + apply Z.leb_le in T. split; [intros _; exact T | lia].
    + apply Z.leb_gt in T. split.
      * intros Hk.
        assert (d * 2 ^ (ln - ld - 1) < 2 ^ ln).
        { replace ln with (Z.succ ld + (ln - ld - 1)) at 2 by lia.
          rewrite Z.pow_add_r by lia.
          assert (0 < 2 ^ (ln - ld - 1)) by (apply Z.pow_pos_nonneg; lia).
          nia. }
        lia.
      * intros Hk. assert (ln = ld) by lia.
        replace (- (ln - ld - 1)) with 1 by lia.
        rewrite Z.pow_succ_r in Ld2 by lia. subst ln. change (2 ^ 1) with 2. lia.
  - apply Z.leb_gt in E.
    destruct (d <=? n * 2 ^ (- (ln - ld))) eqn:T.
    + apply Z.leb_le in T. split; [lia | intros _; exact T].
    + apply Z.leb_gt in T. split; [lia|].
      intros _.
      assert (2 ^ Z.succ ld <= n * 2 ^ (- (ln - ld - 1))).
      { replace (Z.succ ld) with (ln + (- (ln - ld - 1))) by lia.
        rewrite Z.pow_add_r by lia.
        assert (0 < 2 ^ (- (ln - ld - 1))) by (apply Z.pow_pos_nonneg; lia).
        nia. }
      lia.
Qed.

Lemma rne_half (n d : Z) : 0 <= n -> 0 < d -> 2 * d * rne n d <= 2 * n + d.
Proof.
  intros Hn Hd. unfold rne.
  pose proof (Z.div_mod n d ltac:(lia)) as E.
  pose proof (Z.mod_pos_bound n d Hd) as B.
  destruct (2 * (n mod d) <? d) eqn:E1; [apply Z.ltb_lt in E1; nia|].
  apply Z.ltb_ge in E1.
  destruct (d <? 2 * (n mod d)) eqn:E2; [apply Z.ltb_lt in E2; nia|].
  apply Z.ltb_ge in E2.
  destruct (Z.even (n / d)); nia.
Qed.

Lemma binary64_upper (q : Q) :
  0 < Qnum q -> (binary64 q <= q * ulpFactor)%Q.
Proof.
  destruct q as [n d]. cbn [Qnum]. intros Hn.
  unfold binary64. cbn [Qnum Qden].
  rewrite Z.abs_eq by lia.
  replace (n =? 0) with false by (symmetry; apply Z.eqb_neq; lia).
  replace (n <? 0) with false by (symmetry; apply Z.ltb_ge; lia).
  pose proof (ilog2_lower n (Z.pos d) Hn ltac:(lia)) as [K1 K2].
  set (k := ilog2 n (Z.pos d)) in *.
  destruct (0 <=? k - 52) eqn:E.
  - apply Z.leb_le in E. specialize (K1 ltac:(lia)).
    set (E2 := 2 ^ (k - 52)) in *.
    assert (0 < E2) by (apply Z.pow_pos_nonneg; lia).
    assert (Hs : Z.pos d * E2 * 2 ^ 52 <= n).
    { unfold E2. rewrite <- Z.mul_assoc, <- Z.pow_add_r by lia.
      replace (k - 52 + 52) with k by lia. exact K1. }
    pose proof (rne_half n (Z.pos d * E2) ltac:(lia) ltac:(nia)).
    unfold Qle, ulpFactor. cbn [Qnum Qden inject_Z Qmult].
    rewrite Pos2Z.inj_mul. change (2 ^ 52) with 4503599627370496 in *.
    nia.
  - apply Z.leb_gt in E.
    replace (- (k - 52)) with (52 - k) by lia.
    set (E2 := 2 ^ (52 - k)) in *.
    assert (0 < E2) by (apply Z.pow_pos_nonneg; lia).
    assert (Hs : Z.pos d * 2 ^ 52 <= n * E2).
    { unfold E2. destruct (Z_lt_le_dec k 0) as [Hk|Hk].
      - specialize (K2 Hk).
        replace (52 - k) with (- k + 52) by lia. rewrite Z.pow_add_r by lia.
        nia.
      - specialize (K1 Hk).
        assert (0 < 2 ^ (52 - k)) by (apply Z.pow_pos_nonneg; lia).
        assert (2 ^ 52 = 2 ^ k * 2 ^ (52 - k)).
        { rewrite <- Z.pow_add_r by lia. f_equal. lia. }
        nia. }
    pose proof (rne_half (n * E2) (Z.pos d) ltac:(nia) ltac:(lia)).
    unfold Qle, ulpFactor. cbn [Qnum Qden inject_Z Qmult].
    rewrite Pos2Z.inj_mul, Z2Pos.id by lia.
    change (2 ^ 52) with 4503599627370496 in *.
    nia.
Qed.

Lemma rng_value_tight (s : Z) :
  0 <= s < 233280 ->
  (0 <= rng_value s <= (233279 # 233280) * ulpFactor)%Q.
Proof.
  intros Hs. split; [apply rng_value_unit; exact Hs|].
  unfold rng_value, fdiv.
  destruct (Z.eq_dec s 0) as [->|Hz]; [vm_compute; discriminate|].
  eapply Qle_trans; [apply binary64_upper; cbn; lia|].
  apply Qmult_le_compat_r; [|vm_compute; discriminate].
  unfold Qle. cbn. lia.
Qed.

Lemma floor_fmul_range (r : Q) (n : Z) :
  (0 <= r <= (233279 # 233280) * ulpFactor)%Q -> 1 <= n ->
  0 <= Math_floor (fmul r (inject_Z n)) < n.
Proof.
  intros [Hr0 Hr1] Hn. unfold Math_floor, fmul.
  assert (Hp : (0 <= r * inject_Z n)%Q).
  { apply Qmult_le_0_compat; [exact Hr0|]. unfold Qle. cbn. lia. }
  split.
  - change 0 with (Qfloor 0). apply Qfloor_resp_le, binary64_nonneg, Hp.
  - cut (binary64 (r * inject_Z n) < inject_Z n)%Q.
    { intros Hlt. pose proof (Qfloor_le (binary64 (r * inject_Z n))) as Hf.
      pose proof (Qle_lt_trans _ _ _ Hf Hlt) as Hc.
      rewrite <- Zlt_Qlt in Hc. exact Hc. }
    destruct (Z.eq_dec (Qnum (r * inject_Z n)) 0) as [Hz|Hz].
    + assert (Hb : binary64 (r * inject_Z n) = 0%Q)
        by (unfold binary64; rewrite Hz; reflexivity).
      rewrite Hb. unfold Qlt. cbn [inject_Z Qnum Qden]. lia.
    + eapply Qle_lt_trans; [apply binary64_upper|].
      * unfold Qle in Hp. cbn in Hp |- *. cbn in Hz. lia.
      * assert (Hn' : (0 < inject_Z n)%Q) by (unfold Qlt; cbn; lia).
        assert (Hc : ((233279 # 233280) * ulpFactor * ulpFactor < 1)%Q)
          by reflexivity.
        assert (Hu : (0 <= ulpFactor)%Q) by (vm_compute; discriminate).
        apply Qle_lt_trans
          with (y := ((233279 # 233280) * ulpFactor * inject_Z n * ulpFactor)%Q).
        -- apply Qmult_le_compat_r; [|exact Hu].
           apply Qmult_le_compat_r; [exact Hr1|]. apply Qlt_le_weak, Hn'.
        -- assert (E1 : ((233279 # 233280) * ulpFactor * inject_Z n * ulpFactor
                         == (233279 # 233280) * ulpFactor * ulpFactor
                            * inject_Z n)%Q) by ring.
           assert (E2 : (inject_Z n == 1 * inject_Z n)%Q) by ring.
           rewrite E1. rewrite E2 at 2.
           apply Qmult_lt_r; assumption.
Qed.

Lemma randomIndex_range (n s : Z) :
  0 <= s -> 1 <= n ->
  exists i, randomIndex n s = Returns (i, lcg s) /\ 0 <= i < n.
Proof.
  intros Hs Hn. eexists. split; [reflexivity|].
  apply floor_fmul_range; [|exact Hn].
  apply rng_value_tight, lcg_nonneg, Hs.
Qed.

(** ** Floor tiles *)

Lemma zrange_middle (lo hi : Z) (pre post : list Z) (a : Z) :
  zrange lo hi = pre ++ a :: post -> lo <= a < hi /\ a ∉ pre.
Proof.
  intros E. split.
  - apply elem_of_zrange. rewrite E. apply elem_of_app. right. left.
  - eapply NoDup_split_middle. rewrite <- E. apply NoDup_zrange.
Qed.

Lemma findFloorTiles_row layout y row acc acc' :
  arr_get layout y = Some row ->
  NoDup acc -> (forall p, p ∈ acc -> vy p <> y) ->
  forO (zrange 0 (len row)) acc (fun x floors =>
    let! isFloor := isTile layout y x FLOOR in
    Returns (if isFloor then floors ++ [mkV x y] else floors)) = Returns acc' ->
  NoDup acc' /\
  forall p, p ∈ acc' <->
            p ∈ acc \/ (vy p = y /\ 0 <= vx p < len row /\ floorAt layout p).
Proof.
  intros Erow Hnd Hfresh Hb.
  assert (G : NoDup acc' /\
              forall p, p ∈ acc' <->
                p ∈ acc \/ (vy p = y /\ vx p ∈ zrange 0 (len row)
                            /\ floorAt layout p)).
  { revert Hb.
    apply (forO_inv (fun pre floors =>
             NoDup floors /\
             forall p, p ∈ floors <->
               p ∈ acc \/ (vy p = y /\ vx p ∈ pre /\ floorAt layout p))).
    - split; [exact Hnd|]. intros p. split; [auto|].
      intros [H|(_ & H & _)]; [exact H|inversion H].
    - intros pre x post fl fl' Hxs [Hnd1 IH] Hstep.
      destruct (zrange_middle _ _ _ _ _ Hxs) as [Hx Hnew].
      rewrite isTile_cell in Hstep by (rewrite Erow; eauto).
      cbn [bindO] in Hstep. injection Hstep as <-.
      destruct (cell layout x y) as [t|] eqn:Ec.
      + unfold tile_eqb. destruct (bool_decide (t = FLOOR)) eqn:Et.
        * apply bool_decide_eq_true in Et. subst t. split.
          -- apply NoDup_app. split; [exact Hnd1|].
             split; [|apply NoDup_singleton].
             intros p Hp Hp'. apply list_elem_of_singleton in Hp' as ->.
             apply IH in Hp as [Hp|(_ & Hp & _)].
             ++ apply Hfresh in Hp. cbn in Hp. congruence.
             ++ cbn in Hp. contradiction.
          -- intros p. rewrite elem_of_app, IH, list_elem_of_singleton.
             rewrite elem_of_app, list_elem_of_singleton.
             split.
             ++ intros [[?|(?&?&?)]| ->]; [auto|auto 6|].
                right. cbn. unfold floorAt. cbn. auto.
             ++ intros [?|(Hy & [?| Hxp] & Hf)]; [auto|auto 6|].
                right. destruct p as [px py]. cbn in *. congruence.
        * apply bool_decide_eq_false in Et. split; [exact Hnd1|].
          intros p. rewrite IH, elem_of_app, list_elem_of_singleton. split.
          -- intros [?|(?&?&?)]; auto 6.
          -- intros [?|(Hy & [?| Hxp] & Hf)]; [auto|auto 6|].
             exfalso. unfold floorAt in Hf. rewrite Hy, Hxp, Ec in Hf.
             congruence.
      + split; [exact Hnd1|].
        intros p. rewrite IH, elem_of_app, list_elem_of_singleton. split.
        * intros [?|(?&?&?)]; auto 6.
        * intros [?|(Hy & [?| Hxp] & Hf)]; [auto|auto 6|].
          exfalso. unfold floorAt in Hf. rewrite Hy, Hxp, Ec in Hf.
          congruence. }
  destruct G as [Hnd' G]. split; [exact Hnd'|].
  intros p. rewrite G, elem_of_zrange. reflexivity.
Qed.

Lemma findFloorTiles_sound layout floors :
  findFloorTiles layout = Returns floors ->
  NoDup floors /\
  forall p, p ∈ floors <-> floorAt layout p /\ inArray layout p.
Proof.
  unfold findFloorTiles. intros H.
  assert (G : NoDup floors /\
              forall p, p ∈ floors <->
                vy p ∈ zrange 0 (len layout) /\ floorAt layout p /\
                exists row, arr_get layout (vy p) = Some row /\
                            0 <= vx p < len row).
  { revert H.
    apply (forO_inv (fun pre floors =>
             NoDup floors /\
             forall p, p ∈ floors <->
               vy p ∈ pre /\ floorAt layout p /\
               exists row, arr_get layout (vy p) = Some row /\
                           0 <= vx p < len row)).
    - split; [constructor|]. intros p. split; [inversion 1|].
      intros [H _]. inversion H.
    - intros pre y post fl fl' Hys [Hnd IH] Hstep.
      destruct (zrange_middle _ _ _ _ _ Hys) as [Hy Hnew].
      destruct (arr_get layout y) as [row|] eqn:Erow; [|discriminate].
      apply (findFloorTiles_row _ _ _ _ _ Erow Hnd) in Hstep.
      + destruct Hstep as [Hnd' Hstep]. split; [exact Hnd'|].
        intros p. rewrite Hstep, IH, elem_of_app, list_elem_of_singleton.
        split.
        * intros [(?&?&?)|(Hpy & Hpx & Hf)]; [auto|].
          split; [auto|]. split; [exact Hf|]. exists row.
          rewrite Hpy. auto.
        * intros ([?|Hpy] & Hf & row' & Er & Hx); [eauto 6|].
          right. rewrite Hpy in Er. assert (row' = row) by congruence.
          subst row'. auto.
      + intros p Hp. apply IH in Hp as [Hp _]. congruence. }
  destruct G as [Hnd G]. split; [exact Hnd|].
  intros p. rewrite G, elem_of_zrange. unfold inArray. tauto.
Qed.

Lemma findFloorTiles_total layout :
  rowsDefined layout (len layout) ->
  exists floors, findFloorTiles layout = Returns floors.
Proof.
  intros Hrows. unfold findFloorTiles.
  destruct (forO_total (fun _ _ => True) (zrange 0 (len layout))
              (fun y floors =>
                 match arr_get layout y with
                 | None => Throws TypeError
                 | Some row =>
                   forO (zrange 0 (len row)) floors (fun x floors =>
                     let! isFloor := isTile layout y x FLOOR in
                     Returns (if isFloor then floors ++ [mkV x y]
                              else floors))
                 end) []) as (fl & E & _); [exact I| |eauto].
  intros pre y post fl Hys _.
  destruct (zrange_middle _ _ _ _ _ Hys) as [Hy _].
  destruct (Hrows y Hy) as [row Erow]. rewrite Erow.
  destruct (forO_total (fun _ _ => True) (zrange 0 (len row))
              (fun x floors =>
                 let! isFloor := isTile layout y x FLOOR in
                 Returns (if isFloor then floors ++ [mkV x y] else floors))
              fl) as (fl' & E & _); [exact I| |eauto].
  intros pre' x post' fl1 _ _.
  rewrite isTile_cell by (rewrite Erow; eauto). cbn. eauto.
Qed.

(** ** Spawn points and key spawns *)

Lemma randomTile_Returns floorTiles s tile s' :
  randomTile floorTiles s = Returns (tile, s') -> tile ∈ floorTiles.
Proof.
  unfold randomTile. intros H.
  apply bind_Returns in H as (i & s1 & _ & H).
  destruct (nthZ floorTiles i) as [t|] eqn:E; [|discriminate].
  injection H as <- _. eapply nthZ_In; eauto.
Qed.

Lemma placed_add (floorTiles spawns : list Vector2) (used : gset (Z * Z))
    (tile : Vector2) :
  placed floorTiles (spawns, used) -> tile ∈ floorTiles ->
  key tile ∉ used ->
  placed floorTiles (spawns ++ [tile], {[ key tile ]} ∪ used).
Proof.
  unfold placed. cbn [fst snd]. intros (Hin & Hnd & Hused) Ht Hfresh.
  split; [|split].
  - intros p Hp. apply elem_of_app in Hp as [Hp|Hp]; [auto|].
    apply list_elem_of_singleton in Hp as ->. exact Ht.
  - rewrite map_app. apply NoDup_app. split; [exact Hnd|].
    split; [|apply NoDup_singleton].
    intros k Hk Hk'. cbn in Hk'. apply list_elem_of_singleton in Hk' as ->.
    apply list_elem_of_fmap in Hk as (p & Hkp & Hp).
    apply Hfresh. rewrite Hkp. apply Hused, Hp.
  - intros p Hp. apply elem_of_app in Hp as [Hp|Hp].
    + apply elem_of_union. right. auto.
    + apply list_elem_of_singleton in Hp as ->.
      apply elem_of_union. left. apply elem_of_singleton. reflexivity.
Qed.

Lemma spawnAttempts_spec (left : nat) floorTiles st s st' s' :
  spawnAttempts left floorTiles st s = Returns (st', s') ->
  placed floorTiles st ->
  placed floorTiles st' /\
  (length (fst st') <= S (length (fst st)))%nat.
Proof.
  revert s. induction left as [|left IH]; intros s H Hp.
  - cbn in H. injection H as <- _. split; [exact Hp|]. lia.
  - destruct st as [spawns used]. cbn [spawnAttempts] in H.
    apply bind_Returns in H as (tile & s1 & Ht & H).
    apply randomTile_Returns in Ht.
    destruct (bool_decide (key tile ∈ used)) eqn:Eu; cbn [negb] in H.
    + eapply IH; eauto.
    + apply bool_decide_eq_false in Eu.
      destruct (existsb _ spawns); cbn [negb] in H.
      * eapply IH; eauto.
      * injection H as <- _. split.
        -- apply placed_add; assumption.
        -- cbn [fst snd]. rewrite length_app. cbn. lia.
Qed.

Lemma spawnRelaxed_spec (fuel : nat) floorTiles count st s st' s' :
  spawnRelaxed fuel floorTiles count st s = Returns (st', s') ->
  placed floorTiles st ->
  placed floorTiles st' /\
  (Z.of_nat (length (fst st)) <= Z.max count 0 ->
   Z.of_nat (length (fst st')) <= Z.max count 0) /\
  (count <= Z.of_nat (length (fst st')) \/
   (length floorTiles <= length (fst st'))%nat).
Proof.
  revert st s. induction fuel as [|fuel IH]; intros [spawns used] s H Hp.
  - cbn [spawnRelaxed] in H.
    destruct ((Z.of_nat (length spawns) <? count)
              && (Z.of_nat (length spawns) <? Z.of_nat (length floorTiles)))
      eqn:Ec; [discriminate|].
    injection H as <- _. cbn [fst]. split; [exact Hp|]. split; [auto|].
    apply andb_false_iff in Ec as [Ec|Ec]; apply Z.ltb_ge in Ec; lia.
  - cbn [spawnRelaxed] in H.
    destruct ((Z.of_nat (length spawns) <? count)
              && (Z.of_nat (length spawns) <? Z.of_nat (length floorTiles)))
      eqn:Ec.
    + apply bind_Returns in H as (tile & s1 & Ht & H).
      apply randomTile_Returns in Ht.
      apply andb_true_iff in Ec as [Ec _]. apply Z.ltb_lt in Ec.
      destruct (bool_decide (key tile ∈ used)) eqn:Eu; cbn [negb] in H.
      * eapply IH; eauto.
      * apply bool_decide_eq_false in Eu.
        apply IH in H.
        -- destruct H as (Hp' & Hlen & Hexit). split; [exact Hp'|].
           split; [|exact Hexit]. intros _. apply Hlen.
           cbn [fst]. rewrite length_app. cbn. lia.
        -- apply placed_add; assumption.
    + injection H as <- _. cbn [fst]. split; [exact Hp|]. split; [auto|].
      apply andb_false_iff in Ec as [Ec|Ec]; apply Z.ltb_ge in Ec; lia.
Qed.

Lemma placed_length floorTiles st :
  placed floorTiles st -> (length (fst st) <= length floorTiles)%nat.
Proof.
  intros (Hin & Hnd & _).
  rewrite <- (length_map key (fst st)), <- (length_map key floorTiles).
  apply NoDup_incl_length.
  - apply NoDup_ListNoDup. exact Hnd.
  - intros k Hk. apply list_elem_of_In in Hk. apply list_elem_of_In.
    apply list_elem_of_fmap in Hk as (p & -> & Hp).
    apply list_elem_of_fmap. eauto.
Qed.

Lemma key_inj (p q : Vector2) : key p = key q -> p = q.
Proof. destruct p, q. unfold key. cbn. congruence. Qed.

Lemma NoDup_of_keys (l : list Vector2) : NoDup (map key l) -> NoDup l.
Proof. apply (NoDup_fmap_1 key). Qed.

Lemma generateSpawnPoints_spec fuel floorTiles count s spawns s' :
  generateSpawnPoints fuel floorTiles count s = Returns (spawns, s') ->
  (forall p, p ∈ spawns -> p ∈ floorTiles) /\
  NoDup (map key spawns) /\
  Z.of_nat (length spawns)
  = Z.min (Z.max count 0) (Z.of_nat (length floorTiles)).
Proof.
  unfold generateSpawnPoints. intros H.
  apply bind_Returns in H as (st1 & s1 & H1 & H).
  apply bind_Returns in H as (st2 & s2 & H2 & H).
  injection H as <- _.
  assert (G : placed floorTiles st1 /\
              Z.of_nat (length (fst st1)) <= Z.max count 0).
  { revert H1.
    apply (forM_inv (fun pre (st : SpawnState) =>
             placed floorTiles st /\
             Z.of_nat (length (fst st)) <= Z.max count 0)).
    - split; [|cbn; lia]. split; [|split]; cbn.
      + intros p Hp. inversion Hp.
      + constructor.
      + intros p Hp. inversion Hp.
    - intros pre i post st sa st' sb _ [Hp Hlen] Hb.
      destruct (Z.of_nat (length (fst st)) <? count) eqn:Ec.
      + apply Z.ltb_lt in Ec.
        destruct (spawnAttempts_spec _ _ _ _ _ _ Hb Hp) as (Hp' & Hl).
        split; [exact Hp'|]. lia.
      + injection Hb as <- _. auto. }
  destruct G as [Hp1 Hlen1].
  destruct (spawnRelaxed_spec _ _ _ _ _ _ _ H2 Hp1) as (Hp2 & Hlen2 & Hexit).
  specialize (Hlen2 Hlen1).
  pose proof (placed_length _ _ Hp2) as Hle.
  destruct Hp2 as (Hin & Hnd & _).
  split; [exact Hin|]. split; [exact Hnd|]. lia.
Qed.

(** The key loops: the same, and no key is put on a spawn point. *)
Lemma keyAttempts_spec (taken : gset (Z * Z)) (left : nat)
    floorTiles count st s st' s' :
  keyAttempts left floorTiles count st s = Returns (st', s') ->
  placed floorTiles st -> taken ⊆ snd st ->
  (forall p, p ∈ fst st -> key p ∉ taken) ->
  placed floorTiles st' /\ taken ⊆ snd st' /\
  (forall p, p ∈ fst st' -> key p ∉ taken) /\
  (length (fst st') <= S (length (fst st)))%nat.
Proof.
  revert s. induction left as [|left IH]; intros s H Hp Ht Hoff.
  - cbn in H. injection H as <- _. repeat split; auto; apply Hp.
  - destruct st as [keys used]. cbn [keyAttempts] in H.
    destruct (Z.of_nat (length keys) <? count).
    + apply bind_Returns in H as (tile & s1 & Hr & H).
      apply randomTile_Returns in Hr.
      destruct (bool_decide (key tile ∈ used)) eqn:Eu; cbn [negb] in H.
      * eapply IH; eauto.
      * apply bool_decide_eq_false in Eu. injection H as <- _.
        cbn [fst snd] in *. split; [apply placed_add; assumption|].
        split; [|split].
        -- intros k Hk. apply elem_of_union. right. apply Ht, Hk.
        -- intros p Hin. apply elem_of_app in Hin as [Hin|Hin]; [auto|].
           apply list_elem_of_singleton in Hin as ->.
           intros Hk. apply Eu, Ht, Hk.
        -- rewrite length_app. cbn. lia.
    + injection H as <- _. repeat split; auto; apply Hp.
Qed.

Lemma generateKeySpawns_spec floorTiles spawnPoints count s keys s' :
  generateKeySpawns floorTiles spawnPoints count s = Returns (keys, s') ->
  (forall p, p ∈ keys -> p ∈ floorTiles) /\
  NoDup (map key keys) /\
  (forall p, p ∈ keys -> key p ∉ map key spawnPoints) /\
  Z.of_nat (length keys) <= Z.max count 0.
Proof.
  unfold generateKeySpawns. intros H.
  apply bind_Returns in H as (st1 & s1 & H1 & H).
  injection H as <- _.
  set (taken := (list_to_set (map key spawnPoints) : gset (Z * Z))) in *.
  assert (G : placed floorTiles (fst st1, snd st1 ∖ taken) /\
              taken ⊆ snd st1 /\
              (forall p, p ∈ fst st1 -> key p ∉ taken) /\
              Z.of_nat (length (fst st1)) <= Z.max count 0).
  { revert H1.
    apply (forM_inv (fun pre (st : SpawnState) =>
             placed floorTiles (fst st, snd st ∖ taken) /\
             taken ⊆ snd st /\
             (forall p, p ∈ fst st -> key p ∉ taken) /\
             Z.of_nat (length (fst st)) <= Z.max count 0)).
    - cbn [fst snd]. split; [|split; [done|split; [|cbn; lia]]].
      + split; [|split]; cbn; [|constructor|]; intros p Hp; inversion Hp.
      + intros p Hp. inversion Hp.
    - intros pre i post st sa st' sb _ (Hp & Ht & Hoff & Hlen) Hb.
      destruct (Z.of_nat (length (fst st)) <? count) eqn:Ec.
      + apply Z.ltb_lt in Ec.
        assert (Hp0 : placed floorTiles st).
        { destruct st as [k u]. destruct Hp as (Hp1 & Hp2 & Hp3).
          cbn [fst snd] in *. split; [exact Hp1|]. split; [exact Hp2|].
          intros p Hin. specialize (Hp3 p Hin).
          apply elem_of_difference in Hp3 as [Hp3 _]. exact Hp3. }
        destruct (keyAttempts_spec taken _ _ _ _ _ _ _ Hb Hp0 Ht Hoff)
          as (Hp' & Ht' & Hoff' & Hl).
        split; [|split; [exact Ht'|split; [exact Hoff'|lia]]].
        destruct st' as [k' u']. destruct Hp' as (Hq1 & Hq2 & Hq3).
        cbn [fst snd] in *. split; [exact Hq1|]. split; [exact Hq2|].
        intros p Hin. apply elem_of_difference. split; [auto|].
        apply Hoff', Hin.
      + injection Hb as <- _. auto. }
  destruct G as ((Hin & Hnd & _) & _ & Hoff & Hlen). cbn [fst] in *.
  split; [exact Hin|]. split; [exact Hnd|]. split; [|exact Hlen].
  intros p Hp Hk. apply (Hoff p Hp). unfold taken.
  apply elem_of_list_to_set. exact Hk.
Qed.

(** ** The exit *)

Lemma spawnDistance_unique spawnPoints tile d d' :
  spawnDistance spawnPoints tile d -> spawnDistance spawnPoints tile d' ->
  d = d'.
Proof.
  intros [(s & Hs & Es) Hmin] [(s' & Hs' & Es') Hmin'].
  specialize (Hmin s' Hs'). specialize (Hmin' s Hs). lia.
Qed.

Lemma minDistance_from (spawnPoints : list Vector2) (tile : Vector2) (m0 : Z) :
  exists d,
    fold_left (fun m spawn =>
                 let d := manhattan spawn tile in
                 match m with
                 | None => Some d
                 | Some m' => Some (Z.min m' d)
                 end) spawnPoints (Some m0) = Some d /\
    d <= m0 /\
    (forall s, s ∈ spawnPoints -> d <= manhattan s tile) /\
    (d = m0 \/ exists s, s ∈ spawnPoints /\ manhattan s tile = d).
Proof.
  revert m0. induction spawnPoints as [|s l IH]; intros m0.
  - exists m0. cbn. split; [reflexivity|]. split; [lia|].
    split; [intros s Hs; inversion Hs|auto].
  - cbn [fold_left]. destruct (IH (Z.min m0 (manhattan s tile)))
      as (d & E & Hle & Hall & Hex).
    exists d. split; [exact E|]. split; [lia|]. split.
    + intros s' Hs'. apply elem_of_cons in Hs' as [->|Hs']; [lia|auto].
    + destruct Hex as [->|(s' & Hs' & Es')].
      * destruct (Z.min_spec m0 (manhattan s tile)) as [[_ ->]|[_ ->]];
          [auto|]. right. exists s. split; [left|reflexivity].
      * right. exists s'. split; [right; exact Hs'|exact Es'].
Qed.

Lemma minDistance_spec (spawnPoints : list Vector2) (tile : Vector2) :
  spawnPoints <> [] ->
  exists d, minDistance spawnPoints tile = Some d /\
            spawnDistance spawnPoints tile d.
Proof.
  destruct spawnPoints as [|s l]; [congruence|]. intros _.
  unfold minDistance. cbn [fold_left].
  destruct (minDistance_from l tile (manhattan s tile))
    as (d & E & Hle & Hall & Hex).
  exists d. split; [exact E|]. split.
  - destruct Hex as [->|(s' & Hs' & Es')].
    + exists s. split; [left|reflexivity].
    + exists s'. split; [right; exact Hs'|exact Es'].
  - intros s' Hs'. apply elem_of_cons in Hs' as [->|Hs']; [lia|auto].
Qed.

Lemma generateExitPosition_nil spawnPoints :
  generateExitPosition [] spawnPoints = None.
Proof. reflexivity. Qed.

Lemma generateExitPosition_spec (floorTiles spawnPoints : list Vector2) :
  floorTiles <> [] -> spawnPoints <> [] ->
  exists e d,
    generateExitPosition floorTiles spawnPoints = Some e /\
    e ∈ floorTiles /\
    spawnDistance spawnPoints e d /\
    forall t d', t ∈ floorTiles -> spawnDistance spawnPoints t d' -> d' <= d.
Proof.
  intros Hfl Hsp. unfold generateExitPosition.
  destruct floorTiles as [|t0 rest] eqn:Efl; [congruence|].
  rewrite <- Efl. clear Hfl.
  assert (Hhead : floorTiles !! 0%nat = Some t0) by (subst; reflexivity).
  rewrite Hhead.
  set (step := fun (st : option Vector2 * option Z) (tile : Vector2) =>
                 let '(bestExit, maxMinDistance) := st in
                 let d := minDistance spawnPoints tile in
                 if gtInf d maxMinDistance then (Some tile, d) else st).
  assert (G : forall l best M,
             (forall t, t ∈ l -> t ∈ floorTiles) ->
             0 <= M ->
             (best = t0 /\ M = 0 \/
              best ∈ floorTiles /\ spawnDistance spawnPoints best M) ->
             exists e D,
               fold_left step l (Some best, Some M) = (Some e, Some D) /\
               M <= D /\
               (e = t0 /\ D = 0 \/
                e ∈ floorTiles /\ spawnDistance spawnPoints e D) /\
               forall t d', t ∈ l -> spawnDistance spawnPoints t d' ->
                            d' <= D).
  { induction l as [|t l IH]; intros best M Hin HM Hbest.
    - exists best, M. cbn. split; [reflexivity|]. split; [lia|].
      split; [exact Hbest|]. intros t d' Ht. inversion Ht.
    - cbn [fold_left]. unfold step at 2.
      destruct (minDistance_spec spawnPoints t Hsp) as (dt & Edt & Hdt).
      rewrite Edt. cbn [gtInf].
      destruct (M <? dt) eqn:Ec.
      + apply Z.ltb_lt in Ec.
        destruct (IH t dt) as (e & D & E & HD & He & Hall).
        * intros t' Ht'. apply Hin. right. exact Ht'.
        * lia.
        * right. split; [apply Hin; left|exact Hdt].
        * exists e, D. split; [exact E|]. split; [lia|]. split; [exact He|].
          intros t' d' Ht' Hd'. apply elem_of_cons in Ht' as [->|Ht'].
          -- rewrite (spawnDistance_unique _ _ _ _ Hd' Hdt). exact HD.
          -- eauto.
      + apply Z.ltb_ge in Ec.
        destruct (IH best M) as (e & D & E & HD & He & Hall).
        * intros t' Ht'. apply Hin. right. exact Ht'.
        * exact HM.
        * exact Hbest.
        * exists e, D. split; [exact E|]. split; [exact HD|].
          split; [exact He|].
          intros t' d' Ht' Hd'. apply elem_of_cons in Ht' as [->|Ht'].
          -- rewrite (spawnDistance_unique _ _ _ _ Hd' Hdt). lia.
          -- eauto. }
  destruct (G floorTiles t0 0) as (e & D & E & HD & He & Hall);
    [auto|lia|auto|].
  rewrite E. cbn [fst].
  destruct He as [[-> ->]|[He1 He2]].
  - destruct (minDistance_spec spawnPoints t0 Hsp) as (d0 & _ & Hd0).
    exists t0, d0. split; [reflexivity|].
    split; [rewrite Efl; left|]. split; [exact Hd0|].
    intros t d' Ht Hd'. specialize (Hall t d' Ht Hd').
    destruct Hd0 as [(s & _ & <-) _]. unfold manhattan. lia.
  - exists e, D. auto.
Qed.

(** ** The placement of a returned maze *)

(** The stages of a call that returned, with the placement lists. *)
Lemma generateMaze_placement Math_sin fuel this options now m g :
  generateMaze Math_sin fuel this options now = Returns (m, g) ->
  exists walled floorTiles doors s1 s2 s3 s4,
    layoutBeforeBaking Math_sin fuel this options = Returns walled /\
    findFloorTiles walled = Returns floorTiles /\
    generateSpawnPoints fuel floorTiles 4 s1
    = Returns (maze_spawnPoints m, s2) /\
    generateKeySpawns floorTiles (maze_spawnPoints m) 6 s2
    = Returns (maze_keySpawns m, s3) /\
    generateDoorPositions walled 3 s3 = Returns (doors, s4) /\
    generateExitPosition floorTiles (maze_spawnPoints m)
    = Some (maze_exitPosition m) /\
    placeSpecialTiles walled doors = Returns (maze_layout m) /\
    maze_doorPositions m = definedDoors doors.
Proof.
  unfold generateMaze, layoutBeforeBaking, assemble, bind, liftO, bindO.
  destruct (carve Math_sin fuel (gen_seed this) options (gen_state this))
    as [[layout s0]| |]; try discriminate.
  cbn [fst].
  destruct (ensureBoundaryWalls layout) as [walled| |]; try discriminate.
  destruct (findFloorTiles walled) as [fl| |] eqn:Efl; try discriminate.
  destruct (generateSpawnPoints fuel fl 4 s0) as [[sp s1]| |] eqn:Es;
    try discriminate.
  destruct (generateKeySpawns fl sp 6 s1) as [[ks s2]| |] eqn:Ek;
    try discriminate.
  destruct (generateDoorPositions walled 3 s2) as [[ds s3]| |] eqn:Ed;
    try discriminate.
  destruct (generateExitPosition fl sp) as [ex|] eqn:Ex; try discriminate.
  destruct (placeSpecialTiles walled ds) as [final| |] eqn:Ep;
    try discriminate.
  intros [= <- <-]. exists walled, fl, ds, s0, s1, s2, s3. cbn.
  repeat split; first [reflexivity | assumption].
Qed.

Lemma placeSpecialTiles_doors layout doors final :
  placeSpecialTiles layout doors = Returns final ->
  forall d, Some d ∈ doors -> cell final (vx d) (vy d) = Some DOOR.
Proof.
  unfold placeSpecialTiles.
  apply (forO_inv (fun pre cur =>
           forall d, Some d ∈ pre -> cell cur (vx d) (vy d) = Some DOOR)).
  - intros d Hd. inversion Hd.
  - intros pre [d'|] post cur cur' _ IH Hb d Hd; [|discriminate].
    rewrite (cell_writeTile _ _ _ _ _ Hb).
    destruct (decide (vx d = vx d' /\ vy d = vy d')); [reflexivity|].
    apply elem_of_app in Hd as [Hd|Hd]; [auto|].
    apply list_elem_of_singleton in Hd as [= ->]. tauto.
Qed.

Lemma inArray_writeTile layout y x t layout' p :
  writeTile layout y x t = Returns layout' ->
  (exists row, arr_get layout y = Some row /\ 0 <= x < len row) ->
  inArray layout' p <-> inArray layout p.
Proof.
  unfold writeTile, inArray. intros H (row & Erow & Hx).
  rewrite Erow in H. injection H as <-. cbn [len].
  unfold arr_get in *. cbn [props].
  destruct (decide (vy p = y)) as [Hy|Hy].
  - rewrite Hy, lookup_insert_eq, Erow.
    assert (Hl : len (arr_set row x t) = len row).
    { unfold arr_set. cbn [len].
      replace (0 <=? x) with true by (symmetry; apply Z.leb_le; lia). lia. }
    split; intros (Hr & row' & [= <-] & Hc); (split; [exact Hr|]);
      eexists; (split; [reflexivity|]); lia.
  - rewrite lookup_insert_ne by auto. reflexivity.
Qed.

Lemma placeSpecialTiles_inArray layout doors final :
  placeSpecialTiles layout doors = Returns final ->
  (forall d, Some d ∈ doors -> insideBorder layout d) ->
  forall p, inArray final p <-> inArray layout p.
Proof.
  unfold placeSpecialTiles. intros H Hd.
  assert (G : (forall p, inArray final p <-> inArray layout p) /\
              (forall d, insideBorder layout d -> insideBorder final d)).
  { revert H.
    apply (forO_inv (fun pre cur =>
             (forall p, inArray cur p <-> inArray layout p) /\
             (forall d, insideBorder layout d -> insideBorder cur d))).
    - split; [reflexivity|auto].
    - intros pre [d|] post cur cur' Hl [IH1 IH2] Hb; [|discriminate].
      assert (Hin : insideBorder cur d).
      { apply IH2, Hd. rewrite Hl. apply elem_of_app. right. left. }
      destruct Hin as (Hy & row & Erow & Hx).
      split.
      + intros p. rewrite <- IH1.
        eapply inArray_writeTile; [exact Hb|]. exists row. split; [auto|lia].
      + intros d' Hd'. specialize (IH2 d' Hd').
        destruct IH2 as (Hy' & row' & Erow' & Hx').
        unfold writeTile in Hb. rewrite Erow in Hb. injection Hb as <-.
        unfold insideBorder, arr_get in *. cbn [len props].
        split; [exact Hy'|].
        destruct (decide (vy d' = vy d)) as [E|E].
        * rewrite E, lookup_insert_eq. eexists. split; [reflexivity|].
          rewrite E, Erow in Erow'. injection Erow' as <-.
          unfold arr_set. cbn [len].
          replace (0 <=? vx d) with true by (symmetry; apply Z.leb_le; lia).
          lia.
        * rewrite lookup_insert_ne by auto. eauto. }
  apply G.
Qed.

Lemma generateExitPosition_In floorTiles spawnPoints e :
  generateExitPosition floorTiles spawnPoints = Some e -> e ∈ floorTiles.
Proof.
  unfold generateExitPosition.
  assert (G : forall l best M,
             (forall t, t ∈ l -> t ∈ floorTiles) ->
             (forall b, best = Some b -> b ∈ floorTiles) ->
             forall b, fst (fold_left (fun st tile =>
                    let '(bestExit, maxMinDistance) := st in
                    let d := minDistance spawnPoints tile in
                    if gtInf d maxMinDistance then (Some tile, d) else st)
                  l (best, M)) = Some b -> b ∈ floorTiles).
  { induction l as [|t l IH]; intros best M Hl Hb b.
    - cbn. apply Hb.
    - cbn [fold_left].
      destruct (gtInf (minDistance spawnPoints t) M).
      + apply IH.
        * intros t' Ht'. apply Hl. right. exact Ht'.
        * intros b' [= <-]. apply Hl. left.
      + apply IH; [|exact Hb]. intros t' Ht'. apply Hl. right. exact Ht'. }
  apply G; [auto|]. intros b Hb. eapply list_elem_of_lookup_2. exact Hb.
Qed.

(** What a returned maze says of its floor tiles. *)
Lemma generateMaze_floor Math_sin fuel this options now m g :
  generateMaze Math_sin fuel this options now = Returns (m, g) ->
  exists floorTiles,
    floorTilesAfterBoundary Math_sin fuel this options = Returns floorTiles /\
    NoDup floorTiles /\
    (forall p, p ∈ floorTiles <->
               floorAt (maze_layout m) p /\ inArray (maze_layout m) p) /\
    (forall p, p ∈ maze_spawnPoints m -> p ∈ floorTiles) /\
    NoDup (map key (maze_spawnPoints m)) /\
    Z.of_nat (length (maze_spawnPoints m))
    = Z.min 4 (Z.of_nat (length floorTiles)) /\
    (forall p, p ∈ maze_keySpawns m -> p ∈ floorTiles) /\
    NoDup (map key (maze_keySpawns m)) /\
    (forall p, p ∈ maze_keySpawns m ->
               key p ∉ map key (maze_spawnPoints m)) /\
    (length (maze_keySpawns m) <= 6)%nat /\
    generateExitPosition floorTiles (maze_spawnPoints m)
    = Some (maze_exitPosition m).
Proof.
  intros H.
  destruct (generateMaze_placement _ _ _ _ _ _ _ H)
    as (walled & fl & doors & s1 & s2 & s3 & s4 &
        Hw & Hfl & Hsp & Hks & Hds & Hex & Hpl & Hdoors).
  exists fl.
  destruct (findFloorTiles_sound _ _ Hfl) as [Hnd Hfloor].
  destruct (generateDoorPositions_spec _ _ _ _ Hds) as (_ & Hwall & _).
  destruct (generateSpawnPoints_spec _ _ _ _ _ _ Hsp) as (S1 & S2 & S3).
  destruct (generateKeySpawns_spec _ _ _ _ _ _ Hks) as (K1 & K2 & K3 & K4).
  split.
  { unfold floorTilesAfterBoundary. unfold layoutBeforeBaking in Hw.
    destruct (carve _ _ _ _ _) as [r| |]; try discriminate.
    cbn [bindO] in *. rewrite Hw. exact Hfl. }
  split; [exact Hnd|]. split.
  { intros p. rewrite Hfloor.
    rewrite (placeSpecialTiles_floor _ _ _ Hpl).
    - rewrite (placeSpecialTiles_inArray _ _ _ Hpl); [reflexivity|].
      intros d Hd. apply Hwall, Hd.
    - intros d Hd Hf. destruct (Hwall d Hd) as [Hc _].
      unfold floorAt in Hf. congruence. }
  split; [exact S1|]. split; [exact S2|]. split; [exact S3|].
  split; [exact K1|]. split; [exact K2|]. split; [exact K3|].
  split; [lia|exact Hex].
Qed.

(** ** What a returned maze holds *)

(** X4: the spawn points of a returned maze are pairwise distinct floor cells
    of its layout, and there are as many as the smaller of 4 and the number
    of floor tiles found after boundary enforcement. *)
Theorem spawn_points_are_distinct_floor_cells
    (Math_sin : Q -> Q) (fuel : nat) (this : MazeGenerator)
    (options : MazeGenerationOptions) (now : Z)
    (m : MazeData) (g : MazeGenerator) :
  generateMaze Math_sin fuel this options now = Returns (m, g) ->
  exists floorTiles,
    floorTilesAfterBoundary Math_sin fuel this options = Returns floorTiles /\
    NoDup (maze_spawnPoints m) /\
    Forall (floorAt (maze_layout m)) (maze_spawnPoints m) /\
    Z.of_nat (length (maze_spawnPoints m))
    = Z.min 4 (Z.of_nat (length floorTiles)).
Proof.
  intros H.
  destruct (generateMaze_floor _ _ _ _ _ _ _ H)
    as (fl & Hfl & _ & Hfloor & S1 & S2 & S3 & _).
  exists fl. split; [exact Hfl|].
  split; [apply NoDup_of_keys, S2|]. split; [|exact S3].
  apply Forall_forall. intros p Hp. apply Hfloor, S1, Hp.
Qed.

Lemma spawn_points_are_distinct_floor_cells_witness :
  exists m g,
    generateMaze flatSin 1000 (newMazeGenerator (Some 1) 0)
                 (plainOptions 7 7 BINARY_TREE) 0 = Returns (m, g) /\
    exists floorTiles,
      floorTilesAfterBoundary flatSin 1000 (newMazeGenerator (Some 1) 0)
                              (plainOptions 7 7 BINARY_TREE)
      = Returns floorTiles /\
      NoDup (maze_spawnPoints m) /\
      Forall (floorAt (maze_layout m)) (maze_spawnPoints m) /\
      Z.of_nat (length (maze_spawnPoints m))
      = Z.min 4 (Z.of_nat (length floorTiles)).
Proof.
  eexists. eexists. split; [vm_compute; reflexivity|].
  eapply (spawn_points_are_distinct_floor_cells flatSin 1000
            (newMazeGenerator (Some 1) 0) (plainOptions 7 7 BINARY_TREE) 0).
  vm_compute. reflexivity.
Defined.

(** X5: the key spawns of a returned maze are at most 6 pairwise distinct floor
    cells of its layout, none of them a spawn point. *)
Theorem key_spawns_are_free_floor_cells
    (Math_sin : Q -> Q) (fuel : nat) (this : MazeGenerator)
    (options : MazeGenerationOptions) (now : Z)
    (m : MazeData) (g : MazeGenerator) :
  generateMaze Math_sin fuel this options now = Returns (m, g) ->
  (length (maze_keySpawns m) <= 6)%nat /\
  NoDup (maze_keySpawns m) /\
  Forall (fun k => floorAt (maze_layout m) k /\ k ∉ maze_spawnPoints m)
         (maze_keySpawns m).
Proof.
  intros H.
  destruct (generateMaze_floor _ _ _ _ _ _ _ H)
    as (fl & _ & _ & Hfloor & _ & _ & _ & K1 & K2 & K3 & K4 & _).
  split; [exact K4|]. split; [apply NoDup_of_keys, K2|].
  apply Forall_forall. intros k Hk. split; [apply Hfloor, K1, Hk|].
  intros Hin. apply (K3 k Hk). apply list_elem_of_fmap. eauto.
Qed.

Lemma key_spawns_are_free_floor_cells_witness :
  exists m g,
    generateMaze flatSin 1000 (newMazeGenerator (Some 1) 0)
                 (plainOptions 7 7 BINARY_TREE) 0 = Returns (m, g) /\
    (length (maze_keySpawns m) <= 6)%nat /\
    NoDup (maze_keySpawns m) /\
    Forall (fun k => floorAt (maze_layout m) k /\ k ∉ maze_spawnPoints m)
           (maze_keySpawns m).
Proof.
  eexists. eexists. split; [vm_compute; reflexivity|].
  eapply (key_spawns_are_free_floor_cells flatSin 1000
            (newMazeGenerator (Some 1) 0) (plainOptions 7 7 BINARY_TREE) 0).
  vm_compute. reflexivity.
Defined.

(** X6: the exit of a returned maze is a floor cell of its layout, and no floor
    cell inside the arrays of the layout is farther from its nearest spawn
    point than the exit is from its own. *)
Theorem exit_is_the_farthest_floor_cell
    (Math_sin : Q -> Q) (fuel : nat) (this : MazeGenerator)
    (options : MazeGenerationOptions) (now : Z)
    (m : MazeData) (g : MazeGenerator) :
  generateMaze Math_sin fuel this options now = Returns (m, g) ->
  floorAt (maze_layout m) (maze_exitPosition m) /\
  exists d,
    spawnDistance (maze_spawnPoints m) (maze_exitPosition m) d /\
    forall t d',
      floorAt (maze_layout m) t -> inArray (maze_layout m) t ->
      spawnDistance (maze_spawnPoints m) t d' -> d' <= d.
Proof.
  intros H.
  destruct (generateMaze_floor _ _ _ _ _ _ _ H)
    as (fl & _ & _ & Hfloor & _ & _ & S3 & _ & _ & _ & _ & Hex).
  pose proof (generateExitPosition_In _ _ _ Hex) as Hin.
  split; [apply Hfloor, Hin|].
  assert (Hfl : fl <> []) by (intros ->; inversion Hin).
  assert (Hsp : maze_spawnPoints m <> []).
  { intros E. rewrite E in S3. destruct fl; [congruence|]. cbn in S3. lia. }
  destruct (generateExitPosition_spec fl (maze_spawnPoints m) Hfl Hsp)
    as (e & d & He & _ & Hd & Hmax).
  rewrite Hex in He. injection He as <-.
  exists d. split; [exact Hd|].
  intros t d' Ht Ha. apply Hmax, Hfloor. auto.
Qed.

Lemma exit_is_the_farthest_floor_cell_witness :
  exists m g,
    generateMaze flatSin 1000 (newMazeGenerator (Some 1) 0)
                 (plainOptions 7 7 BINARY_TREE) 0 = Returns (m, g) /\
    floorAt (maze_layout m) (maze_exitPosition m) /\
    exists d,
      spawnDistance (maze_spawnPoints m) (maze_exitPosition m) d /\
      forall t d',
        floorAt (maze_layout m) t -> inArray (maze_layout m) t ->
        spawnDistance (maze_spawnPoints m) t d' -> d' <= d.
Proof.
  eexists. eexists. split; [vm_compute; reflexivity|].
  eapply (exit_is_the_farthest_floor_cell flatSin 1000
            (newMazeGenerator (Some 1) 0) (plainOptions 7 7 BINARY_TREE) 0).
  vm_compute. reflexivity.
Defined.

(** X7: door baking: in a returned maze every door position holds a [DOOR]
    tile, and every other cell is as it was after boundary enforcement. *)
Theorem doors_are_baked_into_the_layout
    (Math_sin : Q -> Q) (fuel : nat) (this : MazeGenerator)
    (options : MazeGenerationOptions) (now : Z)
    (m : MazeData) (g : MazeGenerator) :
  generateMaze Math_sin fuel this options now = Returns (m, g) ->
  exists walled,
    layoutBeforeBaking Math_sin fuel this options = Returns walled /\
    forall x y,
      cell (maze_layout m) x y
      = if bool_decide (mkV x y ∈ maze_doorPositions m)
        then Some DOOR else cell walled x y.
Proof.
  intros H.
  destruct (generateMaze_placement _ _ _ _ _ _ _ H)
    as (walled & fl & doors & s1 & s2 & s3 & s4 &
        Hw & _ & _ & _ & _ & _ & Hpl & Hdoors).
  exists walled. split; [exact Hw|]. intros x y. rewrite Hdoors.
  destruct (bool_decide (mkV x y ∈ definedDoors doors)) eqn:E.
  - apply bool_decide_eq_true in E. apply elem_of_definedDoors in E.
    apply (placeSpecialTiles_doors _ _ _ Hpl (mkV x y) E).
  - apply bool_decide_eq_false in E.
    apply (placeSpecialTiles_cells _ _ _ _ _ Hpl).
    intros d Hd [Hx Hy]. apply E, elem_of_definedDoors.
    destruct d as [dx dy]. cbn in Hx, Hy. subst. exact Hd.
Qed.

Lemma doors_are_baked_into_the_layout_witness :
  exists m g,
    generateMaze flatSin 1000 (newMazeGenerator (Some 1) 0)
                 (plainOptions 7 7 BINARY_TREE) 0 = Returns (m, g) /\
    exists walled,
      layoutBeforeBaking flatSin 1000 (newMazeGenerator (Some 1) 0)
                         (plainOptions 7 7 BINARY_TREE) = Returns walled /\
      forall x y,
        cell (maze_layout m) x y
        = if bool_decide (mkV x y ∈ maze_doorPositions m)
          then Some DOOR else cell walled x y.
Proof.
  eexists. eexists. split; [vm_compute; reflexivity|].
  eapply (doors_are_baked_into_the_layout flatSin 1000
            (newMazeGenerator (Some 1) 0) (plainOptions 7 7 BINARY_TREE) 0).
  vm_compute. reflexivity.
Defined.

(** ** A grid without rows *)

Lemma zrange_nil (lo hi : Z) : hi <= lo -> zrange lo hi = [].
Proof.
  intros H. unfold zrange. replace (Z.to_nat (hi - lo)) with 0%nat by lia.
  reflexivity.
Qed.

Lemma zrange_step_nil (lo hi : Z) : hi <= lo -> zrange_step lo hi 2 = [].
Proof.
  intros H. unfold zrange_step.
  assert ((hi - lo + 2 - 1) / 2 <= 0).
  { apply Z.lt_succ_r. apply Z.div_lt_upper_bound; lia. }
  replace (Z.to_nat ((hi - lo + 2 - 1) / 2)) with 0%nat by lia.
  reflexivity.
Qed.

Lemma newGrid_no_rows (width height : Z) (cellf : Z -> Z -> M TileType)
    (s : Z) :
  height <= 0 -> newGrid width height cellf s = Returns (arr_empty, s).
Proof. intros H. unfold newGrid. rewrite zrange_nil by lia. reflexivity. Qed.

Lemma applyCellularAutomataRules_no_rows layout width height :
  height <= 0 ->
  applyCellularAutomataRules layout width height = Returns arr_empty.
Proof.
  intros H. unfold applyCellularAutomataRules, newGridO.
  rewrite zrange_nil by lia. reflexivity.
Qed.

(** X8: a request for a grid without rows: every strategy ends in an error of
    the runtime, whatever the seed and the other options.  Recursive
    backtracking asks for [Array(height)] first, which is a RangeError when
    [height] is negative; everything else reads [layout[0].length] or
    [layout[1][1]] of the empty layout. *)
Theorem no_rows_throws
    (Math_sin : Q -> Q) (fuel : nat) (this : MazeGenerator)
    (options : MazeGenerationOptions) (now : Z) :
  opt_height options <= 0 ->
  generateMaze Math_sin fuel this options now
  = Throws (match opt_algorithm options with
            | RECURSIVE_BACKTRACKING =>
              if opt_height options <? 0 then RangeError else TypeError
            | _ => TypeError
            end).
Proof.
  intros H. unfold generateMaze, carve.
  destruct (opt_algorithm options).
  - unfold generateRecursiveBacktracking, bind.
    rewrite newGrid_no_rows by exact H.
    unfold liftO, newVisited.
    destruct (opt_height options <? 0) eqn:E; [reflexivity|].
    apply Z.ltb_ge in E.
    replace (0 <? opt_height options) with false
      by (symmetry; apply Z.ltb_ge; lia).
    reflexivity.
  - unfold generateCellularAutomata, bind.
    rewrite newGrid_no_rows by exact H.
    unfold liftO.
    rewrite (forO_pure _ _ (fun _ _ => arr_empty))
      by (intros; apply applyCellularAutomataRules_no_rows; exact H).
    cbn [bindO].
    replace (fold_left _ _ _) with (@arr_empty (Arr TileType)).
    + reflexivity.
    + generalize (zrange 0 (withDefault (opt_iterations options) 5)).
      intros l. induction l as [|a l IH]; [reflexivity|exact IH].
  - unfold generateBinaryTree, bind.
    rewrite newGrid_no_rows by exact H.
    rewrite zrange_step_nil by lia. reflexivity.
  - unfold generatePerlinCaves, bind.
    rewrite newGrid_no_rows by exact H. reflexivity.
Qed.

Lemma no_rows_throws_witness :
  opt_height (plainOptions 5 0 CELLULAR_AUTOMATA) <= 0 /\
  generateMaze flatSin 10 (newMazeGenerator (Some 3) 0)
               (plainOptions 5 0 CELLULAR_AUTOMATA) 0
  = Throws TypeError.
Proof.
  split; [vm_compute; discriminate|].
  apply (no_rows_throws flatSin 10 (newMazeGenerator (Some 3) 0)
           (plainOptions 5 0 CELLULAR_AUTOMATA) 0).
  vm_compute. discriminate.
Defined.

(** ** Carving a connection *)

Lemma carveHorizontal_spec (fuel : nat) layout width height x y endX :
  isGrid layout width height ->
  0 <= y < height -> 0 <= x < width -> 0 <= endX < width ->
  Z.abs (endX - x) <= Z.of_nat fuel ->
  exists layout',
    carveHorizontal fuel layout x y endX = Returns (layout', endX) /\
    isGrid layout' width height /\
    forall p, floorAt layout' p <->
              floorAt layout p \/
              (vy p = y /\ (x <= vx p < endX \/ endX < vx p <= x)).
Proof.
  revert layout x. induction fuel as [|fuel IH]; intros layout x Hg Hy Hx He Hf.
  - assert (x = endX) by lia. subst x. exists layout. cbn.
    rewrite Z.eqb_refl. split; [reflexivity|]. split; [exact Hg|].
    intros p. split; [auto|]. intros [?|[_ ?]]; [assumption|lia].
  - cbn [carveHorizontal]. destruct (Z.eqb_spec x endX) as [->|Hne].
    + exists layout. split; [reflexivity|]. split; [exact Hg|].
      intros p. split; [auto|]. intros [?|[_ ?]]; [assumption|lia].
    + destruct (writeTile_grid layout width height y x FLOOR Hg Hx Hy)
        as (l1 & E1 & Hg1).
      rewrite E1. cbn [bindO].
      set (x' := x + (if x <? endX then 1 else -1)).
      assert (Hx' : 0 <= x' < width /\ Z.abs (endX - x') <= Z.of_nat fuel /\
                    ((x < endX /\ x' = x + 1) \/ (endX < x /\ x' = x - 1))).
      { unfold x'. destruct (Z.ltb_spec x endX); lia. }
      destruct Hx' as (Hx1 & Hf1 & Hdir).
      destruct (IH l1 x' Hg1 Hy Hx1 He Hf1) as (l2 & E2 & Hg2 & Hfl).
      exists l2. split; [exact E2|]. split; [exact Hg2|].
      intros p. rewrite Hfl, (floorAt_writeTile _ _ _ _ _ E1).
      destruct p as [px py]. cbn [vx vy]. split.
      * intros [[[= -> ->]|?]|[-> ?]]; [right; lia|auto|right; lia].
      * intros [?|[-> Hr]]; [auto|].
        destruct (Z.eq_dec px x) as [->|Hpx]; [auto|]. right. lia.
Qed.

Lemma carveVertical_spec (fuel : nat) layout width height x y endY :
  isGrid layout width height ->
  0 <= x < width -> 0 <= y < height -> 0 <= endY < height ->
  Z.abs (endY - y) <= Z.of_nat fuel ->
  exists layout',
    carveVertical fuel layout x y endY = Returns (layout', endY) /\
    isGrid layout' width height /\
    forall p, floorAt layout' p <->
              floorAt layout p \/
              (vx p = x /\ (y <= vy p < endY \/ endY < vy p <= y)).
Proof.
  revert layout y. induction fuel as [|fuel IH]; intros layout y Hg Hx Hy He Hf.
  - assert (y = endY) by lia. subst y. exists layout. cbn.
    rewrite Z.eqb_refl. split; [reflexivity|]. split; [exact Hg|].
    intros p. split; [auto|]. intros [?|[_ ?]]; [assumption|lia].
  - cbn [carveVertical]. destruct (Z.eqb_spec y endY) as [->|Hne].
    + exists layout. split; [reflexivity|]. split; [exact Hg|].
      intros p. split; [auto|]. intros [?|[_ ?]]; [assumption|lia].
    + destruct (writeTile_grid layout width height y x FLOOR Hg Hx Hy)
        as (l1 & E1 & Hg1).
      rewrite E1. cbn [bindO].
      set (y' := y + (if y <? endY then 1 else -1)).
      assert (Hy' : 0 <= y' < height /\ Z.abs (endY - y') <= Z.of_nat fuel /\
                    ((y < endY /\ y' = y + 1) \/ (endY < y /\ y' = y - 1))).
      { unfold y'. destruct (Z.ltb_spec y endY); lia. }
      destruct Hy' as (Hy1 & Hf1 & Hdir).
      destruct (IH l1 y' Hg1 Hx Hy1 He Hf1) as (l2 & E2 & Hg2 & Hfl).
      exists l2. split; [exact E2|]. split; [exact Hg2|].
      intros p. rewrite Hfl, (floorAt_writeTile _ _ _ _ _ E1).
      destruct p as [px py]. cbn [vx vy]. split.
      * intros [[[= -> ->]|?]|[-> ?]]; [right; lia|auto|right; lia].
      * intros [?|[-> Hr]]; [auto|].
        destruct (Z.eq_dec py y) as [->|Hpy]; [auto|]. right. lia.
Qed.

Lemma carveConnection_spec (fuel : nat) layout width height start finish :
  isGrid layout width height ->
  inGrid width height start -> inGrid width height finish ->
  manhattan start finish <= Z.of_nat fuel ->
  exists layout',
    carveConnection fuel layout start finish = Returns layout' /\
    isGrid layout' width height /\
    forall p, floorAt layout' p <-> floorAt layout p \/ onPath start finish p.
Proof.
  intros Hg [Hsx Hsy] [Hfx Hfy] Hfuel. unfold manhattan in Hfuel.
  unfold carveConnection.
  destruct (carveHorizontal_spec fuel layout width height
              (vx start) (vy start) (vx finish) Hg Hsy Hsx Hfx ltac:(lia))
    as (l1 & E1 & Hg1 & F1).
  rewrite E1. cbn [bindO fst snd].
  destruct (carveVertical_spec fuel l1 width height
              (vx finish) (vy start) (vy finish) Hg1 Hfx Hsy Hfy ltac:(lia))
    as (l2 & E2 & Hg2 & F2).
  rewrite E2. cbn [bindO fst snd].
  destruct (writeTile_grid l2 width height (vy finish) (vx finish) FLOOR
              Hg2 Hfx Hfy) as (l3 & E3 & Hg3).
  exists l3. split; [exact E3|]. split; [exact Hg3|].
  intros p. rewrite (floorAt_writeTile _ _ _ _ _ E3), F2, F1.
  unfold onPath, between. destruct p as [px py]. cbn [vx vy]. split.
  - intros [[= -> ->]|[[?|[-> ?]]|[-> ?]]]; [right; right; lia|auto| |].
    + right. left. lia.
    + right. right. lia.
  - intros [?|[[-> Hb]|[-> Hb]]]; [auto| |].
    + destruct (Z.eq_dec px (vx finish)) as [->|Hne].
      * destruct (Z.eq_dec (vy start) (vy finish)) as [E|Hne']; [left|].
        -- rewrite E. destruct finish; reflexivity.
        -- right. right. lia.
      * right. left. right. lia.
    + destruct (Z.eq_dec py (vy finish)) as [->|Hne].
      * left. destruct finish; reflexivity.
      * right. right. lia.
Qed.

(** A straight run of floor cells is connected. *)
Lemma reach_row layout y (a : Z) (n : nat) (dir : Z) :
  dir = 1 \/ dir = -1 ->
  (forall k, 0 <= k <= Z.of_nat n -> floorAt layout (mkV (a + dir * k) y)) ->
  reach layout (mkV a y) (mkV (a + dir * Z.of_nat n) y).
Proof.
  intros Hdir. induction n as [|n IH]; intros H.
  - replace (a + dir * Z.of_nat 0) with a by lia.
    apply reach_here. specialize (H 0 ltac:(lia)).
    replace (a + dir * 0) with a in H by lia. exact H.
  - eapply reach_step.
    + apply IH. intros k Hk. apply H. lia.
    + unfold manhattan. cbn [vx vy]. lia.
    + apply H. lia.
Qed.

Lemma reach_column layout x (a : Z) (n : nat) (dir : Z) :
  dir = 1 \/ dir = -1 ->
  (forall k, 0 <= k <= Z.of_nat n -> floorAt layout (mkV x (a + dir * k))) ->
  reach layout (mkV x a) (mkV x (a + dir * Z.of_nat n)).
Proof.
  intros Hdir. induction n as [|n IH]; intros H.
  - replace (a + dir * Z.of_nat 0) with a by lia.
    apply reach_here. specialize (H 0 ltac:(lia)).
    replace (a + dir * 0) with a in H by lia. exact H.
  - eapply reach_step.
    + apply IH. intros k Hk. apply H. lia.
    + unfold manhattan. cbn [vx vy]. lia.
    + apply H. lia.
Qed.

Lemma reach_onPath layout start finish :
  (forall p, onPath start finish p -> floorAt layout p) ->
  reach layout start finish.
Proof.
  intros H. destruct start as [sx sy], finish as [fx fy].
  unfold onPath, between in H. cbn [vx vy] in H.
  apply reach_trans with (q := mkV fx sy).
  - destruct (Z_le_gt_dec sx fx).
    + replace fx with (sx + 1 * Z.of_nat (Z.to_nat (fx - sx))) at 1 by lia.
      apply reach_row; [auto|]. intros k Hk. apply H. cbn [vx vy]. lia.
    + replace fx with (sx + (-1) * Z.of_nat (Z.to_nat (sx - fx))) at 1 by lia.
      apply reach_row; [auto|]. intros k Hk. apply H. cbn [vx vy]. lia.
  - destruct (Z_le_gt_dec sy fy).
    + replace fy with (sy + 1 * Z.of_nat (Z.to_nat (fy - sy))) at 1 by lia.
      apply reach_column; [auto|]. intros k Hk. apply H. cbn [vx vy]. lia.
    + replace fy with (sy + (-1) * Z.of_nat (Z.to_nat (sy - fy))) at 1 by lia.
      apply reach_column; [auto|]. intros k Hk. apply H. cbn [vx vy]. lia.
Qed.


(** ** Flood fill *)

Lemma floodLoop_spec layout width height start visited0 (fuel : nat) :
  forall visited region stack region' visited',
    floodLoop fuel layout width height visited region stack
    = Returns (region', visited') ->
    fillInv layout width height start visited0 visited region stack ->
    fillInv layout width height start visited0 visited' region' [].
Proof.
  induction fuel as [|fuel IH]; intros visited region stack region' visited' H Hinv;
    [discriminate|].
  cbn [floodLoop] in H. destruct stack as [|p stack].
  { injection H as <- <-. exact Hinv. }
  destruct Hinv as (Hnd & Hreg & Hvis & Hst & Hstart & Hclosed).
  destruct ((vx p <? 0) || (width <=? vx p) || (vy p <? 0)
            || (height <=? vy p) || bool_decide ((vx p, vy p) ∈ visited))
    eqn:Eskip.
  - (* outside the grid or marked: the cell is dropped *)
    apply (IH _ _ _ _ _ H). split; [exact Hnd|]. split; [exact Hreg|].
    split; [exact Hvis|]. split.
    { intros s Hs. apply Hst. right. exact Hs. }
    assert (Hp : ~ inGrid width height p \/ key p ∈ visited).
    { unfold inGrid, key.
      repeat (apply orb_true_iff in Eskip as [Eskip|Eskip]);
        [left; apply Z.ltb_lt in Eskip; lia
        |left; apply Z.leb_le in Eskip; lia
        |left; apply Z.ltb_lt in Eskip; lia
        |left; apply Z.leb_le in Eskip; lia
        |right; apply bool_decide_eq_true in Eskip; exact Eskip]. }
    split.
    + intros Hf Hg Hk. destruct (Hstart Hf Hg Hk) as [?|Hin]; [auto|].
      apply elem_of_cons in Hin as [->|Hin]; [|auto].
      destruct Hp as [Hp|Hp]; [contradiction|].
      apply Hvis in Hp as [Hp|(q & Hq & Ekey)]; [contradiction|].
      apply key_inj in Ekey. subst q. auto.
    + intros q n Hq Hm Hg Hf.
      destruct (Hclosed q n Hq Hm Hg Hf) as [?|Hin]; [auto|].
      apply elem_of_cons in Hin as [->|Hin]; [|auto].
      destruct Hp as [Hp|Hp]; [contradiction|auto].
  - destruct (isTile layout (vy p) (vx p) FLOOR) as [isFloor| |] eqn:Et;
      try discriminate.
    cbn [bindO] in H.
    assert (Hg : inGrid width height p /\ key p ∉ visited).
    { unfold inGrid, key.
      repeat (apply orb_false_iff in Eskip as [Eskip ?]).
      apply bool_decide_eq_false in H0.
      apply Z.ltb_ge in Eskip. apply Z.leb_gt in H3.
      apply Z.ltb_ge in H2. apply Z.leb_gt in H1. split; [lia|exact H0]. }
    destruct Hg as [Hg Hfresh].
    destruct isFloor; cbn [negb] in H.
    + (* a new floor cell *)
      apply isTile_true in Et.
      assert (Hfl : floorAt layout p) by exact Et.
      assert (Hr : reach layout start p) by (apply Hst; [left|exact Hfl]).
      assert (Hnew : p ∉ region).
      { intros Hin. apply Hfresh, Hvis. right. eauto. }
      apply (IH _ _ _ _ _ H). split; [|split; [|split; [|split; [|split]]]].
      * apply NoDup_app. split; [exact Hnd|].
        split; [|apply NoDup_singleton].
        intros q Hq Hq'. apply list_elem_of_singleton in Hq' as ->. auto.
      * intros q Hq. apply elem_of_app in Hq as [Hq|Hq]; [auto|].
        apply list_elem_of_singleton in Hq as ->.
        split; [exact Hg|]. split; [exact Hr|].
        intros Hk. apply Hfresh, Hvis. auto.
      * intros k. rewrite elem_of_union, elem_of_singleton, Hvis. split.
        -- intros [->|[?|(q & Hq & <-)]]; [|auto|].
           ++ right. exists p. split; [|reflexivity].
              apply elem_of_app. right. left.
           ++ right. exists q. split; [|reflexivity].
              apply elem_of_app. auto.
        -- intros [?|(q & Hq & <-)]; [auto|].
           apply elem_of_app in Hq as [Hq|Hq]; [right; right; eauto|].
           apply list_elem_of_singleton in Hq as ->. left. reflexivity.
      * intros s Hs Hfs.
        assert (Hcase : manhattan p s = 1 \/ s ∈ stack).
        { repeat (apply elem_of_cons in Hs as [->|Hs]);
            [left; unfold manhattan; cbn [vx vy]; lia..|right; exact Hs]. }
        destruct Hcase as [Hm|Hin].
        -- eapply reach_step; eauto.
        -- apply Hst; [right; exact Hin|exact Hfs].
      * intros Hf0 Hg0 Hk0.
        destruct (Hstart Hf0 Hg0 Hk0) as [Hin|Hin].
        -- left. apply elem_of_app. auto.
        -- apply elem_of_cons in Hin as [->|Hin].
           ++ left. apply elem_of_app. right. left.
           ++ right. do 4 right. exact Hin.
      * intros q n Hq Hm Hgn Hfn.
        apply elem_of_app in Hq as [Hq|Hq].
        -- destruct (Hclosed q n Hq Hm Hgn Hfn) as [Hv|Hin].
           ++ left. apply elem_of_union. auto.
           ++ apply elem_of_cons in Hin as [->|Hin].
              ** left. apply elem_of_union. left.
                 apply elem_of_singleton. reflexivity.
              ** right. do 4 right. exact Hin.
        -- apply list_elem_of_singleton in Hq as ->. right.
           apply manhattan_neighbours4 in Hm. unfold neighbours4 in Hm.
           repeat (apply elem_of_cons in Hm as [->|Hm]);
             [do 2 right; left|do 3 right; left|left|right; left
             |inversion Hm].
    + (* not floor: the cell is dropped *)
      assert (Hnf : ~ floorAt layout p).
      { intros Hf. unfold floorAt in Hf.
        unfold isTile, readTile, cell in *.
        destruct (arr_get layout (vy p)) as [row|]; [|discriminate].
        cbn [bindO] in Et. rewrite Hf in Et. discriminate. }
      apply (IH _ _ _ _ _ H). split; [exact Hnd|]. split; [exact Hreg|].
      split; [exact Hvis|]. split.
      { intros s Hs. apply Hst. right. exact Hs. }
      split.
      * intros Hf0 Hg0 Hk0. destruct (Hstart Hf0 Hg0 Hk0) as [?|Hin]; [auto|].
        apply elem_of_cons in Hin as [->|Hin]; [contradiction|auto].
      * intros q n Hq Hm Hgn Hfn.
        destruct (Hclosed q n Hq Hm Hgn Hfn) as [?|Hin]; [auto|].
        apply elem_of_cons in Hin as [->|Hin]; [contradiction|auto].
Qed.

Lemma elem_of_gridKeys (width height x y : Z) :
  0 <= x < width -> 0 <= y < height -> (x, y) ∈ gridKeys width height.
Proof.
  intros Hx Hy. unfold gridKeys. apply elem_of_list_to_set.
  apply list_elem_of_In, in_flat_map. exists y.
  split; [apply zrange_In; exact Hy|].
  apply in_map_iff. exists x. split; [reflexivity|apply zrange_In; exact Hx].
Qed.

(** Each iteration of [floodLoop] either shortens the stack or marks a cell
    of the grid that was not marked; fuel for four steps per unmarked cell
    and one per stacked cell is enough. *)
Lemma floodLoop_total layout width height :
  rowsDefined layout height ->
  forall (fuel : nat) visited region stack,
    (4 * size (gridKeys width height ∖ visited) + length stack < fuel)%nat ->
    exists r, floodLoop fuel layout width height visited region stack
              = Returns r.
Proof.
  intros Hrows. induction fuel as [|fuel IH]; intros visited region stack Hm;
    [lia|].
  cbn [floodLoop]. destruct stack as [|p stack]; [eauto|].
  cbn [length] in Hm.
  destruct ((vx p <? 0) || (width <=? vx p) || (vy p <? 0)
            || (height <=? vy p) || bool_decide ((vx p, vy p) ∈ visited))
    eqn:Eskip.
  - apply IH. lia.
  - repeat (apply orb_false_iff in Eskip as [Eskip ?]).
    apply bool_decide_eq_false in H.
    apply Z.ltb_ge in Eskip. apply Z.leb_gt in H2.
    apply Z.ltb_ge in H1. apply Z.leb_gt in H0.
    rewrite isTile_cell by (apply Hrows; lia). cbn [bindO].
    destruct (negb _).
    + apply IH. lia.
    + apply IH. cbn [length].
      assert (Hlt : (size (gridKeys width height ∖ ({[(vx p, vy p)]} ∪ visited))
                     < size (gridKeys width height ∖ visited))%nat).
      { apply subset_size. split.
        - intros k Hk. apply elem_of_difference in Hk as [Hk1 Hk2].
          apply elem_of_difference. split; [exact Hk1|].
          intros Hv. apply Hk2, elem_of_union. auto.
        - intros Hsub.
          assert (Hin : (vx p, vy p) ∈ gridKeys width height ∖ visited).
          { apply elem_of_difference. split; [|exact H].
            apply elem_of_gridKeys; lia. }
          apply Hsub, elem_of_difference in Hin as [_ Hin].
          apply Hin, elem_of_union. left. apply elem_of_singleton.
          reflexivity. }
      lia.
Qed.

Lemma floodLoop_fuel (width height : Z) (visited : gset (Z * Z)) :
  (4 * size (gridKeys width height ∖ visited) + 1
   < 4 * size (gridKeys width height) + 2)%nat.
Proof.
  assert (size (gridKeys width height ∖ visited)
          <= size (gridKeys width height))%nat; [|lia].
  apply subseteq_size. intros k Hk.
  apply elem_of_difference in Hk as [Hk _]. exact Hk.
Qed.

Lemma floodFill_spec layout width height start visited (fuel : nat) :
  isGrid layout width height -> 0 < height ->
  (forall p, floorAt layout p -> inGrid width height p) ->
  floorAt layout start ->
  (forall q, reach layout start q -> key q ∉ visited) ->
  (4 * size (gridKeys width height) + 2 <= fuel)%nat ->
  exists region visited',
    floodFill fuel layout visited (vx start) (vy start)
    = Returns (region, visited') /\
    NoDup region /\
    (forall q, q ∈ region <-> reach layout start q) /\
    (forall k, k ∈ visited' <->
               k ∈ visited \/ exists p, p ∈ region /\ key p = k).
Proof.
  intros Hg Hh Hin Hstart Hsep Hfuel.
  pose proof (isGrid_rowsDefined _ _ _ Hg) as Hrows.
  unfold floodFill. destruct Hg as [Hlen Hrs]. rewrite Hlen.
  destruct (Hrs 0 ltac:(lia)) as (row0 & E0 & Hw0 & _).
  unfold firstRowLength. rewrite E0, Hw0. cbn [bindO].
  replace (mkV (vx start) (vy start)) with start by (destruct start; reflexivity).
  destruct (floodLoop_total layout width height Hrows fuel visited [] [start])
    as ([region visited'] & E).
  { pose proof (floodLoop_fuel width height visited). cbn [length]. lia. }
  exists region, visited'. split; [exact E|].
  apply (floodLoop_spec layout width height start visited) in E.
  - destruct E as (Hnd & Hreg & Hvis & _ & Hst & Hclosed).
    split; [exact Hnd|]. split; [|exact Hvis].
    intros q. split; [intros Hq; apply Hreg, Hq|].
    induction 1 as [Hf|q r Hr IH Hm Hf].
    + destruct (Hst Hf (Hin _ Hf)) as [?|Hn]; [|assumption|inversion Hn].
      apply Hsep. apply reach_here. exact Hf.
    + destruct (Hclosed q r IH Hm (Hin _ Hf) Hf) as [Hv|Hn]; [|inversion Hn].
      apply Hvis in Hv as [Hv|(p & Hp & Ek)].
      * exfalso. apply (Hsep r); [|exact Hv]. eapply reach_step; eauto.
      * apply key_inj in Ek. subst p. exact Hp.
  - split; [constructor|]. split; [intros p Hp; inversion Hp|].
    split.
    { intros k. split; [auto|]. intros [?|(p & Hp & _)]; [auto|inversion Hp]. }
    split.
    { intros s Hs Hf. apply list_elem_of_singleton in Hs as ->.
      apply reach_here. exact Hf. }
    split; [intros _ _ _; right; left|].
    intros p n Hp. inversion Hp.
Qed.

(** X10: flood fill on a full grid whose floor lies inside it, started at a floor
    cell with nothing marked: with enough fuel it returns the cells joined
    to the start by a walk over floor, each once, and marks exactly them. *)
Theorem floodFill_finds_the_region
    (layout : Layout) (width height : Z) (start : Vector2) :
  isGrid layout width height -> 0 < height ->
  (forall p, floorAt layout p -> inGrid width height p) ->
  floorAt layout start ->
  exists fuel0 : nat,
    forall fuel : nat, (fuel0 <= fuel)%nat ->
    exists region visited',
      floodFill fuel layout ∅ (vx start) (vy start)
      = Returns (region, visited') /\
      NoDup region /\
      (forall q, q ∈ region <-> reach layout start q) /\
      (forall q, key q ∈ visited' <-> q ∈ region).
Proof.
  intros Hg Hh Hin Hstart.
  exists (4 * size (gridKeys width height) + 2)%nat. intros fuel Hfuel.
  destruct (floodFill_spec layout width height start ∅ fuel Hg Hh Hin Hstart)
    as (region & visited' & E & Hnd & Hreg & Hvis);
    [intros q _; apply not_elem_of_empty|exact Hfuel|].
  exists region, visited'. split; [exact E|]. split; [exact Hnd|].
  split; [exact Hreg|].
  intros q. rewrite Hvis. split.
  - intros [Hk|(p & Hp & Ek)]; [exfalso; revert Hk; apply not_elem_of_empty|].
    apply key_inj in Ek. subst p. exact Hp.
  - intros Hq. right. eauto.
Qed.

(** ** The closest pair of two regions *)

Lemma closestSoFar_step best seen p1 p2 :
  closestSoFar best seen ->
  closestSoFar
    (let distance := manhattan p1 p2 in
     match best with
     | None => Some (distance, (p1, p2))
     | Some (bestDistance, _) =>
       if distance <? bestDistance then Some (distance, (p1, p2)) else best
     end) (seen ++ [(p1, p2)]).
Proof.
  destruct best as [[d [a b]]|]; cbn zeta.
  - intros (Hin & Hd & Hmin). destruct (Z.ltb_spec (manhattan p1 p2) d).
    + split; [apply elem_of_app; right; left|]. split; [reflexivity|].
      intros q Hq. apply elem_of_app in Hq as [Hq|Hq].
      * specialize (Hmin q Hq). lia.
      * apply list_elem_of_singleton in Hq as ->. cbn. lia.
    + split; [apply elem_of_app; auto|]. split; [exact Hd|].
      intros q Hq. apply elem_of_app in Hq as [Hq|Hq]; [auto|].
      apply list_elem_of_singleton in Hq as ->. cbn. lia.
  - intros ->. split; [left|]. split; [reflexivity|].
    intros q Hq. apply list_elem_of_singleton in Hq as ->. cbn. lia.
Qed.

Lemma closestPair_inner (p1 : Vector2) (region2 : list Vector2) :
  forall best seen,
    closestSoFar best seen ->
    closestSoFar
      (fold_left (fun best p2 =>
         let distance := manhattan p1 p2 in
         match best with
         | None => Some (distance, (p1, p2))
         | Some (bestDistance, _) =>
           if distance <? bestDistance then Some (distance, (p1, p2)) else best
         end) region2 best)
      (seen ++ map (fun p2 => (p1, p2)) region2).
Proof.
  induction region2 as [|p2 l IH]; intros best seen H.
  - cbn. rewrite app_nil_r. exact H.
  - cbn [fold_left map].
    replace (seen ++ (p1, p2) :: map (fun p2 => (p1, p2)) l)
      with ((seen ++ [(p1, p2)]) ++ map (fun p2 => (p1, p2)) l)
      by (rewrite <- app_assoc; reflexivity).
    apply IH. apply (closestSoFar_step best seen p1 p2 H).
Qed.

Lemma closestPair_outer (region1 region2 : list Vector2) :
  forall best seen,
    closestSoFar best seen ->
    closestSoFar
      (fold_left (fun best p1 =>
         fold_left (fun best p2 =>
           let distance := manhattan p1 p2 in
           match best with
           | None => Some (distance, (p1, p2))
           | Some (bestDistance, _) =>
             if distance <? bestDistance then Some (distance, (p1, p2))
             else best
           end) region2 best) region1 best)
      (seen ++ flat_map (fun p1 => map (fun p2 => (p1, p2)) region2) region1).
Proof.
  induction region1 as [|p1 l IH]; intros best seen H.
  - cbn. rewrite app_nil_r. exact H.
  - cbn [fold_left flat_map]. rewrite app_assoc.
    apply IH. apply closestPair_inner. exact H.
Qed.

Lemma closestPair_spec (region1 region2 : list Vector2) :
  region1 <> [] -> region2 <> [] ->
  exists p1 p2,
    closestPair region1 region2 = Some (manhattan p1 p2, (p1, p2)) /\
    p1 ∈ region1 /\ p2 ∈ region2 /\
    forall q1 q2, q1 ∈ region1 -> q2 ∈ region2 ->
                  manhattan p1 p2 <= manhattan q1 q2.
Proof.
  intros H1 H2.
  assert (H : closestSoFar (closestPair region1 region2)
                (flat_map (fun p1 => map (fun p2 => (p1, p2)) region2)
                          region1))
    by exact (closestPair_outer region1 region2 None [] eq_refl).
  assert (Hpairs : forall q1 q2,
            (q1, q2) ∈ flat_map (fun p1 => map (fun p2 => (p1, p2)) region2)
                                region1
            <-> q1 ∈ region1 /\ q2 ∈ region2).
  { intros q1 q2. rewrite list_elem_of_In, in_flat_map. split.
    - intros (a & Ha & Hb). apply in_map_iff in Hb as (b & [= <- <-] & Hb).
      rewrite !list_elem_of_In. auto.
    - intros [Ha Hb]. exists q1. split; [apply list_elem_of_In, Ha|].
      apply in_map_iff. exists q2. split; [reflexivity|].
      apply list_elem_of_In, Hb. }
  destruct (closestPair region1 region2) as [[d [p1 p2]]|];
    unfold closestSoFar in H.
  - destruct H as (Hin & -> & Hmin). exists p1, p2.
    apply Hpairs in Hin as [Ha Hb].
    split; [reflexivity|]. split; [exact Ha|]. split; [exact Hb|].
    intros q1 q2 Hq1 Hq2. apply (Hmin (q1, q2)). apply Hpairs. auto.
  - exfalso. destruct region1 as [|a l1]; [congruence|].
    destruct region2 as [|b l2]; [congruence|]. discriminate.
Qed.

(** ** Connectivity repair *)

Lemma scan_step (st : list (list Vector2) * gset (Z * Z))
    layout width height (fuel : nat) x y :
  isGrid layout width height -> 0 < height ->
  (forall p, floorAt layout p -> inGrid width height p) ->
  (4 * size (gridKeys width height) + 2 <= fuel)%nat ->
  0 <= x < width -> 0 <= y < height ->
  scanned layout st ->
  exists st',
    (let '(regions, visited) := st in
     let! isFloor := isTile layout y x FLOOR in
     if isFloor && negb (bool_decide ((x, y) ∈ visited)) then
       let! r := floodFill fuel layout visited x y in
       let '(region, visited) := r in
       Returns (if 10 <? Z.of_nat (length region)
                then (regions ++ [region], visited)
                else (regions, visited))
     else Returns st) = Returns st' /\
    scanned layout st' /\
    (forall k, k ∈ snd st -> k ∈ snd st') /\
    (floorAt layout (mkV x y) -> (x, y) ∈ snd st').
Proof.
  intros Hg Hh Hin Hfuel Hx Hy Hsc.
  destruct st as [regions visited].
  pose proof Hsc as (Hclosed & Hregs & Hlarge). cbn [fst snd] in *.
  rewrite isTile_cell by (apply (isGrid_rowsDefined _ _ _ Hg); lia).
  cbn [bindO].
  destruct (cell layout x y) as [t|] eqn:Ec.
  2:{ exists (regions, visited). cbn [andb]. split; [reflexivity|].
      split; [exact Hsc|]. split; [auto|].
      unfold floorAt. cbn [vx vy]. congruence. }
  unfold tile_eqb. destruct (bool_decide (t = FLOOR)) eqn:Et.
  2:{ exists (regions, visited). cbn [andb]. split; [reflexivity|].
      split; [exact Hsc|]. split; [auto|].
      apply bool_decide_eq_false in Et.
      unfold floorAt. cbn [vx vy]. congruence. }
  apply bool_decide_eq_true in Et. subst t.
  destruct (bool_decide ((x, y) ∈ visited)) eqn:Ev; cbn [andb negb].
  { exists (regions, visited). split; [reflexivity|].
    split; [exact Hsc|]. split; [auto|].
    intros _. apply bool_decide_eq_true in Ev. exact Ev. }
  apply bool_decide_eq_false in Ev.
  set (start := mkV x y).
  assert (Hstart : floorAt layout start) by exact Ec.
  destruct (floodFill_spec layout width height start visited fuel
              Hg Hh Hin Hstart) as (region & visited' & E & Hnd & Hreg & Hvis).
  { intros q Hq Hk. apply Ev.
    apply (Hclosed q start (reach_sym _ _ _ Hq) Hk). }
  { exact Hfuel. }
  cbn [vx vy start] in E. rewrite E. cbn [bindO].
  eexists. split; [reflexivity|].
  assert (Hmono : forall k, k ∈ visited -> k ∈ visited').
  { intros k Hk. apply Hvis. auto. }
  assert (Hclosed' : forall p q, reach layout p q ->
                                 key p ∈ visited' -> key q ∈ visited').
  { intros p q Hpq Hp. apply Hvis in Hp as [Hp|(p' & Hp' & Ek)].
    - apply Hmono. eapply Hclosed; eauto.
    - apply key_inj in Ek. subst p'. apply Hvis. right. exists q.
      split; [|reflexivity]. apply Hreg.
      eapply reach_trans; [apply Hreg; exact Hp'|exact Hpq]. }
  assert (Hhere : (x, y) ∈ visited').
  { apply Hvis. right. exists start. split; [|reflexivity].
    apply Hreg, reach_here, Hstart. }
  destruct (10 <? Z.of_nat (length region)) eqn:El; cbn [fst snd].
  - apply Z.ltb_lt in El. split; [|auto]. split; [exact Hclosed'|]. split.
    + intros r Hr. apply elem_of_app in Hr as [Hr|Hr]; [auto|].
      apply list_elem_of_singleton in Hr as ->. split; [lia|].
      exists start. exact Hreg.
    + intros p Hf Hp Hl. apply Hvis in Hp as [Hp|(p' & Hp' & Ek)].
      * destruct (Hlarge p Hf Hp Hl) as (r & Hr & Hpr).
        exists r. split; [apply elem_of_app; auto|exact Hpr].
      * apply key_inj in Ek. subst p'. exists region.
        split; [apply elem_of_app; right; left|exact Hp'].
  - apply Z.ltb_ge in El. split; [|auto]. split; [exact Hclosed'|].
    split; [exact Hregs|].
    intros p Hf Hp Hl. apply Hvis in Hp as [Hp|(p' & Hp' & Ek)]; [auto|].
    apply key_inj in Ek. subst p'. exfalso.
    destruct Hl as (l & Hndl & Hlen & Hall).
    assert (Hle : (length l <= length region)%nat).
    { apply NoDup_incl_length; [apply NoDup_ListNoDup, Hndl|].
      intros c Hc. apply list_elem_of_In. apply Hreg.
      eapply reach_trans; [apply Hreg; exact Hp'|].
      apply Hall, list_elem_of_In, Hc. }
    lia.
Qed.

Lemma scan_total layout width height (fuel : nat) :
  isGrid layout width height -> 0 < height ->
  (forall p, floorAt layout p -> inGrid width height p) ->
  (4 * size (gridKeys width height) + 2 <= fuel)%nat ->
  exists found,
    forO (zrange 0 height) ([], ∅) (fun y st =>
      forO (zrange 0 width) st (fun x st =>
        let '(regions, visited) := st in
        let! isFloor := isTile layout y x FLOOR in
        if isFloor && negb (bool_decide ((x, y) ∈ visited)) then
          let! r := floodFill fuel layout visited x y in
          let '(region, visited) := r in
          Returns (if 10 <? Z.of_nat (length region)
                   then (regions ++ [region], visited)
                   else (regions, visited))
        else Returns st)) = Returns found /\
    scanned layout found /\
    forall p, floorAt layout p -> key p ∈ snd found.
Proof.
  intros Hg Hh Hin Hfuel.
  destruct (forO_total
    (fun pre (st : list (list Vector2) * gset (Z * Z)) =>
       scanned layout st /\
       forall p, floorAt layout p -> In (vy p) pre -> key p ∈ snd st)
    (zrange 0 height)
    (fun y st =>
      forO (zrange 0 width) st (fun x st =>
        let '(regions, visited) := st in
        let! isFloor := isTile layout y x FLOOR in
        if isFloor && negb (bool_decide ((x, y) ∈ visited)) then
          let! r := floodFill fuel layout visited x y in
          let '(region, visited) := r in
          Returns (if 10 <? Z.of_nat (length region)
                   then (regions ++ [region], visited)
                   else (regions, visited))
        else Returns st))
    ([], ∅)) as (found & E & Hsc & Hall).
  - split.
    + split; [|split]; cbn [fst snd].
      * intros p q _ Hk. exfalso. revert Hk. apply not_elem_of_empty.
      * intros r Hr. inversion Hr.
      * intros p _ Hk. exfalso. revert Hk. apply not_elem_of_empty.
    + intros p _ [].
  - intros pre y post st Hl [Hsc Hrows].
    assert (Hy : 0 <= y < height).
    { apply zrange_In. rewrite Hl. apply in_or_app. right. left. reflexivity. }
    destruct (forO_total
      (fun pre' (st' : list (list Vector2) * gset (Z * Z)) =>
         scanned layout st' /\
         (forall p, floorAt layout p -> In (vy p) pre -> key p ∈ snd st') /\
         forall p, floorAt layout p -> vy p = y -> In (vx p) pre' ->
                   key p ∈ snd st')
      (zrange 0 width)
      (fun x st =>
        let '(regions, visited) := st in
        let! isFloor := isTile layout y x FLOOR in
        if isFloor && negb (bool_decide ((x, y) ∈ visited)) then
          let! r := floodFill fuel layout visited x y in
          let '(region, visited) := r in
          Returns (if 10 <? Z.of_nat (length region)
                   then (regions ++ [region], visited)
                   else (regions, visited))
        else Returns st)
      st) as (st' & E & Hsc' & Hrows' & Hrow).
    + split; [exact Hsc|]. split; [exact Hrows|]. intros p _ _ [].
    + intros pre' x post' st1 Hl' (Hsc1 & Hrows1 & Hrow1).
      assert (Hx : 0 <= x < width).
      { apply zrange_In. rewrite Hl'. apply in_or_app. right. left.
        reflexivity. }
      destruct (scan_step st1 layout width height fuel x y
                  Hg Hh Hin Hfuel Hx Hy Hsc1) as (st2 & E2 & Hsc2 & Hmono & Hhere).
      exists st2. split; [exact E2|]. split; [exact Hsc2|]. split.
      * intros p Hf Hp. apply Hmono, Hrows1; assumption.
      * intros p Hf Hpy Hpx. apply in_app_or in Hpx as [Hpx|[Hpx|[]]].
        -- apply Hmono, Hrow1; assumption.
        -- destruct p as [px py]. cbn [vx vy] in *. subst. apply Hhere, Hf.
    + exists st'. split; [exact E|]. split; [exact Hsc'|].
      intros p Hf Hp. apply in_app_or in Hp as [Hp|[Hp|[]]].
      * apply Hrows'; assumption.
      * apply Hrow; [exact Hf|congruence|].
        apply zrange_In. apply (Hin p Hf).
  - exists found. split; [exact E|]. split; [exact Hsc|].
    intros p Hf. apply Hall; [exact Hf|]. apply zrange_In. apply (Hin p Hf).
Qed.

Lemma manhattan_inGrid width height (p q : Vector2) :
  inGrid width height p -> inGrid width height q ->
  manhattan p q <= width + height.
Proof. unfold inGrid, manhattan. lia. Qed.

Lemma onPath_inGrid width height (start finish p : Vector2) :
  inGrid width height start -> inGrid width height finish ->
  onPath start finish p -> inGrid width height p.
Proof. unfold inGrid, onPath, between. lia. Qed.

(** Two cells of one kept region are joined. *)
Lemma region_joined layout (region : list Vector2) c a b :
  (forall q, q ∈ region <-> reach layout c q) ->
  a ∈ region -> b ∈ region -> reach layout a b.
Proof.
  intros H Ha Hb. apply reach_trans with (q := c).
  - apply reach_sym, H, Ha.
  - apply H, Hb.
Qed.

Lemma ensureConnectivity_spec layout width height (fuel : nat) :
  isGrid layout width height -> 0 < height ->
  (forall p, floorAt layout p -> inGrid width height p) ->
  (4 * size (gridKeys width height) + 2 <= fuel)%nat ->
  width + height <= Z.of_nat fuel ->
  exists final,
    ensureConnectivity fuel layout = Returns final /\
    isGrid final width height /\
    (forall p, floorAt layout p -> floorAt final p) /\
    (forall p, floorAt final p -> inGrid width height p) /\
    (forall p q, large layout p -> large layout q -> reach final p q).
Proof.
  intros Hg Hh Hin Hfuel Hfuel2.
  destruct (scan_total layout width height fuel Hg Hh Hin Hfuel)
    as (found & E & (Hclosed & Hregs & Hlarge) & Hall).
  unfold ensureConnectivity.
  pose proof Hg as [Hlen Hrs]. rewrite Hlen.
  destruct (Hrs 0 ltac:(lia)) as (row0 & E0 & Hw0 & _).
  unfold firstRowLength. rewrite E0, Hw0. cbn [bindO].
  rewrite E. cbn [bindO].
  assert (Hfind : forall p, large layout p ->
                            exists region, region ∈ fst found /\ p ∈ region).
  { intros p Hp. assert (Hf : floorAt layout p).
    { destruct Hp as (l & _ & Hlen' & Hr). destruct l as [|c l]; [cbn in Hlen'; lia|].
      eapply reach_floor_l. apply (Hr c). left. }
    apply Hlarge; auto. }
  destruct (fst found) as [|r0 [|r1 rest]] eqn:Ef.
  - exists layout. split; [reflexivity|]. split; [exact Hg|].
    split; [auto|]. split; [exact Hin|].
    intros p q Hp _. destruct (Hfind p Hp) as (r & Hr & _). inversion Hr.
  - exists layout. split; [reflexivity|]. split; [exact Hg|].
    split; [auto|]. split; [exact Hin|].
    intros p q Hp Hq.
    destruct (Hfind p Hp) as (r & Hr & Hpr).
    destruct (Hfind q Hq) as (r' & Hr' & Hqr).
    apply list_elem_of_singleton in Hr as ->.
    apply list_elem_of_singleton in Hr' as ->.
    destruct (Hregs r0 ltac:(left)) as (_ & c & Hc).
    eapply region_joined; eauto.
  - destruct (Hregs r0 ltac:(left)) as (Hl0 & c0 & Hc0).
    destruct (forO_total
      (fun pre cur =>
         isGrid cur width height /\
         (forall p, floorAt layout p -> floorAt cur p) /\
         (forall p, floorAt cur p -> inGrid width height p) /\
         forall r a b, In r pre -> a ∈ r0 -> b ∈ r -> reach cur a b)
      (r1 :: rest)
      (fun region layout => connectRegions fuel layout r0 region)
      layout) as (final & Efin & Hgf & Hmono & Hinf & Hjoin).
    + split; [exact Hg|]. split; [auto|]. split; [exact Hin|].
      intros r a b [].
    + intros pre r post cur Hl (Hgc & Hmc & Hic & Hjc).
      assert (Hr : r ∈ r0 :: r1 :: rest).
      { right. rewrite Hl. apply elem_of_app. right. left. }
      destruct (Hregs r Hr) as (Hlr & c & Hc).
      destruct (closestPair_spec r0 r) as (p1 & p2 & Ecp & Hp1 & Hp2 & _).
      { intros ->. cbn in Hl0. lia. }
      { intros ->. cbn in Hlr. lia. }
      unfold connectRegions. rewrite Ecp.
      assert (Hg1 : inGrid width height p1).
      { apply Hin. eapply reach_floor_r. apply Hc0, Hp1. }
      assert (Hg2 : inGrid width height p2).
      { apply Hin. eapply reach_floor_r. apply Hc, Hp2. }
      destruct (carveConnection_spec fuel cur width height p1 p2
                  Hgc Hg1 Hg2) as (cur' & Ecur & Hgc' & Hfl).
      { pose proof (manhattan_inGrid width height p1 p2 Hg1 Hg2). lia. }
      exists cur'. split; [exact Ecur|]. split; [exact Hgc'|].
      assert (Hstep : forall p, floorAt cur p -> floorAt cur' p).
      { intros p Hp. apply Hfl. auto. }
      split; [intros p Hp; apply Hstep, Hmc, Hp|]. split.
      * intros p Hp. apply Hfl in Hp as [Hp|Hp]; [auto|].
        exact (onPath_inGrid _ _ _ _ _ Hg1 Hg2 Hp).
      * intros r' a b Hr' Ha Hb. apply in_app_or in Hr' as [Hr'|[<-|[]]].
        -- eapply reach_mono; [exact Hstep|]. eapply Hjc; eauto.
        -- apply reach_trans with (q := p1).
           { eapply reach_mono; [intros p Hp; apply Hstep, Hmc, Hp|].
             exact (region_joined layout r0 c0 a p1 Hc0 Ha Hp1). }
           apply reach_trans with (q := p2).
           { apply reach_onPath. intros p Hp. apply Hfl. auto. }
           eapply reach_mono; [intros p Hp; apply Hstep, Hmc, Hp|].
           exact (region_joined layout r c p2 b Hc Hp2 Hb).
    + exists final. split; [exact Efin|]. split; [exact Hgf|].
      split; [exact Hmono|]. split; [exact Hinf|].
      assert (Hc0in : c0 ∈ r0).
      { apply Hc0. destruct r0 as [|a r0]; [cbn in Hl0; lia|].
        apply reach_here. eapply reach_floor_l. apply (Hc0 a). left. }
      assert (Hto : forall p, large layout p -> reach final c0 p).
      { intros p Hp. destruct (Hfind p Hp) as (r & Hr & Hpr).
        apply elem_of_cons in Hr as [->|Hr].
        - eapply reach_mono; [exact Hmono|]. apply Hc0, Hpr.
        - apply (Hjoin r c0 p); [apply list_elem_of_In, Hr|exact Hc0in|exact Hpr]. }
      intros p q Hp Hq. apply reach_trans with (q := c0).
      * apply reach_sym, Hto, Hp.
      * apply Hto, Hq.
Qed.

(** X11: connectivity repair on a full grid whose floor lies inside it: with
    enough fuel it returns a full grid in which every floor cell is still
    floor, and any two cells that lay in regions of more than 10 floor
    cells are joined by a walk over floor. *)
Theorem ensureConnectivity_joins_the_large_regions
    (layout : Layout) (width height : Z) :
  isGrid layout width height -> 0 < height ->
  (forall p, floorAt layout p -> inGrid width height p) ->
  exists fuel0 : nat,
    forall fuel : nat, (fuel0 <= fuel)%nat ->
    exists final,
      ensureConnectivity fuel layout = Returns final /\
      isGrid final width height /\
      (forall p, floorAt layout p -> floorAt final p) /\
      (forall p q, large layout p -> large layout q -> reach final p q).
Proof.
  intros Hg Hh Hin.
  exists (4 * size (gridKeys width height) + 2 + Z.to_nat (width + height))%nat.
  intros fuel Hfuel.
  destruct (ensureConnectivity_spec layout width height fuel Hg Hh Hin)
    as (final & E & Hgf & Hmono & _ & Hjoin); [lia|lia|].
  exists final. auto.
Qed.

(** ** Grids with nothing else in them *)

Lemma exactGrid_isGrid layout width height :
  exactGrid layout width height -> isGrid layout width height.
Proof.
  intros (Hlen & Hrows & Hrow). split; [exact Hlen|].
  intros y Hy. destruct (proj2 (Hrows y) Hy) as [row E].
  exists row. split; [exact E|]. destruct (Hrow y row E) as [Hl Hc].
  split; [exact Hl|]. intros x Hx. apply Hc, Hx.
Qed.

Lemma exactGrid_inGrid layout width height p t :
  exactGrid layout width height ->
  cell layout (vx p) (vy p) = Some t -> inGrid width height p.
Proof.
  intros (_ & Hrows & Hrow) Hc. unfold cell in Hc.
  destruct (arr_get layout (vy p)) as [row|] eqn:E; [|discriminate].
  split.
  - apply (Hrow _ _ E). rewrite Hc. eauto.
  - apply Hrows. rewrite E. eauto.
Qed.

Lemma zrange_prefix (hi : Z) (pre post : list Z) (a : Z) :
  zrange 0 hi = pre ++ a :: post ->
  a = Z.of_nat (length pre) /\ forall x, In x pre <-> 0 <= x < a.
Proof.
  intros E. unfold zrange in E.
  assert (Hpre : pre = map (fun k => 0 + Z.of_nat k) (seq 0 (length pre)) /\
                 a = 0 + Z.of_nat (length pre)).
  { remember (Z.to_nat (hi - 0)) as n eqn:En. clear En.
    assert (Hlen : (length pre < n)%nat).
    { apply (f_equal (@length Z)) in E.
      rewrite length_map, length_seq, length_app in E. cbn in E. lia. }
    assert (Hsplit : seq 0 n = seq 0 (length pre) ++ seq (length pre) (n - length pre)).
    { rewrite <- seq_app. f_equal. lia. }
    rewrite Hsplit, map_app in E.
    apply app_inj_1 in E as [E1 E2];
      [|rewrite length_map, length_seq; reflexivity].
    split; [symmetry; exact E1|].
    destruct (n - length pre)%nat as [|m] eqn:Em; [lia|].
    cbn in E2. injection E2 as E2 _. symmetry. exact E2. }
  destruct Hpre as [Hpre ->]. split; [lia|].
  intros x. rewrite Hpre at 1. rewrite in_map_iff. split.
  - intros (k & <- & Hk). apply in_seq in Hk. lia.
  - intros Hx. exists (Z.to_nat x). split; [lia|]. apply in_seq. lia.
Qed.

(** One more element at the end of an array built from index 0 on. *)
Lemma arr_set_next {A} (a : Arr A) (n : Z) (v : A) :
  0 <= n -> len a = n ->
  (forall i, is_Some (arr_get a i) <-> 0 <= i < n) ->
  len (arr_set a n v) = n + 1 /\
  (forall i, is_Some (arr_get (arr_set a n v) i) <-> 0 <= i < n + 1) /\
  (forall i, i <> n -> arr_get (arr_set a n v) i = arr_get a i) /\
  arr_get (arr_set a n v) n = Some v.
Proof.
  intros Hn Hlen Hkeys. unfold arr_set, arr_get in *. cbn [len props].
  replace (0 <=? n) with true by (symmetry; apply Z.leb_le; lia).
  split; [lia|]. split; [|split].
  - intros i. destruct (decide (i = n)) as [->|Hne].
    + rewrite lookup_insert_eq. split; [lia|eauto].
    + rewrite lookup_insert_ne by auto. rewrite Hkeys. lia.
  - intros i Hne. apply lookup_insert_ne. auto.
  - apply lookup_insert_eq.
Qed.

Lemma newRow_spec (width : Z) (y : Z) (cellf : Z -> Z -> M TileType)
    (s s' : Z) (row : Row) :
  0 <= width ->
  forM (zrange 0 width) arr_empty
       (fun x row => let* t := cellf x y in ret (arr_set row x t)) s
  = Returns (row, s') ->
  isRow row width.
Proof.
  intros Hw H.
  assert (G : len row = Z.of_nat (length (zrange 0 width)) /\
              forall x, is_Some (arr_get row x) <->
                        0 <= x < Z.of_nat (length (zrange 0 width))).
  { revert H.
    apply (forM_inv (fun pre (row : Row) =>
             len row = Z.of_nat (length pre) /\
             forall x, is_Some (arr_get row x) <->
                       0 <= x < Z.of_nat (length pre))).
    - split; [reflexivity|]. intros x. unfold arr_get. cbn.
      rewrite lookup_empty. split; [intros [? ?]; discriminate|lia].
    - intros pre x post r1 s1 r2 s2 Hl [Hlen Hkeys] Hb.
      apply bind_Returns in Hb as (t & s3 & _ & Hb). injection Hb as <- _.
      destruct (zrange_prefix _ _ _ _ Hl) as [-> _].
      destruct (arr_set_next r1 (Z.of_nat (length pre)) t ltac:(lia) Hlen Hkeys)
        as (L & K & _).
      rewrite length_app. cbn [length].
      replace (Z.of_nat (length pre + 1)) with (Z.of_nat (length pre) + 1)
        by lia.
      auto. }
  unfold zrange in G. rewrite length_map, length_seq in G.
  replace (Z.of_nat (Z.to_nat (width - 0))) with width in G by lia.
  exact G.
Qed.

Lemma newGrid_spec (width height : Z) (cellf : Z -> Z -> M TileType)
    (s s' : Z) (layout : Layout) :
  0 <= width -> 0 <= height ->
  newGrid width height cellf s = Returns (layout, s') ->
  exactGrid layout width height.
Proof.
  intros Hw Hh H. unfold newGrid in H.
  assert (G : len layout = Z.of_nat (length (zrange 0 height)) /\
              (forall y, is_Some (arr_get layout y) <->
                         0 <= y < Z.of_nat (length (zrange 0 height))) /\
              forall y row, arr_get layout y = Some row -> isRow row width).
  { revert H.
    apply (forM_inv (fun pre (layout : Layout) =>
             len layout = Z.of_nat (length pre) /\
             (forall y, is_Some (arr_get layout y) <->
                        0 <= y < Z.of_nat (length pre)) /\
             forall y row, arr_get layout y = Some row -> isRow row width)).
    - split; [reflexivity|]. split.
      + intros y. unfold arr_get. cbn. rewrite lookup_empty.
        split; [intros [? ?]; discriminate|lia].
      + intros y row. unfold arr_get. cbn. rewrite lookup_empty. discriminate.
    - intros pre y post l1 s1 l2 s2 Hl (Hlen & Hkeys & Hrows) Hb.
      apply bind_Returns in Hb as (row & s3 & Hrow & Hb).
      injection Hb as <- _.
      apply newRow_spec in Hrow; [|exact Hw].
      destruct (zrange_prefix _ _ _ _ Hl) as [-> _].
      destruct (arr_set_next l1 (Z.of_nat (length pre)) row ltac:(lia)
                  Hlen Hkeys) as (L & K & Hother & Hthis).
      rewrite length_app. cbn [length].
      replace (Z.of_nat (length pre + 1)) with (Z.of_nat (length pre) + 1)
        by lia.
      split; [exact L|]. split; [exact K|].
      intros y' row' E.
      destruct (decide (y' = Z.of_nat (length pre))) as [->|Hne].
      + rewrite Hthis in E. injection E as <-. exact Hrow.
      + rewrite Hother in E by exact Hne. eauto. }
  unfold zrange in G. rewrite length_map, length_seq in G.
  replace (Z.of_nat (Z.to_nat (height - 0))) with height in G by lia.
  exact G.
Qed.

Lemma exactGrid_gridOf (width height : Z) (f : Z -> Z -> TileType) :
  0 <= width -> 0 <= height -> exactGrid (gridOf width height f) width height.
Proof.
  intros Hw Hh.
  apply (newGrid_spec width height (fun x y => ret (f x y)) 0 0);
    [exact Hw|exact Hh|].
  apply newGrid_pure. reflexivity.
Qed.

(** ** Calls that cannot throw on a grid *)

Lemma okO_bindO {A B} (c : Outcome A) (k : A -> Outcome B)
    (Q : A -> Prop) (R : B -> Prop) :
  okO c Q -> (forall a, Q a -> okO (k a) R) -> okO (bindO c k) R.
Proof. destruct c; cbn; auto. Qed.

Lemma okO_weaken {A} (c : Outcome A) (Q R : A -> Prop) :
  okO c Q -> (forall a, Q a -> R a) -> okO c R.
Proof. destruct c; cbn; auto. Qed.

Lemma okO_forO {A S} (I : list A -> S -> Prop) (l : list A)
    (body : A -> S -> Outcome S) (s0 : S) :
  I [] s0 ->
  (forall pre a post s1,
      l = pre ++ a :: post -> I pre s1 -> okO (body a s1) (I (pre ++ [a]))) ->
  okO (forO l s0 body) (I l).
Proof.
  intros H0 Hstep.
  assert (G : forall post pre s1,
             l = pre ++ post -> I pre s1 -> okO (forO post s1 body) (I l)).
  { induction post as [|a post IH]; intros pre s1 Hl Hpre.
    - cbn. rewrite Hl, app_nil_r. exact Hpre.
    - cbn [forO]. eapply okO_bindO; [apply (Hstep pre a post s1 Hl Hpre)|].
      intros s2 H2. apply (IH (pre ++ [a])); [|exact H2].
      rewrite <- app_assoc. exact Hl. }
  apply (G l [] s0); auto.
Qed.

Lemma okO_exists {A} (c : Outcome A) (Q : A -> Prop) :
  (exists a, c = Returns a /\ Q a) -> okO c Q.
Proof. intros (a & -> & H). exact H. Qed.

Lemma floodLoop_ok layout width height :
  rowsDefined layout height ->
  forall (fuel : nat) visited region stack,
    (forall p, p ∈ region -> inGrid width height p) ->
    okO (floodLoop fuel layout width height visited region stack)
        (fun r => forall p, p ∈ fst r -> inGrid width height p).
Proof.
  intros Hrows. induction fuel as [|fuel IH]; intros visited region stack Hreg;
    [exact I|].
  cbn [floodLoop]. destruct stack as [|p stack]; [exact Hreg|].
  destruct ((vx p <? 0) || (width <=? vx p) || (vy p <? 0)
            || (height <=? vy p) || bool_decide ((vx p, vy p) ∈ visited))
    eqn:Eskip; [apply IH, Hreg|].
  repeat (apply orb_false_iff in Eskip as [Eskip ?]).
  apply Z.ltb_ge in Eskip. apply Z.leb_gt in H2.
  apply Z.ltb_ge in H1. apply Z.leb_gt in H0.
  rewrite isTile_cell by (apply Hrows; lia). cbn [bindO].
  destruct (negb _); [apply IH, Hreg|].
  apply IH. intros q Hq. apply elem_of_app in Hq as [Hq|Hq]; [auto|].
  apply list_elem_of_singleton in Hq as ->. split; lia.
Qed.

Lemma floodFill_ok layout width height (fuel : nat) visited x y :
  isGrid layout width height -> 0 < height ->
  okO (floodFill fuel layout visited x y)
      (fun r => forall p, p ∈ fst r -> inGrid width height p).
Proof.
  intros Hg Hh. pose proof (isGrid_rowsDefined _ _ _ Hg) as Hrows.
  unfold floodFill. destruct Hg as [Hlen Hrs]. rewrite Hlen.
  destruct (Hrs 0 ltac:(lia)) as (row0 & E0 & Hw0 & _).
  unfold firstRowLength. rewrite E0, Hw0. cbn [bindO].
  apply floodLoop_ok; [exact Hrows|]. intros p Hp. inversion Hp.
Qed.

Lemma carveHorizontal_ok (fuel : nat) layout width height x y endX :
  isGrid layout width height ->
  0 <= y < height -> 0 <= x < width -> 0 <= endX < width ->
  okO (carveHorizontal fuel layout x y endX)
      (fun r => isGrid (fst r) width height /\ snd r = endX).
Proof.
  revert layout x. induction fuel as [|fuel IH]; intros layout x Hg Hy Hx He;
    cbn [carveHorizontal]; destruct (Z.eqb_spec x endX) as [->|Hne];
    try (cbn; auto; fail).
  destruct (writeTile_grid layout width height y x FLOOR Hg Hx Hy)
    as (l1 & E1 & Hg1).
  rewrite E1. cbn [bindO]. apply IH; try assumption.
  destruct (Z.ltb_spec x endX); lia.
Qed.

Lemma carveVertical_ok (fuel : nat) layout width height x y endY :
  isGrid layout width height ->
  0 <= x < width -> 0 <= y < height -> 0 <= endY < height ->
  okO (carveVertical fuel layout x y endY)
      (fun r => isGrid (fst r) width height /\ snd r = endY).
Proof.
  revert layout y. induction fuel as [|fuel IH]; intros layout y Hg Hx Hy He;
    cbn [carveVertical]; destruct (Z.eqb_spec y endY) as [->|Hne];
    try (cbn; auto; fail).
  destruct (writeTile_grid layout width height y x FLOOR Hg Hx Hy)
    as (l1 & E1 & Hg1).
  rewrite E1. cbn [bindO]. apply IH; try assumption.
  destruct (Z.ltb_spec y endY); lia.
Qed.

Lemma carveConnection_ok (fuel : nat) layout width height start finish :
  isGrid layout width height ->
  inGrid width height start -> inGrid width height finish ->
  okO (carveConnection fuel layout start finish)
      (fun l => isGrid l width height).
Proof.
  intros Hg [Hsx Hsy] [Hfx Hfy]. unfold carveConnection.
  eapply okO_bindO; [apply (carveHorizontal_ok fuel layout width height);
                     eassumption|].
  intros [l1 x1] [Hg1 ->]. cbn [fst snd] in *.
  eapply okO_bindO; [apply (carveVertical_ok fuel l1 width height);
                     eassumption|].
  intros [l2 y2] [Hg2 ->]. cbn [fst snd] in *.
  destruct (writeTile_grid l2 width height (vy finish) (vx finish) FLOOR
              Hg2 Hfx Hfy) as (l3 & E3 & Hg3).
  rewrite E3. exact Hg3.
Qed.

Lemma closestPair_members (region1 region2 : list Vector2) d p1 p2 :
  closestPair region1 region2 = Some (d, (p1, p2)) ->
  p1 ∈ region1 /\ p2 ∈ region2.
Proof.
  intros E.
  assert (H : closestSoFar (closestPair region1 region2)
                (flat_map (fun p1 => map (fun p2 => (p1, p2)) region2)
                          region1))
    by exact (closestPair_outer region1 region2 None [] eq_refl).
  rewrite E in H. destruct H as (Hin & _).
  apply list_elem_of_In, in_flat_map in Hin as (a & Ha & Hb).
  apply in_map_iff in Hb as (b & [= <- <-] & Hb).
  rewrite !list_elem_of_In. auto.
Qed.

(** Whatever the fuel, connectivity repair on a full grid does not throw,
    and what it returns is a full grid. *)
Lemma ensureConnectivity_ok layout width height (fuel : nat) :
  isGrid layout width height -> 0 < height ->
  okO (ensureConnectivity fuel layout) (fun l => isGrid l width height).
Proof.
  intros Hg Hh. pose proof (isGrid_rowsDefined _ _ _ Hg) as Hrows.
  unfold ensureConnectivity.
  pose proof Hg as [Hlen Hrs]. rewrite Hlen.
  destruct (Hrs 0 ltac:(lia)) as (row0 & E0 & Hw0 & _).
  unfold firstRowLength. rewrite E0, Hw0. cbn [bindO].
  eapply okO_bindO.
  - apply (okO_forO (fun _ (st : list (list Vector2) * gset (Z * Z)) =>
             forall r p, r ∈ fst st -> p ∈ r -> inGrid width height p)).
    + intros r p Hr. inversion Hr.
    + intros pre y post st Hl Hst.
      assert (Hy : 0 <= y < height).
      { apply zrange_In. rewrite Hl. apply in_or_app. right. left.
        reflexivity. }
      apply (okO_forO (fun _ (st : list (list Vector2) * gset (Z * Z)) =>
               forall r p, r ∈ fst st -> p ∈ r -> inGrid width height p));
        [exact Hst|].
      intros pre' x post' [regions visited] Hl' Hst'. cbn [fst] in Hst'.
      rewrite isTile_cell by (apply Hrows; lia). cbn [bindO].
      destruct (_ && _); [|exact Hst'].
      eapply okO_bindO; [apply (floodFill_ok layout width height); assumption|].
      intros [region visited'] Hreg. cbn [fst] in Hreg.
      destruct (10 <? _); cbn [okO fst]; [|exact Hst'].
      intros r p Hr Hp. apply elem_of_app in Hr as [Hr|Hr]; [eauto|].
      apply list_elem_of_singleton in Hr as ->. auto.
  - intros [regions visited] Hregs. cbn [fst] in *.
    destruct regions as [|r0 [|r1 rest]]; [exact Hg|exact Hg|].
    apply (okO_forO (fun _ cur => isGrid cur width height)); [exact Hg|].
    intros pre r post cur Hl Hgc. unfold connectRegions.
    destruct (closestPair r0 r) as [[d [p1 p2]]|] eqn:Ecp; [|exact Hgc].
    apply closestPair_members in Ecp as [Hp1 Hp2].
    apply carveConnection_ok; [exact Hgc| |].
    + apply (Hregs r0 p1); [left|exact Hp1].
    + apply (Hregs r p2); [|exact Hp2]. right. rewrite Hl.
      apply elem_of_app. right. left.
Qed.

(** ** The grid of the strategies without rooms *)

Lemma writeTile_grid_inv layout width height y x t layout' :
  writeTile layout y x t = Returns layout' ->
  isGrid layout width height -> 0 <= x < width -> 0 <= y < height ->
  isGrid layout' width height.
Proof.
  intros E Hg Hx Hy.
  destruct (writeTile_grid layout width height y x t Hg Hx Hy)
    as (l & E' & Hg').
  rewrite E in E'. injection E' as ->. exact Hg'.
Qed.

Lemma smoothCaves_keeps_grid layout width height next :
  0 < height -> isGrid layout width height ->
  smoothCaves layout = Returns next -> isGrid next width height.
Proof.
  intros Hh Hg H.
  pose proof (isGrid_rowsDefined _ _ _ Hg) as Hrows.
  destruct (jsonCopy_grid _ _ _ Hg) as [Hcrows Hccell].
  unfold smoothCaves in H. pose proof Hg as [Hlen Hrs]. rewrite Hlen in H.
  destruct (Hrs 0 ltac:(lia)) as (row0 & E0 & Hw0 & _).
  unfold firstRowLength in H. rewrite E0, Hw0 in H. cbn [bindO] in H.
  set (copy := jsonCopy (jsonCopy (fun t : TileType => t)) layout) in *.
  destruct (forO (zrange 1 (height - 1)) copy _) as [nl| |] eqn:E1;
    try discriminate.
  cbn [bindO] in H.
  assert (Hnl : rowsDefined nl height /\
                forall x y, 0 <= x < width -> 0 <= y < height ->
                            is_Some (cell nl x y)).
  { revert E1.
    apply (forO_inv (fun _ (cur : Layout) =>
             rowsDefined cur height /\
             forall x y, 0 <= x < width -> 0 <= y < height ->
                         is_Some (cell cur x y))).
    - split; [exact Hcrows|]. intros x y Hx Hy. rewrite Hccell by assumption.
      eapply isGrid_cell; eauto.
    - intros pre y post cur cur' _ IH.
      apply (forO_inv (fun _ (cur : Layout) =>
               rowsDefined cur height /\
               forall x y, 0 <= x < width -> 0 <= y < height ->
                           is_Some (cell cur x y))); [exact IH|].
      clear IH. intros pre' x post' c1 c2 _ [Hr Hc] Hb.
      destruct (smoothCount layout x y) as [n| |]; try discriminate.
      cbn [bindO] in Hb.
      destruct (writeTile_rows _ _ _ _ _ Hb) as [_ Hrows'].
      split.
      + intros y' Hy'. apply Hrows', Hr, Hy'.
      + intros x' y' Hx' Hy'. rewrite (cell_writeTile _ _ _ _ _ Hb).
        case_decide; [eauto|auto]. }
  destruct Hnl as [Hnlrows Hnlcell].
  revert H.
  apply (forO_inv (fun _ (cur : Layout) => isGrid cur width height));
    [exact Hg|].
  intros pre y post cur cur' Hl IH.
  assert (Hy : 0 <= y < height).
  { apply zrange_In. rewrite Hl. apply in_or_app. right. left. reflexivity. }
  apply (forO_inv (fun _ (cur : Layout) => isGrid cur width height));
    [exact IH|].
  clear IH. intros pre' x post' c1 c2 Hl' Hg1 Hb.
  assert (Hx : 0 <= x < width).
  { apply zrange_In. rewrite Hl'. apply in_or_app. right. left. reflexivity. }
  rewrite readTile_cell in Hb by (apply Hnlrows; lia). cbn [bindO] in Hb.
  destruct (Hnlcell x y Hx Hy) as [t Et]. rewrite Et in Hb.
  eapply (writeTile_grid_inv c1 width height y x t); eauto.
Qed.

Lemma generateBinaryTree_grid (options : MazeGenerationOptions)
    (s s' : Z) (layout : Layout) :
  0 <= opt_width options -> 0 <= opt_height options ->
  generateBinaryTree options s = Returns (layout, s') ->
  isGrid layout (opt_width options) (opt_height options).
Proof.
  intros Hw Hh. unfold generateBinaryTree.
  set (width := opt_width options) in *.
  set (height := opt_height options) in *.
  intros H. apply bind_Returns in H as (l0 & s0 & E0 & H).
  apply newGrid_spec in E0; [|assumption|assumption].
  revert H.
  apply (forM_inv (fun _ (cur : Layout) => isGrid cur width height)).
  { apply exactGrid_isGrid, E0. }
  intros pre y post cur s1 cur' s2 Hl IH.
  assert (Hy : 1 <= y < height - 1).
  { assert (Hin : In y (zrange_step 1 (height - 1) 2))
      by (rewrite Hl; apply in_or_app; right; left; reflexivity).
    apply zrange_step_In in Hin as (k & -> & ? & ?). lia. }
  apply (forM_inv (fun _ (cur : Layout) => isGrid cur width height));
    [exact IH|].
  clear IH. intros pre' x post' c1 s3 c2 s4 Hl' Hg1 Hb.
  assert (Hx : 1 <= x < width - 1).
  { assert (Hin : In x (zrange_step 1 (width - 1) 2))
      by (rewrite Hl'; apply in_or_app; right; left; reflexivity).
    apply zrange_step_In in Hin as (k & -> & ? & ?). lia. }
  apply treeSite_inv in Hb as (l1 & E1 & Hcase).
  assert (Hg2 : isGrid l1 width height)
    by (eapply writeTile_grid_inv; eauto; lia).
  destruct Hcase as [(_ & _ & ->)|[[_ E2]|[_ E2]]]; [exact Hg2| |];
    eapply writeTile_grid_inv; eauto; lia.
Qed.

Lemma carve_grid Math_sin (fuel : nat) (seed : Z)
    (options : MazeGenerationOptions) (s s' : Z) (layout : Layout) :
  opt_algorithm options <> RECURSIVE_BACKTRACKING ->
  0 < opt_width options -> 0 < opt_height options ->
  carve Math_sin fuel seed options s = Returns (layout, s') ->
  isGrid layout (opt_width options) (opt_height options).
Proof.
  intros Halg Hw Hh. unfold carve.
  destruct (opt_algorithm options); [congruence| | |].
  - unfold generateCellularAutomata.
    set (width := opt_width options) in *.
    set (height := opt_height options) in *.
    intros H. apply bind_Returns in H as (l0 & s0 & E0 & H).
    apply newGrid_spec in E0; [|lia|lia].
    apply bind_Returns in H as (l1 & s1 & E1 & H).
    apply liftO_Returns in E1 as [E1 _]. apply liftO_Returns in H as [H _].
    assert (Hg1 : isGrid l1 width height).
    { revert E1.
      apply (forO_inv (fun _ (cur : Layout) => isGrid cur width height)).
      - apply exactGrid_isGrid, E0.
      - intros pre i post cur cur' _ Hg Hb.
        rewrite applyCellularAutomataRules_block in Hb
          by (eapply isGrid_rowsDefined; eauto).
        injection Hb as <-. apply exactGrid_isGrid, exactGrid_gridOf; lia. }
    pose proof (ensureConnectivity_ok l1 width height fuel Hg1 Hh) as Hok.
    rewrite H in Hok. exact Hok.
  - apply generateBinaryTree_grid; lia.
  - unfold generatePerlinCaves.
    set (width := opt_width options) in *.
    set (height := opt_height options) in *.
    intros H. apply bind_Returns in H as (l0 & s0 & E0 & H).
    apply newGrid_spec in E0; [|lia|lia].
    apply liftO_Returns in H as [H _]. revert H.
    apply (forO_inv (fun _ (cur : Layout) => isGrid cur width height)).
    + apply exactGrid_isGrid, E0.
    + intros pre i post cur cur' _ Hg Hb.
      eapply smoothCaves_keeps_grid; eauto.
Qed.

Lemma placeSpecialTiles_grid layout width height doors final :
  placeSpecialTiles layout doors = Returns final ->
  isGrid layout width height ->
  (forall d, Some d ∈ doors -> inGrid width height d) ->
  isGrid final width height.
Proof.
  unfold placeSpecialTiles. intros H Hg Hd. revert H.
  apply (forO_inv (fun _ (cur : Layout) => isGrid cur width height));
    [exact Hg|].
  intros pre [d|] post cur cur' Hl Hgc Hb; [|discriminate].
  destruct (Hd d) as [Hx Hy].
  { rewrite Hl. apply elem_of_app. right. left. }
  eapply writeTile_grid_inv; eauto.
Qed.

Lemma insideBorder_inGrid layout width height d :
  isGrid layout width height -> insideBorder layout d ->
  1 <= vx d < width - 1 /\ 1 <= vy d < height - 1.
Proof.
  intros [Hlen Hrows] (Hy & row & Erow & Hx).
  destruct (Hrows (vy d) ltac:(lia)) as (row' & Erow' & Hlr & _).
  rewrite Erow in Erow'. injection Erow' as <-. lia.
Qed.

(** The returned layout of a call whose carved layout was a full grid: a
    full grid with a wall on every border cell. *)
Lemma border_of_grid Math_sin fuel this options now m g layout s :
  carve Math_sin fuel (gen_seed this) options (gen_state this)
  = Returns (layout, s) ->
  isGrid layout (opt_width options) (opt_height options) ->
  0 < opt_width options -> 0 < opt_height options ->
  generateMaze Math_sin fuel this options now = Returns (m, g) ->
  isGrid (maze_layout m) (opt_width options) (opt_height options) /\
  forall x y,
    0 <= x < opt_width options -> 0 <= y < opt_height options ->
    x = 0 \/ x = opt_width options - 1 \/
    y = 0 \/ y = opt_height options - 1 ->
    cell (maze_layout m) x y = Some WALL.
Proof.
  intros Hc Hfull Hw Hh H.
  destruct (generateMaze_stages _ _ _ _ _ _ _ H)
    as (walled & doors & s1 & s2 & Hwalled & Hd & Hp & _).
  unfold layoutBeforeBaking in Hwalled. rewrite Hc in Hwalled.
  cbn [bindO fst] in Hwalled.
  destruct (ensureBoundaryWalls_grid _ _ _ Hfull Hw Hh)
    as (walled' & E & Hg & Hwall).
  rewrite E in Hwalled. injection Hwalled as ->.
  destruct (generateDoorPositions_spec _ _ _ _ Hd) as (_ & Hinside & _).
  assert (Hdoors : forall d, Some d ∈ doors ->
                     1 <= vx d < opt_width options - 1 /\
                     1 <= vy d < opt_height options - 1).
  { intros d Hin. eapply insideBorder_inGrid; [exact Hg|]. apply Hinside, Hin. }
  split.
  - eapply placeSpecialTiles_grid; [exact Hp|exact Hg|].
    intros d Hin. destruct (Hdoors d Hin). split; lia.
  - intros x y Hx Hy Hborder.
    rewrite (placeSpecialTiles_cells _ _ _ x y Hp);
      [apply Hwall; assumption|].
    intros d Hin [Hdx Hdy]. destruct (Hdoors d Hin). lia.
Qed.

(** X12: the three strategies that never write outside the grid: with cellular
    automata, the binary tree or the noise caves and positive dimensions,
    the returned layout is a full width x height grid and every cell of
    its border is a wall. *)
Theorem border_is_wall_without_rooms
    (Math_sin : Q -> Q) (fuel : nat) (this : MazeGenerator)
    (options : MazeGenerationOptions) (now : Z)
    (m : MazeData) (g : MazeGenerator) :
  opt_algorithm options <> RECURSIVE_BACKTRACKING ->
  0 < opt_width options -> 0 < opt_height options ->
  generateMaze Math_sin fuel this options now = Returns (m, g) ->
  isGrid (maze_layout m) (opt_width options) (opt_height options) /\
  forall x y,
    0 <= x < opt_width options -> 0 <= y < opt_height options ->
    x = 0 \/ x = opt_width options - 1 \/
    y = 0 \/ y = opt_height options - 1 ->
    cell (maze_layout m) x y = Some WALL.
Proof.
  intros Halg Hw Hh H.
  destruct (carve Math_sin fuel (gen_seed this) options (gen_state this))
    as [[layout s]| |] eqn:Ec.
  - eapply border_of_grid; eauto. eapply carve_grid; eauto.
  - unfold generateMaze, bind in H. rewrite Ec in H. discriminate.
  - unfold generateMaze, bind in H. rewrite Ec in H. discriminate.
Qed.

(** ** Recursive backtracking: the passages *)

Lemma filter_nil_false {A} (f : A -> bool) (l : list A) :
  List.filter f l = [] -> forall x, In x l -> f x = false.
Proof.
  intros E x Hx. destruct (f x) eqn:Ef; [|reflexivity].
  assert (H : In x (List.filter f l)) by (apply filter_In; auto).
  rewrite E in H. destruct H.
Qed.

Lemma randomIndex_state n s i s' :
  randomIndex n s = Returns (i, s') -> s' = lcg s.
Proof. unfold randomIndex, bind, rng, ret. intros [= _ <-]. reflexivity. Qed.

Lemma randomIndex_nonneg n s i s' :
  0 <= s -> randomIndex n s = Returns (i, s') -> 0 <= s'.
Proof.
  intros Hs H. apply randomIndex_state in H as ->. apply lcg_nonneg, Hs.
Qed.

Lemma randomIndex_in_range n s i s' :
  0 <= s -> 1 <= n -> randomIndex n s = Returns (i, s') ->
  0 <= i < n /\ 0 <= s'.
Proof.
  intros Hs Hn H. destruct (randomIndex_range n s Hs Hn) as (j & E & Hj).
  rewrite E in H. injection H as <- <-. split; [exact Hj|].
  apply lcg_nonneg, Hs.
Qed.

(** The rule of [forM] with an invariant that also speaks of the random
    state. *)
Lemma forM_inv_state {A S} (I : list A -> S -> Z -> Prop) (l : list A)
    (body : A -> S -> M S) (s0 s : S) (st0 st : Z) :
  I [] s0 st0 ->
  (forall pre a post s1 st1 s2 st2,
      l = pre ++ a :: post -> I pre s1 st1 ->
      body a s1 st1 = Returns (s2, st2) -> I (pre ++ [a]) s2 st2) ->
  forM l s0 body st0 = Returns (s, st) -> I l s st.
Proof.
  intros H0 Hstep.
  assert (G : forall post pre s1 st1,
             l = pre ++ post -> I pre s1 st1 ->
             forM post s1 body st1 = Returns (s, st) -> I l s st).
  { induction post as [|a post IH]; intros pre s1 st1 Hl Hpre Hrun.
    - cbn in Hrun. injection Hrun as <- <-.
      rewrite Hl, app_nil_r. exact Hpre.
    - cbn in Hrun. unfold bind in Hrun.
      destruct (body a s1 st1) as [[s2 st2]| |] eqn:E; try discriminate.
      apply (IH (pre ++ [a]) s2 st2).
      + rewrite <- app_assoc. exact Hl.
      + eapply Hstep; eauto.
      + exact Hrun. }
  intros Hrun. apply (G l [] s0 st0); auto.
Qed.

Lemma neighbor_spec (width height : Z) (visited : gset (Z * Z))
    (current next : Vector2) :
  In next (List.filter (fun n =>
             (0 <? vx n) && (vx n <? width - 1) &&
             (0 <? vy n) && (vy n <? height - 1) &&
             negb (bool_decide (key n ∈ visited)))
           (map (fun dir => mkV (vx current + vx dir) (vy current + vy dir))
                directions)) ->
  0 < vx next < width - 1 /\ 0 < vy next < height - 1 /\
  (key next ∉ visited) /\
  ((vx next = vx current /\
    (vy next = vy current - 2 \/ vy next = vy current + 2)) \/
   (vy next = vy current /\
    (vx next = vx current - 2 \/ vx next = vx current + 2))).
Proof.
  intros H. apply filter_In in H as [Hin Hf].
  repeat (apply andb_true_iff in Hf as [Hf ?]).
  apply Z.ltb_lt in Hf. apply Z.ltb_lt in H2. apply Z.ltb_lt in H1.
  apply Z.ltb_lt in H0. apply negb_true_iff, bool_decide_eq_false in H.
  split; [lia|]. split; [lia|]. split; [exact H|].
  apply in_map_iff in Hin as (dir & <- & Hdir). cbn [vx vy].
  unfold directions in Hdir. cbn [In] in Hdir.
  destruct Hdir as [<-|[<-|[<-|[<-|[]]]]]; cbn [vx vy]; lia.
Qed.

Lemma wall_between (a b : Z) :
  (b = a -> a + (b - a) / 2 = a) /\
  (b = a - 2 -> a + (b - a) / 2 = a - 1) /\
  (b = a + 2 -> a + (b - a) / 2 = a + 1).
Proof.
  repeat split; intros ->.
  - replace (a - a) with 0 by lia. change (0 / 2) with 0. lia.
  - replace (a - 2 - a) with (-2) by lia. change (-2 / 2) with (-1). lia.
  - replace (a + 2 - a) with 2 by lia. change (2 / 2) with 1. lia.
Qed.

Lemma odd_step (a b : Z) :
  Z.odd a = true -> b = a \/ b = a - 2 \/ b = a + 2 -> Z.odd b = true.
Proof.
  intros Ha [->|[->| ->]]; [exact Ha| |].
  - rewrite Z.odd_sub, Ha. reflexivity.
  - rewrite Z.odd_add, Ha. reflexivity.
Qed.

Lemma carvePassages_spec width height (fuel : nat) :
  forall layout visited stack s layout' s',
    carvePassages fuel width height layout visited stack s
    = Returns (layout', s') ->
    passagesInv width height layout visited stack ->
    exists visited', passagesInv width height layout' visited' [].
Proof.
  induction fuel as [|fuel IH]; intros layout visited stack s layout' s' H Hinv;
    [discriminate|].
  cbn [carvePassages] in H. destruct stack as [|current below].
  { injection H as <- _. exists visited. exact Hinv. }
  set (neighbors := List.filter _ _) in H.
  destruct Hinv as ((Hg & Hfloor) & H11 & Hvis & Hst & Hclosed).
  destruct (0 <? Z.of_nat (length neighbors)) eqn:En.
  - apply bind_Returns in H as (i & s1 & _ & H).
    destruct (nthZ neighbors i) as [next|] eqn:Enext; [|discriminate].
    apply nthZ_In, list_elem_of_In in Enext.
    apply neighbor_spec in Enext as (Hnx & Hny & Hfresh & Hdir).
    apply bind_Returns in H as (l1 & s2 & E1 & H).
    apply liftO_Returns in E1 as [E1 ->].
    apply bind_Returns in H as (l2 & s3 & E2 & H).
    apply liftO_Returns in E2 as [E2 ->].
    assert (Hcur : lattice width height current /\ floorAt layout current).
    { apply Hvis, Hst. left. }
    destruct Hcur as [(Hox & Hoy & Hcx & Hcy) Hcf].
    set (wx := vx current + (vx next - vx current) / 2) in *.
    set (wy := vy current + (vy next - vy current) / 2) in *.
    destruct (wall_between (vx current) (vx next)) as (Wx0 & Wx1 & Wx2).
    destruct (wall_between (vy current) (vy next)) as (Wy0 & Wy1 & Wy2).
    fold wx in Wx0, Wx1, Wx2. fold wy in Wy0, Wy1, Wy2.
    assert (Hw : 0 < wx < width - 1 /\ 0 < wy < height - 1 /\
                 manhattan current (mkV wx wy) = 1 /\
                 manhattan (mkV wx wy) next = 1).
    { unfold manhattan. cbn [vx vy].
      destruct Hdir as [[Ex [Ey|Ey]]|[Ey [Ex|Ex]]];
        first [rewrite (Wx0 Ex)|rewrite (Wx1 Ex)|rewrite (Wx2 Ex)];
        first [rewrite (Wy0 Ey)|rewrite (Wy1 Ey)|rewrite (Wy2 Ey)]; lia. }
    destruct Hw as (Hwx & Hwy & Hm1 & Hm2).
    assert (Hg1 : isGrid l1 width height)
      by (eapply writeTile_grid_inv; eauto; lia).
    assert (Hg2 : isGrid l2 width height)
      by (eapply writeTile_grid_inv; eauto; lia).
    assert (Hf2 : forall p, floorAt l2 p <->
                            p = next \/ p = mkV wx wy \/ floorAt layout p).
    { intros p. rewrite (floorAt_writeTile _ _ _ _ p E2).
      rewrite (floorAt_writeTile _ _ _ _ p E1).
      destruct next as [nx ny]. cbn [vx vy]. tauto. }
    assert (Hmono : forall p, floorAt layout p -> floorAt l2 p)
      by (intros p Hp; apply Hf2; auto).
    assert (Rw : reach l2 (mkV 1 1) (mkV wx wy)).
    { eapply reach_step; [|exact Hm1|apply Hf2; auto].
      eapply reach_mono; [exact Hmono|]. apply Hfloor, Hcf. }
    assert (Rn : reach l2 (mkV 1 1) next).
    { eapply reach_step; [exact Rw|exact Hm2|apply Hf2; auto]. }
    apply (IH _ _ _ _ _ _ H). split; [|split; [|split; [|split]]].
    + split; [exact Hg2|]. intros p Hp. apply Hf2 in Hp as [->|[->|Hp]].
      * split; [unfold interior; lia|exact Rn].
      * split; [unfold interior; cbn [vx vy]; lia|exact Rw].
      * destruct (Hfloor p Hp) as [Hi Hr]. split; [exact Hi|].
        eapply reach_mono; eauto.
    + apply elem_of_union. right. exact H11.
    + intros p Hp. apply elem_of_union in Hp as [Hp|Hp].
      * apply elem_of_singleton, key_inj in Hp. subst p.
        split; [|apply Hf2; auto].
        split; [|split; [|split; assumption]].
        -- apply (odd_step (vx current)); [exact Hox|lia].
        -- apply (odd_step (vy current)); [exact Hoy|lia].
      * destruct (Hvis p Hp) as [Hl Hf]. split; [exact Hl|apply Hmono, Hf].
    + intros s0 Hs0. apply elem_of_union.
      apply elem_of_cons in Hs0 as [->|Hs0].
      * left. apply elem_of_singleton. reflexivity.
      * right. apply Hst, Hs0.
    + intros p dir Hp Hnot Hd Hx Hy. apply elem_of_union. right.
      apply elem_of_union in Hp as [Hp|Hp].
      * apply elem_of_singleton, key_inj in Hp. subst p.
        exfalso. apply Hnot. left.
      * apply Hclosed; try assumption.
        intros Hin. apply Hnot. right. exact Hin.
  - assert (Hnil : neighbors = []).
    { apply Z.ltb_ge in En. clearbody neighbors.
      destruct neighbors as [|a rest]; [reflexivity|].
      cbn [length] in En. lia. }
    apply (IH _ _ _ _ _ _ H). split; [split; assumption|].
    split; [exact H11|]. split; [exact Hvis|]. split.
    + intros s0 Hs0. apply Hst. right. exact Hs0.
    + intros p dir Hp Hnot Hd Hx Hy.
      destruct (decide (p = current)) as [->|Hne].
      * pose proof (filter_nil_false _ _ Hnil
                      (mkV (vx current + vx dir) (vy current + vy dir))) as Hf.
        cbn [vx vy] in Hf.
        assert (Hin : In (mkV (vx current + vx dir) (vy current + vy dir))
                         (map (fun dir => mkV (vx current + vx dir)
                                              (vy current + vy dir))
                              directions)).
        { apply in_map_iff. exists dir. auto. }
        specialize (Hf Hin).
        replace (0 <? vx current + vx dir) with true in Hf
          by (symmetry; apply Z.ltb_lt; lia).
        replace (vx current + vx dir <? width - 1) with true in Hf
          by (symmetry; apply Z.ltb_lt; lia).
        replace (0 <? vy current + vy dir) with true in Hf
          by (symmetry; apply Z.ltb_lt; lia).
        replace (vy current + vy dir <? height - 1) with true in Hf
          by (symmetry; apply Z.ltb_lt; lia).
        cbn [andb] in Hf. apply negb_false_iff, bool_decide_eq_true in Hf.
        exact Hf.
      * apply Hclosed; try assumption.
        intros Hin. apply elem_of_cons in Hin as [?|Hin]; [contradiction|].
        apply Hnot, Hin.
Qed.

Lemma carvePassages_state width height (fuel : nat) :
  forall layout visited stack s layout' s',
    carvePassages fuel width height layout visited stack s
    = Returns (layout', s') -> 0 <= s -> 0 <= s'.
Proof.
  induction fuel as [|fuel IH]; intros layout visited stack s layout' s' H Hs;
    [discriminate|].
  cbn [carvePassages] in H. destruct stack as [|current below].
  { injection H as _ <-. exact Hs. }
  set (neighbors := List.filter _ _) in H.
  destruct (0 <? Z.of_nat (length neighbors)).
  - apply bind_Returns in H as (i & s1 & Ei & H).
    apply (randomIndex_nonneg _ _ _ _ Hs) in Ei.
    destruct (nthZ neighbors i) as [next|]; [|discriminate].
    apply bind_Returns in H as (l1 & s2 & E1 & H).
    apply liftO_Returns in E1 as [E1 ->].
    apply bind_Returns in H as (l2 & s3 & E2 & H).
    apply liftO_Returns in E2 as [E2 ->].
    eapply IH; eauto.
  - eapply IH; eauto.
Qed.

(** The search marks every lattice cell. *)
Lemma lattice_all_marked width height layout visited :
  passagesInv width height layout visited [] ->
  forall p, lattice width height p -> key p ∈ visited.
Proof.
  intros (_ & H11 & _ & _ & Hclosed).
  assert (G : forall (n : nat) p,
             lattice width height p -> Z.to_nat (vx p + vy p) = n ->
             key p ∈ visited).
  { induction n as [n IH] using lt_wf_ind.
    intros [px py] (Hox & Hoy & Hx & Hy) Hn. cbn [vx vy] in *.
    destruct (Z_lt_le_dec 1 px) as [Hpx|Hpx].
    - assert (Hq : key (mkV (px - 2) py) ∈ visited).
      { apply (IH (Z.to_nat (px - 2 + py))); [lia| |reflexivity].
        assert (Hodd : Z.odd (px - 2) = true)
          by (apply (odd_step px); auto).
        split; [exact Hodd|]. split; [exact Hoy|]. cbn [vx vy].
        assert (px - 2 <> 0) by (intros E; rewrite E in Hodd; discriminate).
        lia. }
      pose proof (Hclosed (mkV (px - 2) py) (mkV 2 0) Hq) as Hc.
      cbn [vx vy] in Hc.
      replace (px - 2 + 2) with px in Hc by lia.
      replace (py + 0) with py in Hc by lia.
      apply Hc; [intros Hin; inversion Hin| |lia|lia].
      unfold directions. cbn. auto.
    - assert (px = 1) by lia. subst px.
      destruct (Z_lt_le_dec 1 py) as [Hpy|Hpy].
      + assert (Hq : key (mkV 1 (py - 2)) ∈ visited).
        { apply (IH (Z.to_nat (1 + (py - 2)))); [lia| |reflexivity].
          assert (Hodd : Z.odd (py - 2) = true)
            by (apply (odd_step py); auto).
          split; [reflexivity|]. split; [exact Hodd|]. cbn [vx vy].
          assert (py - 2 <> 0) by (intros E; rewrite E in Hodd; discriminate).
          lia. }
        pose proof (Hclosed (mkV 1 (py - 2)) (mkV 0 2) Hq) as Hc.
        cbn [vx vy] in Hc.
        replace (py - 2 + 2) with py in Hc by lia.
        apply Hc; [intros Hin; inversion Hin| |lia|lia].
        unfold directions. cbn. auto.
      + assert (py = 1) by lia. subst py. exact H11. }
  intros p Hp. apply (G _ p Hp eq_refl).
Qed.

(** ** Recursive backtracking: the rooms *)

Lemma odd_in_pair (a : Z) : exists b, (b = a \/ b = a + 1) /\ Z.odd b = true.
Proof.
  destruct (Z.odd a) eqn:E; [exists a; auto|].
  exists (a + 1). split; [auto|]. rewrite Z.odd_add, E. reflexivity.
Qed.

Lemma connectRoomToMaze_spec width height layout roomX roomY roomWidth
    roomHeight s layout' s' :
  isGrid layout width height -> 0 < height ->
  connectRoomToMaze layout roomX roomY roomWidth roomHeight s
  = Returns (layout', s') ->
  (0 <= s -> 0 <= s') /\
  (layout' = layout \/
   exists c, writeTile layout (vy c) (vx c) FLOOR = Returns layout' /\
             besideRoom width height roomX roomY roomWidth roomHeight c).
Proof.
  intros Hg Hh H. destruct Hg as [Hlen Hrows].
  destruct (Hrows 0 ltac:(lia)) as (row0 & E0 & Hw0 & _).
  unfold connectRoomToMaze in H. rewrite Hlen in H.
  apply bind_Returns in H as (c1 & s1 & E1 & H).
  apply liftO_Returns in E1 as [E1 ->].
  apply bind_Returns in H as (c2 & s2 & E2 & H).
  apply liftO_Returns in E2 as [E2 ->].
  assert (H1 : forall c, c ∈ c1 ->
             besideRoom width height roomX roomY roomWidth roomHeight c).
  { revert E1.
    apply (forO_inv (fun _ (acc : list Vector2) =>
             forall c, c ∈ acc ->
               besideRoom width height roomX roomY roomWidth roomHeight c)).
    - intros c Hc. inversion Hc.
    - intros pre x post acc acc' Hl IH Hb.
      assert (Hx : roomX <= x < roomX + roomWidth).
      { apply zrange_In. rewrite Hl. apply in_or_app. right. left.
        reflexivity. }
      destruct (andO (1 <? roomY) _) as [top| |] eqn:Et; try discriminate.
      cbn [bindO] in Hb.
      destruct (andO (roomY + roomHeight <? height - 1) _)
        as [bottom| |] eqn:Eb; try discriminate.
      cbn [bindO] in Hb. injection Hb as <-.
      assert (Htop : top = true -> 1 < roomY).
      { intros ->. apply andO_true in Et as [Et _]. apply Z.ltb_lt, Et. }
      assert (Hbot : bottom = true -> roomY + roomHeight < height - 1).
      { intros ->. apply andO_true in Eb as [Eb _]. apply Z.ltb_lt, Eb. }
      intros c Hc.
      assert (Hcase : c ∈ acc \/ (top = true /\ c = mkV x (roomY - 1)) \/
                      (bottom = true /\ c = mkV x (roomY + roomHeight))).
      { destruct top, bottom;
          repeat (apply elem_of_app in Hc as [Hc|Hc]);
          try (apply list_elem_of_singleton in Hc); auto. }
      destruct Hcase as [Hc'|[[Ht ->]|[Hbt ->]]]; [auto| |];
        left; cbn [vx vy]; split; auto. }
  assert (H2 : forall c, c ∈ c2 ->
             besideRoom width height roomX roomY roomWidth roomHeight c).
  { revert E2.
    apply (forO_inv (fun _ (acc : list Vector2) =>
             forall c, c ∈ acc ->
               besideRoom width height roomX roomY roomWidth roomHeight c));
      [exact H1|].
    intros pre y post acc acc' Hl IH Hb.
    assert (Hy : roomY <= y < roomY + roomHeight).
    { apply zrange_In. rewrite Hl. apply in_or_app. right. left.
      reflexivity. }
    destruct (andO (1 <? roomX) _) as [left'| |] eqn:Et; try discriminate.
    cbn [bindO] in Hb. unfold firstRowLength in Hb. rewrite E0, Hw0 in Hb.
    cbn [bindO] in Hb.
    destruct (andO (roomX + roomWidth <? width - 1) _)
      as [right'| |] eqn:Eb; try discriminate.
    cbn [bindO] in Hb. injection Hb as <-.
    assert (Hleft : left' = true -> 1 < roomX).
    { intros ->. apply andO_true in Et as [Et _]. apply Z.ltb_lt, Et. }
    assert (Hright : right' = true -> roomX + roomWidth < width - 1).
    { intros ->. apply andO_true in Eb as [Eb _]. apply Z.ltb_lt, Eb. }
    intros c Hc.
    assert (Hcase : c ∈ acc \/ (left' = true /\ c = mkV (roomX - 1) y) \/
                    (right' = true /\ c = mkV (roomX + roomWidth) y)).
    { destruct left', right';
        repeat (apply elem_of_app in Hc as [Hc|Hc]);
        try (apply list_elem_of_singleton in Hc); auto. }
    destruct Hcase as [Hc'|[[Ht ->]|[Hbt ->]]]; [auto| |];
      right; cbn [vx vy]; split; auto. }
  destruct (0 <? Z.of_nat (length c2)).
  - apply bind_Returns in H as (i & s3 & Ei & H).
    destruct (nthZ c2 i) as [c|] eqn:Ec; [|discriminate].
    apply liftO_Returns in H as [H ->]. split.
    + intros Hs. eapply randomIndex_nonneg; eauto.
    + right. exists c. split; [exact H|]. apply H2. eapply nthZ_In; eauto.
  - injection H as <- <-. auto.
Qed.

Lemma rectangle_grid layout width height (ys xs : list Z) next :
  isGrid layout width height ->
  (forall y, In y ys -> 0 <= y < height) ->
  (forall x, In x xs -> 0 <= x < width) ->
  forO ys layout (fun y layout =>
    forO xs layout (fun x layout => writeTile layout y x FLOOR))
  = Returns next ->
  isGrid next width height.
Proof.
  intros Hg Hys Hxs.
  apply (forO_inv (fun _ (cur : Layout) => isGrid cur width height));
    [exact Hg|].
  intros pre y post cur cur' Hl IH.
  apply (forO_inv (fun _ (cur : Layout) => isGrid cur width height));
    [exact IH|].
  intros pre' x post' c1 c2 Hl' Hg1 Hb.
  eapply writeTile_grid_inv; [exact Hb|exact Hg1| |].
  - apply Hxs. rewrite Hl'. apply in_or_app. right. left. reflexivity.
  - apply Hys. rewrite Hl. apply in_or_app. right. left. reflexivity.
Qed.

(** One room: what [addRandomRooms] keeps. *)
Lemma addRandomRooms_spec width height layout minSize maxSize count
    s layout' s' :
  rooted width height layout ->
  (forall p, lattice width height p -> floorAt layout p) ->
  2 <= minSize <= maxSize -> maxSize + 3 <= width -> maxSize + 3 <= height ->
  0 <= s ->
  addRandomRooms layout minSize maxSize count s = Returns (layout', s') ->
  rooted width height layout' /\
  forall p, lattice width height p -> floorAt layout' p.
Proof.
  intros Hroot Hlat Hmin Hw Hh Hs H.
  pose proof Hroot as [[Hlen Hrows] _].
  destruct (Hrows 0 ltac:(lia)) as (row0 & E0 & Hw0 & _).
  unfold addRandomRooms in H. rewrite Hlen in H.
  apply bind_Returns in H as (w' & s0 & Ew & H).
  apply liftO_Returns in Ew as [Ew ->].
  unfold firstRowLength in Ew. rewrite E0, Hw0 in Ew. injection Ew as <-.
  assert (G : rooted width height layout' /\
              (forall p, lattice width height p -> floorAt layout' p) /\
              0 <= s'); [|split; apply G].
  revert H.
  apply (forM_inv_state (fun _ (cur : Layout) (st : Z) =>
           rooted width height cur /\
           (forall p, lattice width height p -> floorAt cur p) /\
           0 <= st)); [auto|].
  clear Hroot Hlat Hs Hlen Hrows row0 E0 Hw0.
  intros _ _ _ cur st cur' st' _ (Hroot & Hlat & Hs) Hb.
  apply bind_Returns in Hb as (a & s1 & Ea & Hb).
  apply randomIndex_in_range in Ea as [Ha Hs1]; [|exact Hs|lia].
  apply bind_Returns in Hb as (b & s2 & Eb & Hb).
  apply randomIndex_in_range in Eb as [Hb' Hs2]; [|exact Hs1|lia].
  apply bind_Returns in Hb as (c & s3 & Ec & Hb).
  apply randomIndex_in_range in Ec as [Hc Hs3]; [|exact Hs2|lia].
  apply bind_Returns in Hb as (d & s4 & Ed & Hb).
  apply randomIndex_in_range in Ed as [Hd Hs4]; [|exact Hs3|lia].
  set (rw := minSize + a) in *. set (rh := minSize + b) in *.
  set (rx := 1 + c) in *. set (ry := 1 + d) in *.
  assert (Hrw : 2 <= rw /\ rx + rw <= width - 2 /\ 1 <= rx) by (unfold rw, rx; lia).
  assert (Hrh : 2 <= rh /\ ry + rh <= height - 2 /\ 1 <= ry) by (unfold rh, ry; lia).
  clearbody rw rh rx ry. clear a b c d Ha Hb' Hc Hd Hs1 Hs2 Hs3.
  apply bind_Returns in Hb as (l1 & s5 & E1 & Hb).
  apply liftO_Returns in E1 as [E1 ->].
  destruct Hroot as [Hg Hfloor].
  assert (Hg1 : isGrid l1 width height).
  { eapply rectangle_grid; [exact Hg| | |exact E1].
    - intros y Hy. apply zrange_In in Hy. lia.
    - intros x Hx. apply zrange_In in Hx. lia. }
  destruct (paint (zrange ry (ry + rh)) (zrange rx (rx + rw))
              (fun _ _ => FLOOR) cur) as (l1' & E1' & _ & _ & Hin & Hout).
  { intros y Hy. apply zrange_In in Hy.
    apply (isGrid_rowsDefined _ _ _ Hg). lia. }
  cbv beta in E1'. rewrite E1 in E1'. injection E1' as <-.
  assert (Hf1 : forall p, floorAt l1 p <->
                  floorAt cur p \/
                  (rx <= vx p < rx + rw /\ ry <= vy p < ry + rh)).
  { intros p. unfold floorAt.
    destruct (decide (rx <= vx p < rx + rw /\ ry <= vy p < ry + rh))
      as [Hr|Hr].
    - rewrite Hin by (apply zrange_In; lia). tauto.
    - rewrite Hout; [tauto|]. rewrite !zrange_In. tauto. }
  destruct (odd_in_pair rx) as (lx & Hlx & Holx).
  destruct (odd_in_pair ry) as (ly & Hly & Holy).
  assert (Hl : lattice width height (mkV lx ly)).
  { split; [exact Holx|]. split; [exact Holy|]. cbn [vx vy]. lia. }
  assert (Hmono1 : forall p, floorAt cur p -> floorAt l1 p)
    by (intros p Hp; apply Hf1; auto).
  assert (Rl : reach l1 (mkV 1 1) (mkV lx ly)).
  { eapply reach_mono; [exact Hmono1|]. apply Hfloor, Hlat, Hl. }
  assert (Hroom : forall p, rx <= vx p < rx + rw -> ry <= vy p < ry + rh ->
                            reach l1 (mkV 1 1) p).
  { intros p Hpx Hpy. eapply reach_trans; [exact Rl|].
    apply reach_onPath. intros q Hq. apply Hf1. right.
    unfold onPath, between in Hq. cbn [vx vy] in Hq. lia. }
  assert (Hroot1 : forall p, floorAt l1 p ->
                     interior width height p /\ reach l1 (mkV 1 1) p).
  { intros p Hp. apply Hf1 in Hp as [Hp|[Hpx Hpy]].
    - destruct (Hfloor p Hp) as [Hi Hr]. split; [exact Hi|].
      eapply reach_mono; eauto.
    - split; [unfold interior; lia|auto]. }
  destruct (connectRoomToMaze_spec width height l1 rx ry rw rh s4 cur' st'
              Hg1 ltac:(lia) Hb) as [Hst [->|(cn & Ecn & Hbeside)]].
  { split; [split; assumption|]. split; [|auto].
    intros p Hp. apply Hmono1, Hlat, Hp. }
  assert (Hcn : interior width height cn /\
                exists q, (rx <= vx q < rx + rw /\ ry <= vy q < ry + rh) /\
                          manhattan q cn = 1).
  { unfold besideRoom in Hbeside. unfold interior, manhattan.
    destruct Hbeside as [[Hx [[Hy ?]|[Hy ?]]]|[Hy [[Hx ?]|[Hx ?]]]].
    - split; [lia|]. exists (mkV (vx cn) ry). cbn [vx vy]. lia.
    - split; [lia|]. exists (mkV (vx cn) (ry + rh - 1)). cbn [vx vy]. lia.
    - split; [lia|]. exists (mkV rx (vy cn)). cbn [vx vy]. lia.
    - split; [lia|]. exists (mkV (rx + rw - 1) (vy cn)). cbn [vx vy]. lia. }
  destruct Hcn as (Hicn & q & [Hqx Hqy] & Hm).
  assert (Hf2 : forall p, floorAt cur' p <-> p = cn \/ floorAt l1 p).
  { intros p. rewrite (floorAt_writeTile _ _ _ _ p Ecn).
    destruct cn; reflexivity. }
  assert (Hmono2 : forall p, floorAt l1 p -> floorAt cur' p)
    by (intros p Hp; apply Hf2; auto).
  split; [|split; [|auto]].
  - split.
    + eapply writeTile_grid_inv; [exact Ecn|exact Hg1| |];
        unfold interior in Hicn; lia.
    + intros p Hp. apply Hf2 in Hp as [->|Hp].
      * split; [exact Hicn|].
        eapply reach_step; [|exact Hm|apply Hf2; auto].
        eapply reach_mono; [exact Hmono2|]. apply Hroom; assumption.
      * destruct (Hroot1 p Hp) as [Hi Hr]. split; [exact Hi|].
        eapply reach_mono; eauto.
  - intros p Hp. apply Hmono2, Hmono1, Hlat, Hp.
Qed.

Lemma generateRecursiveBacktracking_rooted (fuel : nat)
    (options : MazeGenerationOptions) (s s' : Z) (layout : Layout) :
  roomsFit options -> 0 <= s ->
  generateRecursiveBacktracking fuel options s = Returns (layout, s') ->
  rooted (opt_width options) (opt_height options) layout /\
  forall p, lattice (opt_width options) (opt_height options) p ->
            floorAt layout p.
Proof.
  intros (Hmin & Hw & Hh) Hs. unfold generateRecursiveBacktracking.
  set (width := opt_width options) in *.
  set (height := opt_height options) in *.
  intros H. apply bind_Returns in H as (l0 & s0 & E0 & H).
  pose proof E0 as E0'.
  rewrite (newGrid_pure width height _ (fun _ _ => WALL)) in E0'
    by reflexivity.
  injection E0' as <- <-.
  apply newGrid_spec in E0; [|lia|lia].
  apply exactGrid_isGrid in E0.
  apply bind_Returns in H as (v0 & s1 & Ev & H).
  apply liftO_Returns in Ev as [Ev ->].
  assert (v0 = ∅) as ->.
  { unfold newVisited in Ev.
    destruct (height <? 0); [discriminate|].
    destruct ((0 <? height) && (width <? 0)); [discriminate|].
    injection Ev as <-. reflexivity. }
  apply bind_Returns in H as (l1 & s2 & E1 & H).
  apply liftO_Returns in E1 as [E1 ->].
  apply bind_Returns in H as (l2 & s3 & E2 & H).
  assert (Hg1 : isGrid l1 width height)
    by (eapply writeTile_grid_inv; eauto; lia).
  assert (Hf1 : forall p, floorAt l1 p <-> p = mkV 1 1).
  { intros p. rewrite (floorAt_writeTile _ _ _ _ p E1). split; [|auto].
    intros [?|Hp]; [assumption|].
    apply cell_gridOf_inv in Hp. discriminate. }
  pose proof (carvePassages_state _ _ _ _ _ _ _ _ _ E2 Hs) as Hs3.
  apply carvePassages_spec in E2 as (visited & Hinv).
  - pose proof (lattice_all_marked _ _ _ _ Hinv) as Hall.
    destruct Hinv as (Hroot & _ & Hvis & _).
    eapply addRandomRooms_spec; eauto.
    intros p Hp. apply Hvis, Hall, Hp.
  - split; [|split; [|split; [|split]]].
    + split; [exact Hg1|]. intros p Hp. apply Hf1 in Hp as ->.
      split; [unfold interior; cbn [vx vy]; lia|].
      apply reach_here, Hf1. reflexivity.
    + apply elem_of_union. left. apply elem_of_singleton. reflexivity.
    + intros p Hp. apply elem_of_union in Hp as [Hp|Hp];
        [|exfalso; revert Hp; apply not_elem_of_empty].
      apply elem_of_singleton in Hp.
      assert (p = mkV 1 1) as -> by (apply key_inj; exact Hp).
      split; [|apply Hf1; reflexivity].
      repeat split; cbn [vx vy]; lia.
    + intros s4 Hs4. apply list_elem_of_singleton in Hs4 as ->.
      apply elem_of_union. left. apply elem_of_singleton. reflexivity.
    + intros p dir Hp Hnot. exfalso. apply Hnot.
      apply elem_of_union in Hp as [Hp|Hp];
        [|exfalso; revert Hp; apply not_elem_of_empty].
      apply elem_of_singleton in Hp.
      assert (p = mkV 1 1) as -> by (apply key_inj; exact Hp). left.
Qed.

(** Boundary enforcement and door baking leave the floor of a rooted
    layout as it is. *)
Lemma rooted_floor_kept Math_sin fuel this options now m g layout s :
  carve Math_sin fuel (gen_seed this) options (gen_state this)
  = Returns (layout, s) ->
  rooted (opt_width options) (opt_height options) layout ->
  0 < opt_height options ->
  generateMaze Math_sin fuel this options now = Returns (m, g) ->
  forall p, floorAt (maze_layout m) p <-> floorAt layout p.
Proof.
  intros Hc [Hg Hfloor] Hh H.
  destruct (generateMaze_stages _ _ _ _ _ _ _ H)
    as (walled & doors & s1 & s2 & Hw & Hd & Hp & _).
  unfold layoutBeforeBaking in Hw. rewrite Hc in Hw. cbn [bindO fst] in Hw.
  pose proof Hg as [Hlen Hrows].
  destruct (Hrows 0 ltac:(lia)) as (row0 & E0 & Hw0 & _).
  assert (Ew : firstRowLength layout = Returns (opt_width options))
    by (unfold firstRowLength; rewrite E0, Hw0; reflexivity).
  destruct (ensureBoundaryWalls_floor _ _ _ Ew Hw) as [K1 K2].
  destruct (generateDoorPositions_spec _ _ _ _ Hd) as (_ & Hwall & _).
  pose proof (placeSpecialTiles_floor _ _ _ Hp) as Hbake.
  intros p. rewrite Hbake.
  - split; [apply K1|]. intros Hf.
    destruct (Hfloor p Hf) as [[Hx Hy] _].
    apply K2; try assumption; lia.
  - intros d Hin Hf. destruct (Hwall d Hin) as [Hwd _].
    unfold floorAt in Hf. congruence.
Qed.

Lemma rooted_connected Math_sin fuel this options now m g layout s :
  carve Math_sin fuel (gen_seed this) options (gen_state this)
  = Returns (layout, s) ->
  rooted (opt_width options) (opt_height options) layout ->
  0 < opt_height options ->
  generateMaze Math_sin fuel this options now = Returns (m, g) ->
  floorConnected (maze_layout m).
Proof.
  intros Hc Hroot Hh H.
  pose proof (rooted_floor_kept _ _ _ _ _ _ _ _ _ Hc Hroot Hh H) as Hsame.
  destruct Hroot as [Hg Hfloor].
  intros p q Hpf Hqf. apply Hsame in Hpf, Hqf.
  apply (reach_mono layout); [intros r0 Hr; apply Hsame; exact Hr|].
  apply (reach_trans _ _ (mkV 1 1)).
  - apply reach_sym, Hfloor, Hpf.
  - apply Hfloor, Hqf.
Qed.

(** ** Connectivity of the returned floor *)

(** A closed pocket with a floor cell inside and a floor cell outside: the
    floor is not connected. *)
Lemma pocket_not_connected layout pocket p q :
  closedPocket layout pocket = true -> p ∈ pocket -> q ∉ pocket ->
  floorAt layout p -> floorAt layout q -> ~ floorConnected layout.
Proof.
  intros Hc Hp Hq Hfp Hfq Hconn. apply Hq.
  eapply reach_in_pocket; [exact Hc|exact Hp|]. apply Hconn; assumption.
Qed.

(** C1, as stated, fails for three of the four strategies.  Cellular
    automata, 5 x 5, density 0.5, no iteration, seed 1: the returned grid
    has floor at (1, 1) and at (3, 3) and no walk over floor between them
    (every floor region of the carved grid has fewer than 11 cells, so
    [ensureConnectivity] joins nothing).  Recursive backtracking, 15 x 15,
    rooms of 1 x 1, seed 91: the room (6, 10) has walls on its four sides
    and no floor two cells away, so [connectRoomToMaze] opens nothing and
    the room stays apart.  Recursive backtracking, width 5 and height 15,
    one room of 6 x 6, seed 3: the room does not fit, it lengthens the rows
    7 to 12 to column 5, the boundary is enforced on column 4, and the
    floor of column 5 stays behind it.  Noise caves, 5 x 5, density 0.7,
    seed 35: floor at (1, 1) and at (1, 3) with the wall (1, 2), later a
    door, between them; nothing repairs connectivity in that strategy. *)
Lemma floor_left_apart :
  (let options := mkOptions 5 5 CELLULAR_AUTOMATA None (Some (1 # 2))
                            (Some 0) None None None in
   exists m g,
     generateMaze flatSin 1000 (newMazeGenerator (Some 1) 0) options 0
     = Returns (m, g) /\
     floorAt (maze_layout m) (mkV 1 1) /\
     floorAt (maze_layout m) (mkV 3 3) /\
     ~ floorConnected (maze_layout m)) /\
  (let options := mkOptions 15 15 RECURSIVE_BACKTRACKING None None None
                            (Some 1) (Some 1) None in
   exists m g,
     generateMaze flatSin 1000 (newMazeGenerator (Some 91) 0) options 0
     = Returns (m, g) /\
     floorAt (maze_layout m) (mkV 1 1) /\
     floorAt (maze_layout m) (mkV 6 10) /\
     ~ floorConnected (maze_layout m)) /\
  (let options := mkOptions 5 15 RECURSIVE_BACKTRACKING None None None
                            (Some 6) (Some 6) (Some 1) in
   exists m g,
     generateMaze flatSin 1000 (newMazeGenerator (Some 3) 0) options 0
     = Returns (m, g) /\
     floorAt (maze_layout m) (mkV 1 1) /\
     floorAt (maze_layout m) (mkV 5 8) /\
     ~ floorConnected (maze_layout m)) /\
  (let options := mkOptions 5 5 PERLIN_CAVES None (Some (lit (7 # 10)))
                            None None None None in
   exists m g,
     generateMaze tableSin 1000 (newMazeGenerator (Some 35) 0) options 0
     = Returns (m, g) /\
     floorAt (maze_layout m) (mkV 1 1) /\
     floorAt (maze_layout m) (mkV 1 3) /\
     ~ floorConnected (maze_layout m)).
Proof.
  cbv zeta. split; [|split; [|split]].
  - eexists. eexists. split; [vm_compute; reflexivity|].
    match goal with |- floorAt ?l _ /\ _ => set (layout := l) end.
    assert (H1 : floorAt layout (mkV 1 1)) by (vm_compute; reflexivity).
    assert (H3 : floorAt layout (mkV 3 3)) by (vm_compute; reflexivity).
    split; [exact H1|]. split; [exact H3|].
    apply (pocket_not_connected layout [mkV 3 3] (mkV 3 3) (mkV 1 1));
      [vm_compute; reflexivity|left| |exact H3|exact H1].
    intros Hin. apply list_elem_of_singleton in Hin. discriminate.
  - eexists. eexists. split; [vm_compute; reflexivity|].
    match goal with |- floorAt ?l _ /\ _ => set (layout := l) end.
    assert (H1 : floorAt layout (mkV 1 1)) by (vm_compute; reflexivity).
    assert (H3 : floorAt layout (mkV 6 10)) by (vm_compute; reflexivity).
    split; [exact H1|]. split; [exact H3|].
    apply (pocket_not_connected layout [mkV 6 10] (mkV 6 10) (mkV 1 1));
      [vm_compute; reflexivity|left| |exact H3|exact H1].
    intros Hin. apply list_elem_of_singleton in Hin. discriminate.
  - eexists. eexists. split; [vm_compute; reflexivity|].
    match goal with |- floorAt ?l _ /\ _ => set (layout := l) end.
    assert (H1 : floorAt layout (mkV 1 1)) by (vm_compute; reflexivity).
    assert (H3 : floorAt layout (mkV 5 8)) by (vm_compute; reflexivity).
    split; [exact H1|]. split; [exact H3|].
    apply (pocket_not_connected layout
             [mkV 5 7; mkV 5 8; mkV 5 9; mkV 5 10; mkV 5 11; mkV 5 12]
             (mkV 5 8) (mkV 1 1));
      [vm_compute; reflexivity|right; left| |exact H3|exact H1].
    intros Hin.
    repeat (apply elem_of_cons in Hin as [Hin|Hin]; [discriminate|]).
    inversion Hin.
  - eexists. eexists. split; [vm_compute; reflexivity|].
    match goal with |- floorAt ?l _ /\ _ => set (layout := l) end.
    assert (H1 : floorAt layout (mkV 1 1)) by (vm_compute; reflexivity).
    assert (H3 : floorAt layout (mkV 1 3)) by (vm_compute; reflexivity).
    split; [exact H1|]. split; [exact H3|].
    apply (pocket_not_connected layout [mkV 1 3] (mkV 1 3) (mkV 1 1));
      [vm_compute; reflexivity|left| |exact H3|exact H1].
    intros Hin. apply list_elem_of_singleton in Hin. discriminate.
Qed.

(** C1, amended: all floor cells of a returned layout form one connected
    component under 4-directional adjacency for the binary tree strategy,
    whatever the dimensions and the seed, and for recursive backtracking
    when the rooms fit the grid (sides from 2 up, the largest side at most
    width - 3 and height - 3) and the state of the generator is an integer
    in 0 .. 2^53 - 1. *)
Theorem floor_connected_tree_or_backtracking
    (Math_sin : Q -> Q) (fuel : nat) (this : MazeGenerator)
    (options : MazeGenerationOptions) (now : Z)
    (m : MazeData) (g : MazeGenerator) :
  opt_algorithm options = BINARY_TREE \/
  (opt_algorithm options = RECURSIVE_BACKTRACKING /\ roomsFit options /\
   0 <= gen_state this < 2 ^ 53) ->
  generateMaze Math_sin fuel this options now = Returns (m, g) ->
  floorConnected (maze_layout m).
Proof.
  intros [Halg|(Halg & Hfit & Hs)] H.
  - eapply binary_tree_floor_connected; eauto.
  - destruct (generateMaze_stages _ _ _ _ _ _ _ H)
      as (walled & _ & _ & _ & Hw & _).
    unfold layoutBeforeBaking in Hw.
    destruct (carve Math_sin fuel (gen_seed this) options (gen_state this))
      as [[layout s]| |] eqn:Ec; try discriminate.
    pose proof Ec as Ec'. unfold carve in Ec'. rewrite Halg in Ec'.
    apply generateRecursiveBacktracking_rooted in Ec';
      [|exact Hfit|lia].
    eapply rooted_connected; [exact Ec|apply Ec'| |exact H].
    destruct Hfit as (? & ? & ?). lia.
Qed.

Lemma floor_connected_tree_or_backtracking_witness :
  exists m g,
    (opt_algorithm (plainOptions 15 15 RECURSIVE_BACKTRACKING) = BINARY_TREE \/
     (opt_algorithm (plainOptions 15 15 RECURSIVE_BACKTRACKING)
      = RECURSIVE_BACKTRACKING /\
      roomsFit (plainOptions 15 15 RECURSIVE_BACKTRACKING) /\
      0 <= gen_state (newMazeGenerator (Some 1) 0) < 2 ^ 53)) /\
    generateMaze flatSin 1000 (newMazeGenerator (Some 1) 0)
                 (plainOptions 15 15 RECURSIVE_BACKTRACKING) 0
    = Returns (m, g) /\
    floorConnected (maze_layout m).
Proof.
  assert (Hyp : opt_algorithm (plainOptions 15 15 RECURSIVE_BACKTRACKING)
                = BINARY_TREE \/
     (opt_algorithm (plainOptions 15 15 RECURSIVE_BACKTRACKING)
      = RECURSIVE_BACKTRACKING /\
      roomsFit (plainOptions 15 15 RECURSIVE_BACKTRACKING) /\
      0 <= gen_state (newMazeGenerator (Some 1) 0) < 2 ^ 53)).
  { right. split; [reflexivity|]. split; [unfold roomsFit; simpl; lia|].
    simpl. lia. }
  eexists. eexists. split; [exact Hyp|].
  split; [vm_compute; reflexivity|].
  eapply (floor_connected_tree_or_backtracking flatSin 1000
            (newMazeGenerator (Some 1) 0)
            (plainOptions 15 15 RECURSIVE_BACKTRACKING) 0).
  - exact Hyp.
  - vm_compute. reflexivity.
Defined.

(** ** Small grids *)

(** The rule of [forM] when every step is known to return. *)
Lemma forM_total_state {A S} (I : list A -> S -> Z -> Prop) (l : list A)
    (body : A -> S -> M S) (s0 : S) (st0 : Z) :
  I [] s0 st0 ->
  (forall pre a post s1 st1,
      l = pre ++ a :: post -> I pre s1 st1 ->
      exists s2 st2, body a s1 st1 = Returns (s2, st2) /\
                     I (pre ++ [a]) s2 st2) ->
  exists s st, forM l s0 body st0 = Returns (s, st) /\ I l s st.
Proof.
  intros H0 Hstep.
  assert (G : forall post pre s1 st1,
             l = pre ++ post -> I pre s1 st1 ->
             exists s st, forM post s1 body st1 = Returns (s, st) /\ I l s st).
  { induction post as [|a post IH]; intros pre s1 st1 Hl Hpre.
    - exists s1, st1. split; [reflexivity|]. rewrite Hl, app_nil_r.
      exact Hpre.
    - destruct (Hstep pre a post s1 st1 Hl Hpre) as (s2 & st2 & E & H2).
      cbn [forM]. unfold bind. rewrite E.
      apply (IH (pre ++ [a]) s2 st2); auto.
      rewrite <- app_assoc. exact Hl. }
  apply (G l [] s0 st0); auto.
Qed.

Lemma randomTile_single (t : Vector2) (s : Z) :
  0 <= s -> randomTile [t] s = Returns (t, lcg s).
Proof.
  intros Hs. unfold randomTile, bind. cbn [length].
  destruct (randomIndex_range 1 s Hs ltac:(lia)) as (i & E & Hi).
  change (Z.of_nat 1) with 1. rewrite E.
  assert (i = 0) as -> by lia. reflexivity.
Qed.

Lemma spawnAttempts_first (n : nat) (t : Vector2) (s : Z) :
  0 <= s ->
  spawnAttempts (S n) [t] ([], ∅) s
  = Returns (([t], {[ key t ]} ∪ ∅), lcg s).
Proof.
  intros Hs. cbn [spawnAttempts]. unfold bind.
  rewrite (randomTile_single t s Hs).
  rewrite bool_decide_eq_false_2 by apply not_elem_of_empty.
  reflexivity.
Qed.

Lemma spawnAttempts_used (n : nat) (t : Vector2) (used : gset (Z * Z))
    (spawns : list Vector2) (s : Z) :
  0 <= s -> key t ∈ used ->
  exists s', spawnAttempts n [t] (spawns, used) s
             = Returns ((spawns, used), s') /\ 0 <= s'.
Proof.
  intros Hs Hin. revert s Hs. induction n as [|n IH]; intros s Hs.
  - exists s. split; [reflexivity|exact Hs].
  - cbn [spawnAttempts]. unfold bind. rewrite (randomTile_single t s Hs).
    rewrite (bool_decide_eq_true_2 _ Hin). cbn [negb].
    apply IH, lcg_nonneg, Hs.
Qed.

Lemma keyAttempts_used (n : nat) (t : Vector2) (count : Z)
    (used : gset (Z * Z)) (keys : list Vector2) (s : Z) :
  0 <= s -> key t ∈ used ->
  exists s', keyAttempts n [t] count (keys, used) s
             = Returns ((keys, used), s') /\ 0 <= s'.
Proof.
  intros Hs Hin. revert s Hs. induction n as [|n IH]; intros s Hs.
  - exists s. split; [reflexivity|exact Hs].
  - cbn [keyAttempts].
    destruct (Z.of_nat (length keys) <? count);
      [|exists s; split; [reflexivity|exact Hs]].
    unfold bind. rewrite (randomTile_single t s Hs).
    rewrite (bool_decide_eq_true_2 _ Hin). cbn [negb].
    apply IH, lcg_nonneg, Hs.
Qed.

(** With a single floor tile the one spawn point is that tile, whatever the
    fuel: the relaxed loop is not entered. *)
Lemma generateSpawnPoints_single (fuel : nat) (t : Vector2) (s : Z) :
  0 <= s ->
  exists s', generateSpawnPoints fuel [t] 4 s = Returns ([t], s') /\ 0 <= s'.
Proof.
  intros Hs. unfold generateSpawnPoints.
  destruct (forM_total_state
              (fun (pre : list Z) (st : SpawnState) z =>
                 0 <= z /\
                 ((pre = [] /\ st = ([], ∅)) \/
                  (pre <> [] /\ st = ([t], {[ key t ]} ∪ ∅))))
              (zrange 0 4)
              (fun (_ : Z) (st : SpawnState) =>
                 if Z.of_nat (length (fst st)) <? 4
                 then spawnAttempts 100 [t] st else ret st)
              ([], ∅) s) as (st & z & E & Hz & Hst).
  - auto.
  - intros pre a post s1 st1 _ [Hst1 [[-> ->]|[Hne ->]]].
    + cbn [fst length]. change (Z.of_nat 0 <? 4) with true. cbv iota.
      rewrite (spawnAttempts_first 99 t st1 Hst1).
      eexists. eexists. split; [reflexivity|].
      split; [apply lcg_nonneg, Hst1|]. right. split; [|reflexivity].
      discriminate.
    + cbn [fst length]. change (Z.of_nat 1 <? 4) with true. cbv iota.
      destruct (spawnAttempts_used 100 t ({[ key t ]} ∪ ∅) [t] st1 Hst1)
        as (s' & E & Hs'); [set_solver|].
      rewrite E. eexists. eexists. split; [reflexivity|].
      split; [exact Hs'|]. right. split; [|reflexivity].
      destruct pre; discriminate.
  - destruct Hst as [[Hnil _]|[_ ->]]; [discriminate|].
    unfold bind at 1. unfold bind at 1. rewrite E.
    exists z. split; [|exact Hz].
    destruct fuel; reflexivity.
Qed.

Lemma generateKeySpawns_single (t : Vector2) (s : Z) :
  0 <= s ->
  exists s', generateKeySpawns [t] [t] 6 s = Returns ([], s') /\ 0 <= s'.
Proof.
  intros Hs. unfold generateKeySpawns.
  set (used := list_to_set (map key [t]) : gset (Z * Z)).
  assert (Hin : key t ∈ used) by (unfold used; cbn; set_solver).
  destruct (forM_total_state
              (fun (pre : list Z) (st : SpawnState) z =>
                 0 <= z /\ st = ([], used))
              (zrange 0 6)
              (fun (_ : Z) (st : SpawnState) =>
                 if Z.of_nat (length (fst st)) <? 6
                 then keyAttempts 100 [t] 6 st else ret st)
              ([], used) s) as (st & z & E & Hz & ->).
  - auto.
  - intros pre a post s1 st1 _ [Hst1 ->].
    cbn [fst length]. change (Z.of_nat 0 <? 6) with true. cbv iota.
    destruct (keyAttempts_used 100 t 6 used [] st1 Hst1 Hin)
      as (s' & E & Hs').
    rewrite E. eauto.
  - unfold bind. rewrite E. exists z. split; [reflexivity|exact Hz].
Qed.

(** From a state that is not negative the selection returns, and every door
    it returns is one of the candidates. *)
Lemma selectDoors_total (potentialDoors : list Vector2) (count s : Z) :
  0 <= s ->
  exists doors s',
    selectDoors potentialDoors count s = Returns (doors, s') /\ 0 <= s' /\
    forall door, door ∈ doors ->
                 exists d, door = Some d /\ d ∈ potentialDoors.
Proof.
  intros Hs. unfold selectDoors.
  destruct (forM_total_state
              (fun (pre : list Z)
                   (st : list (option Vector2) * list Vector2) z =>
                 0 <= z /\
                 (forall door, door ∈ fst st ->
                    exists d, door = Some d /\ d ∈ potentialDoors) /\
                 (forall d, d ∈ snd st -> d ∈ potentialDoors))
              (zrange 0 count)
              (fun (_ : Z) (st : list (option Vector2) * list Vector2) =>
                 let '(doors, potentialDoors) := st in
                 if (Z.of_nat (length doors) <? count)
                    && (0 <? Z.of_nat (length potentialDoors))
                 then
                   let* index :=
                     randomIndex (Z.of_nat (length potentialDoors)) in
                   let '(door, potentialDoors) :=
                     splice1 potentialDoors index in
                   ret (doors ++ [door], potentialDoors)
                 else ret st)
              ([], potentialDoors) s) as (st & z & E & Hz & Hd & _).
  - split; [exact Hs|]. split; [|auto]. intros door Hin. inversion Hin.
  - intros pre a post [doors rest] st1 _ (Hst1 & Hd & Hr).
    cbn [fst snd] in Hd, Hr.
    destruct ((Z.of_nat (length doors) <? count)
              && (0 <? Z.of_nat (length rest))) eqn:Ec;
      [|exists (doors, rest), st1; split; [reflexivity|auto]].
    apply andb_true_iff in Ec as [_ Ec]. apply Z.ltb_lt in Ec.
    destruct (randomIndex_range (Z.of_nat (length rest)) st1 Hst1
                ltac:(lia)) as (i & Ei & Hi).
    unfold bind. rewrite Ei.
    destruct (splice1 rest i) as [door rest'] eqn:Esp.
    exists (doors ++ [door], rest'), (lcg st1).
    split; [reflexivity|]. split; [apply lcg_nonneg, Hst1|].
    pose proof (splice1_spec _ _ _ _ Esp) as Hsp.
    assert (Hsome : exists v, door = Some v).
    { unfold splice1 in Esp.
      destruct (i <? 0) eqn:Ei0; [apply Z.ltb_lt in Ei0; lia|].
      rewrite Z.min_l in Esp by lia.
      destruct (lookup_lt_is_Some_2 rest (Z.to_nat i) ltac:(lia))
        as [v Hv].
      rewrite Hv in Esp. injection Esp as <- _. eauto. }
    destruct Hsome as [v ->]. cbn [fst snd]. split.
    + intros door Hin. apply elem_of_app in Hin as [Hin|Hin]; [auto|].
      apply list_elem_of_singleton in Hin as ->. exists v.
      split; [reflexivity|]. apply Hr. rewrite Hsp. left.
    + intros d Hin. apply Hr. rewrite Hsp. right. exact Hin.
  - unfold bind at 1. rewrite E. exists (fst st), z. auto.
Qed.

Lemma placeSpecialTiles_total layout width height
    (doors : list (option Vector2)) :
  isGrid layout width height ->
  (forall door, door ∈ doors ->
     exists d, door = Some d /\ 0 <= vx d < width /\ 0 <= vy d < height) ->
  exists final, placeSpecialTiles layout doors = Returns final.
Proof.
  intros Hg Hd. unfold placeSpecialTiles.
  destruct (forO_total (fun _ (cur : Layout) => isGrid cur width height)
              doors
              (fun door layout =>
                 match door with
                 | None => Throws TypeError
                 | Some d => writeTile layout (vy d) (vx d) DOOR
                 end) layout Hg) as (final & E & _); [|eauto].
  intros pre door post cur Hl Hcur.
  destruct (Hd door) as (d & -> & Hx & Hy).
  { rewrite Hl. apply elem_of_app. right. left. }
  apply writeTile_grid; assumption.
Qed.

Lemma generateDoorPositions_total layout (cands pool : list Vector2)
    (s : Z) :
  0 <= s ->
  doorCandidates layout = Returns cands ->
  (if Z.of_nat (length cands) <? 3 then doorFallback layout cands
   else Returns cands) = Returns pool ->
  exists doors s',
    generateDoorPositions layout 3 s = Returns (doors, s') /\ 0 <= s' /\
    forall door, door ∈ doors -> exists d, door = Some d /\ d ∈ pool.
Proof.
  intros Hs Hc Hp. unfold generateDoorPositions, bind, liftO.
  rewrite Hc. cbn [bindO].
  destruct (Z.of_nat (length cands) <? 3).
  - rewrite Hp. apply selectDoors_total, Hs.
  - injection Hp as <-. apply selectDoors_total, Hs.
Qed.

Lemma bind_eq {A B} (c : M A) (k : A -> M B) (s : Z) (a : A) (s1 : Z) :
  c s = Returns (a, s1) -> bind c k s = k a s1.
Proof. unfold bind. intros ->. reflexivity. Qed.

Lemma bind_liftO_eq {A B} (c : Outcome A) (k : A -> M B) (s : Z) (a : A) :
  c = Returns a -> bind (liftO c) k s = k a s.
Proof. intros ->. reflexivity. Qed.

(** The binary tree on a grid of width and height 3 or 4: one floor tile,
    (1, 1), and a maze is returned from every state that is not negative,
    with any fuel. *)
Lemma small_binary_tree (Math_sin : Q -> Q) (fuel : nat) (seed s now : Z)
    (width height : Z) :
  3 <= width <= 4 -> 3 <= height <= 4 -> 0 <= s ->
  exists m s',
    (let* layout := carve Math_sin fuel seed
                          (plainOptions width height BINARY_TREE) in
     assemble fuel seed (plainOptions width height BINARY_TREE) now layout) s
    = Returns (m, s') /\
    maze_width m = width /\ maze_height m = height /\
    cell (maze_layout m) 1 1 = Some FLOOR /\
    maze_spawnPoints m = [mkV 1 1] /\
    maze_exitPosition m = mkV 1 1.
Proof.
  intros Hw Hh Hs.
  assert (Hcases : (width = 3 \/ width = 4) /\ (height = 3 \/ height = 4))
    by lia.
  destruct (generateSpawnPoints_single fuel (mkV 1 1) s Hs)
    as (s1 & E1 & Hs1).
  destruct (generateKeySpawns_single (mkV 1 1) s1 Hs1) as (s2 & E2 & Hs2).
  destruct Hcases as [[-> | ->] [-> | ->]].
  all: unfold carve; cbn [opt_algorithm plainOptions].
  all: erewrite (bind_eq (generateBinaryTree _))
         by (vm_compute; reflexivity).
  all: unfold assemble.
  all: erewrite bind_liftO_eq by (vm_compute; reflexivity).
  all: erewrite bind_liftO_eq by (vm_compute; reflexivity).
  all: rewrite (bind_eq _ _ _ _ _ E1), (bind_eq _ _ _ _ _ E2).
  all: match goal with
       | |- context [plainOptions ?width ?height BINARY_TREE] =>
         match goal with
         | |- context [generateDoorPositions ?w 3] =>
           edestruct generateDoorPositions_total with (layout := w) (s := s2)
             as (doors & s3 & E3 & Hs3 & Hd);
             [exact Hs2|vm_compute; reflexivity|vm_compute; reflexivity|];
           rewrite (bind_eq _ _ _ _ _ E3);
           destruct (placeSpecialTiles_total w width height doors
                       ltac:(apply fullGrid_isGrid; vm_compute; reflexivity))
             as (final & E4)
         end
       end.
  all: try (intros door Hin; destruct (Hd door Hin) as (d & -> & Hp);
            exists d; split; [reflexivity|];
            repeat (apply elem_of_cons in Hp as [->|Hp]);
            first [solve [inversion Hp] | cbn [vx vy]; lia]).
  all: match goal with
       | |- context [generateExitPosition ?a ?b] =>
         change (generateExitPosition a b) with (Some (mkV 1 1))
       end.
  all: cbv iota; rewrite (bind_liftO_eq _ _ _ _ E4).
  all: eexists; eexists; split; [reflexivity|].
  all: cbn [maze_width maze_height maze_layout maze_spawnPoints
            maze_exitPosition opt_width opt_height plainOptions].
  all: repeat (split; [reflexivity|]); split; [|auto].
  all: rewrite (placeSpecialTiles_cells _ _ _ 1 1 E4);
    [vm_compute; reflexivity|].
  all: intros d Hin [Hx Hy]; destruct (Hd _ Hin) as (d' & [= <-] & Hp).
  all: repeat (apply elem_of_cons in Hp as [->|Hp]);
    first [solve [inversion Hp] | cbn [vx vy] in *; lia].
Qed.

(** C3, amended: [generateMaze] checks no dimension.  Whatever the options,
    a call that throws ends in a TypeError or a RangeError of the runtime,
    never in a ConfigurationError; and with the binary tree strategy and
    width and height 3 or 4, on a generator whose state is an integer in
    0 .. 2^53 - 1, the call carves and returns a maze of that width and
    height with floor at (1, 1), where its one spawn point and its exit
    are. *)
Theorem small_dimensions_are_generated :
  (forall Math_sin fuel this options now e,
      generateMaze Math_sin fuel this options now = Throws e ->
      e = TypeError \/ e = RangeError) /\
  (forall Math_sin fuel this now width height,
      3 <= width <= 4 -> 3 <= height <= 4 ->
      0 <= gen_state this < 2 ^ 53 ->
      exists m g,
        generateMaze Math_sin fuel this
                     (plainOptions width height BINARY_TREE) now
        = Returns (m, g) /\
        maze_width m = width /\ maze_height m = height /\
        cell (maze_layout m) 1 1 = Some FLOOR /\
        maze_spawnPoints m = [mkV 1 1] /\
        maze_exitPosition m = mkV 1 1).
Proof.
  split.
  - intros Math_sin fuel this options now e H.
    pose proof (jsOnly_generateMaze Math_sin fuel this options now) as J.
    rewrite H in J. exact J.
  - intros Math_sin fuel this now width height Hw Hh Hs.
    destruct (small_binary_tree Math_sin fuel (gen_seed this)
                (gen_state this) now width height Hw Hh ltac:(lia))
      as (m & s' & E & Hm).
    exists m, (mkGenerator (gen_seed this) s'). split; [|exact Hm].
    unfold generateMaze. rewrite E. reflexivity.
Qed.

Lemma small_dimensions_are_generated_witness :
  exists m g,
    generateMaze flatSin 0 (newMazeGenerator (Some 1) 0)
                 (plainOptions 4 4 BINARY_TREE) 0 = Returns (m, g) /\
    maze_width m = 4 /\ maze_height m = 4 /\
    cell (maze_layout m) 1 1 = Some FLOOR /\
    maze_spawnPoints m = [mkV 1 1] /\
    maze_exitPosition m = mkV 1 1.
Proof.
  apply (proj2 small_dimensions_are_generated flatSin 0%nat
           (newMazeGenerator (Some 1) 0) 0 4 4); simpl; lia.
Defined.

(** ** Doors inside the border *)

(** When the strategy is not recursive backtracking, or its rooms fit the
    grid, the layout handed to the placement is a full grid of the
    requested size. *)
Lemma layoutBeforeBaking_grid Math_sin fuel this options walled :
  opt_algorithm options <> RECURSIVE_BACKTRACKING \/
  (roomsFit options /\ 0 <= gen_state this < 2 ^ 53) ->
  0 < opt_width options -> 0 < opt_height options ->
  layoutBeforeBaking Math_sin fuel this options = Returns walled ->
  isGrid walled (opt_width options) (opt_height options).
Proof.
  intros Hcond Hpw Hph Hw. unfold layoutBeforeBaking in Hw.
  destruct (carve Math_sin fuel (gen_seed this) options (gen_state this))
    as [[layout s0]| |] eqn:Ec; try discriminate.
  cbn [bindO fst] in Hw.
  assert (Hg : isGrid layout (opt_width options) (opt_height options)).
  { destruct (opt_algorithm options) eqn:Ealg.
    - destruct Hcond as [Hne|[Hfit Hs]]; [congruence|].
      unfold carve in Ec. rewrite Ealg in Ec.
      apply generateRecursiveBacktracking_rooted in Ec;
        [apply Ec|exact Hfit|lia].
    - eapply carve_grid; eauto. rewrite Ealg. discriminate.
    - eapply carve_grid; eauto. rewrite Ealg. discriminate.
    - eapply carve_grid; eauto. rewrite Ealg. discriminate. }
  destruct (ensureBoundaryWalls_grid _ _ _ Hg Hpw Hph)
    as (walled' & E & Hg' & _).
  rewrite E in Hw. injection Hw as <-. exact Hg'.
Qed.

(** C7, amended: in every returned maze [doorPositions] holds at most 3
    coordinates, and each of them was a wall of the layout before the doors
    were baked in, in neither the first nor the last row of that layout and
    in neither the first nor the last column of its own row.  For a
    strategy other than recursive backtracking, or when the rooms fit the
    grid, and with positive width and height, that is strictly inside the
    border of the width x height grid.  When the first scan of that layout
    finds at least 3 candidates (such walls with a floor neighbour), the
    door positions are pairwise distinct and have each at least one
    4-directionally adjacent floor cell in that layout. *)
Theorem door_positions_were_walls
    (Math_sin : Q -> Q) (fuel : nat) (this : MazeGenerator)
    (options : MazeGenerationOptions) (now : Z)
    (m : MazeData) (g : MazeGenerator) :
  generateMaze Math_sin fuel this options now = Returns (m, g) ->
  exists walled,
    layoutBeforeBaking Math_sin fuel this options = Returns walled /\
    (length (maze_doorPositions m) <= 3)%nat /\
    Forall (fun d => cell walled (vx d) (vy d) = Some WALL /\
                     insideBorder walled d)
           (maze_doorPositions m) /\
    (opt_algorithm options <> RECURSIVE_BACKTRACKING \/
     (roomsFit options /\ 0 <= gen_state this < 2 ^ 53) ->
     0 < opt_width options -> 0 < opt_height options ->
     Forall (interior (opt_width options) (opt_height options))
            (maze_doorPositions m)) /\
    (forall potentialDoors,
        doorCandidates walled = Returns potentialDoors ->
        (3 <= length potentialDoors)%nat ->
        NoDup (maze_doorPositions m) /\
        Forall (candidate walled) (maze_doorPositions m)).
Proof.
  intros H.
  destruct (generateMaze_stages _ _ _ _ _ _ _ H)
    as (walled & doors & s & s' & Hw & Hd & _ & ->).
  exists walled. split; [exact Hw|].
  destruct (generateDoorPositions_spec _ _ _ _ Hd) as (Hlen & Hwall & Hcand).
  split; [pose proof (definedDoors_length doors); lia|].
  split; [|split].
  - apply Forall_forall. intros d Hin. apply Hwall, elem_of_definedDoors.
    exact Hin.
  - intros Hcond Hpw Hph.
    pose proof (layoutBeforeBaking_grid _ _ _ _ _ Hcond Hpw Hph Hw) as Hg.
    apply Forall_forall. intros d Hin.
    apply elem_of_definedDoors, Hwall in Hin as [_ Hin].
    pose proof (insideBorder_inGrid _ _ _ _ Hg Hin) as Hb.
    unfold interior. lia.
  - intros c0 Hc Hn. destruct (Hcand c0 Hc Hn) as [Hnd Hall].
    split; [exact Hnd|].
    apply Forall_forall. intros d Hin. apply Hall, elem_of_definedDoors.
    exact Hin.
Qed.

Lemma door_positions_were_walls_witness :
  exists m g,
    generateMaze flatSin 1000 (newMazeGenerator (Some 1) 0)
                 (plainOptions 7 7 BINARY_TREE) 0 = Returns (m, g) /\
    exists walled,
      layoutBeforeBaking flatSin 1000 (newMazeGenerator (Some 1) 0)
                         (plainOptions 7 7 BINARY_TREE) = Returns walled /\
      (length (maze_doorPositions m) <= 3)%nat /\
      Forall (fun d => cell walled (vx d) (vy d) = Some WALL /\
                       insideBorder walled d)
             (maze_doorPositions m) /\
      (opt_algorithm (plainOptions 7 7 BINARY_TREE)
       <> RECURSIVE_BACKTRACKING \/
       (roomsFit (plainOptions 7 7 BINARY_TREE) /\
        0 <= gen_state (newMazeGenerator (Some 1) 0) < 2 ^ 53) ->
       0 < opt_width (plainOptions 7 7 BINARY_TREE) ->
       0 < opt_height (plainOptions 7 7 BINARY_TREE) ->
       Forall (interior (opt_width (plainOptions 7 7 BINARY_TREE))
                        (opt_height (plainOptions 7 7 BINARY_TREE)))
              (maze_doorPositions m)) /\
      (forall potentialDoors,
          doorCandidates walled = Returns potentialDoors ->
          (3 <= length potentialDoors)%nat ->
          NoDup (maze_doorPositions m) /\
          Forall (candidate walled) (maze_doorPositions m)).
Proof.
  eexists. eexists. split; [vm_compute; reflexivity|].
  eapply (door_positions_were_walls flatSin 1000
            (newMazeGenerator (Some 1) 0) (plainOptions 7 7 BINARY_TREE) 0).
  vm_compute. reflexivity.
Defined.

(** ** Further properties of the parts *)

(** X2: [Math.floor(this.rng() * n)] is an index of an array of length [n].
    From a state in 0 .. 2^53 - 1 and for a length [n] from 1 up, the
    rounding of the division and of the product never brings the product
    up to [n]: the index lies in 0 .. n - 1, and the state left behind is
    in 0 .. 233279. *)
Theorem random_index_in_range (n s : Z) :
  0 <= s < 2 ^ 53 -> 1 <= n < 2 ^ 53 ->
  exists i, randomIndex n s = Returns (i, lcg s) /\
            0 <= i < n /\ 0 <= lcg s < 233280.
Proof.
  intros Hs Hn.
  destruct (randomIndex_range n s) as (i & E & Hi); [lia|lia|].
  exists i. split; [exact E|]. split; [exact Hi|]. apply lcg_nonneg. lia.
Qed.

Lemma random_index_in_range_witness :
  exists i, randomIndex 6 1 = Returns (i, lcg 1) /\
            0 <= i < 6 /\ 0 <= lcg 1 < 233280.
Proof. apply (random_index_in_range 6 1); simpl; lia. Defined.

(** X3: on a layout whose rows 0 .. length - 1 are all defined,
    [findFloorTiles] returns, and what it returns lists without repetition
    exactly the floor cells that lie inside the arrays of the layout. *)
Theorem findFloorTiles_lists_the_floor (layout : Layout) :
  rowsDefined layout (len layout) ->
  exists floors,
    findFloorTiles layout = Returns floors /\
    NoDup floors /\
    forall p, p ∈ floors <-> floorAt layout p /\ inArray layout p.
Proof.
  intros Hrows. destruct (findFloorTiles_total layout Hrows) as (floors & E).
  exists floors. split; [exact E|]. apply findFloorTiles_sound, E.
Qed.

Lemma findFloorTiles_lists_the_floor_witness :
  let layout := layoutOfRows [[WALL; WALL; WALL]; [WALL; FLOOR; FLOOR];
                              [WALL; WALL; WALL]] in
  exists floors,
    findFloorTiles layout = Returns floors /\
    NoDup floors /\
    forall p, p ∈ floors <-> floorAt layout p /\ inArray layout p.
Proof.
  cbv zeta. apply findFloorTiles_lists_the_floor.
  apply (isGrid_rowsDefined _ 3 3), fullGrid_isGrid. vm_compute. reflexivity.
Defined.

(** X13: of two regions that are not empty, the search of [connectRegions]
    finds a pair of cells, one of each region, that no other such pair is
    closer than, in Manhattan distance. *)
Theorem closest_pair_is_closest (region1 region2 : list Vector2) :
  region1 <> [] -> region2 <> [] ->
  exists p1 p2,
    closestPair region1 region2 = Some (manhattan p1 p2, (p1, p2)) /\
    p1 ∈ region1 /\ p2 ∈ region2 /\
    forall q1 q2, q1 ∈ region1 -> q2 ∈ region2 ->
                  manhattan p1 p2 <= manhattan q1 q2.
Proof. apply closestPair_spec. Qed.

Lemma closest_pair_is_closest_witness :
  exists p1 p2,
    closestPair [mkV 0 0; mkV 5 5] [mkV 6 5; mkV 9 9]
    = Some (manhattan p1 p2, (p1, p2)) /\
    p1 ∈ [mkV 0 0; mkV 5 5] /\ p2 ∈ [mkV 6 5; mkV 9 9] /\
    forall q1 q2, q1 ∈ [mkV 0 0; mkV 5 5] -> q2 ∈ [mkV 6 5; mkV 9 9] ->
                  manhattan p1 p2 <= manhattan q1 q2.
Proof.
  apply (closest_pair_is_closest [mkV 0 0; mkV 5 5] [mkV 6 5; mkV 9 9]);
    discriminate.
Defined.


Lemma floodFill_finds_the_region_witness :
  let layout := gridOf 4 3 (fun x y => if y =? 1 then FLOOR else WALL) in
  exists fuel0 : nat,
    forall fuel : nat, (fuel0 <= fuel)%nat ->
    exists region visited',
      floodFill fuel layout ∅ 2 1 = Returns (region, visited') /\
      NoDup region /\
      (forall q, q ∈ region <-> reach layout (mkV 2 1) q) /\
      (forall q, key q ∈ visited' <-> q ∈ region).
Proof.
  cbv zeta.
  apply (floodFill_finds_the_region
           (gridOf 4 3 (fun x y => if y =? 1 then FLOOR else WALL))
           4 3 (mkV 2 1)).
  - apply exactGrid_isGrid, exactGrid_gridOf; lia.
  - lia.
  - intros p Hp. eapply exactGrid_inGrid; [|exact Hp].
    apply exactGrid_gridOf; lia.
  - vm_compute. reflexivity.
Defined.

Lemma ensureConnectivity_joins_the_large_regions_witness :
  let layout := gridOf 4 4 (fun _ _ => FLOOR) in
  exists fuel0 : nat,
    forall fuel : nat, (fuel0 <= fuel)%nat ->
    exists final,
      ensureConnectivity fuel layout = Returns final /\
      isGrid final 4 4 /\
      (forall p, floorAt layout p -> floorAt final p) /\
      (forall p q, large layout p -> large layout q -> reach final p q).
Proof.
  cbv zeta.
  apply (ensureConnectivity_joins_the_large_regions
           (gridOf 4 4 (fun _ _ => FLOOR)) 4 4).
  - apply exactGrid_isGrid, exactGrid_gridOf; lia.
  - lia.
  - intros p Hp. eapply exactGrid_inGrid; [|exact Hp].
    apply exactGrid_gridOf; lia.
Defined.

Lemma border_is_wall_without_rooms_witness :
  exists m g,
    generateMaze flatSin 1000 (newMazeGenerator (Some 1) 0)
                 (plainOptions 7 7 BINARY_TREE) 0 = Returns (m, g) /\
    isGrid (maze_layout m) 7 7 /\
    forall x y,
      0 <= x < 7 -> 0 <= y < 7 ->
      x = 0 \/ x = 7 - 1 \/ y = 0 \/ y = 7 - 1 ->
      cell (maze_layout m) x y = Some WALL.
Proof.
  eexists. eexists. split; [vm_compute; reflexivity|].
  eapply (border_is_wall_without_rooms flatSin 1000
            (newMazeGenerator (Some 1) 0) (plainOptions 7 7 BINARY_TREE) 0).
  - simpl. discriminate.
  - simpl. lia.
  - simpl. lia.
  - vm_compute. reflexivity.
Defined.

(** X14: recursive backtracking with rooms that fit the grid (sides from 2
    up, the largest side at most width - 3 and height - 3), from a state in
    0 .. 2^53 - 1: in a returned maze every lattice cell (odd column and
    odd row, strictly inside the border) is floor. *)
Theorem backtracking_carves_every_lattice_cell
    (Math_sin : Q -> Q) (fuel : nat) (this : MazeGenerator)
    (options : MazeGenerationOptions) (now : Z)
    (m : MazeData) (g : MazeGenerator) :
  opt_algorithm options = RECURSIVE_BACKTRACKING ->
  roomsFit options -> 0 <= gen_state this < 2 ^ 53 ->
  generateMaze Math_sin fuel this options now = Returns (m, g) ->
  forall p, lattice (opt_width options) (opt_height options) p ->
            floorAt (maze_layout m) p.
Proof.
  intros Halg Hfit Hs H p Hp.
  destruct (generateMaze_stages _ _ _ _ _ _ _ H)
    as (walled & _ & _ & _ & Hw & _).
  unfold layoutBeforeBaking in Hw.
  destruct (carve Math_sin fuel (gen_seed this) options (gen_state this))
    as [[layout s]| |] eqn:Ec; try discriminate.
  pose proof Ec as Ec'. unfold carve in Ec'. rewrite Halg in Ec'.
  apply generateRecursiveBacktracking_rooted in Ec' as [Hroot Hlat];
    [|exact Hfit|lia].
  eapply rooted_floor_kept; [exact Ec|exact Hroot| |exact H|apply Hlat, Hp].
  destruct Hfit as (? & ? & ?). lia.
Qed.

Lemma backtracking_carves_every_lattice_cell_witness :
  exists m g,
    generateMaze flatSin 1000 (newMazeGenerator (Some 1) 0)
                 (plainOptions 15 15 RECURSIVE_BACKTRACKING) 0
    = Returns (m, g) /\
    forall p, lattice 15 15 p -> floorAt (maze_layout m) p.
Proof.
  eexists. eexists. split; [vm_compute; reflexivity|].
  eapply (backtracking_carves_every_lattice_cell flatSin 1000
            (newMazeGenerator (Some 1) 0)
            (plainOptions 15 15 RECURSIVE_BACKTRACKING) 0).
  - reflexivity.
  - unfold roomsFit. simpl. lia.
  - simpl. lia.
  - vm_compute. reflexivity.
Defined.
